(** * copilot-api: request-dispatch pipeline

    A shallow embedding of the retry helper ([src/lib/retry.ts]), the
    rate-limit gate ([checkRateLimit]), the Copilot token refresh loop
    ([src/lib/token.ts]), the streaming translator
    ([src/routes/messages/stream-translation.ts]) and the request cache
    (the LRU cache module), and of the modules around them: the interval
    registry, the token setup with its refresh timer, the log emitter,
    the notification center, the shutdown manager, the health check, the
    account pool store, the Claude CLI settings, [fetchWithTimeout] and
    the persistence of the cache; followed by the properties proved
    about them.

    JavaScript numbers that hold integers (timestamps, counters, HTTP
    statuses) are [Z]; numbers that go through a division or a
    multiplication by a fraction are exact rationals [Q].  Mutable module
    state is threaded explicitly. *)

From Stdlib Require Import ZArith QArith Qround Qminmax Lia Lqa.
From stdpp Require Import gmap strings list fin_maps sorting.

Local Open Scope Z_scope.

(* ===================================================================== *)
(** * Retry utility ([src/lib/retry.ts])                                  *)
(* ===================================================================== *)

Module Retry.

(** The fields [isRetryableStatus] and [isNetworkError] read off a caught
    value.  Every field is optional, as in the casts of the source. *)
Record ErrorResponse := { resp_status : option Z }.

Record ErrorObject := {
  status : option Z;
  response : option ErrorResponse;
  code : option string;
  name : option string
}.

(** What a [catch] clause can receive: an object, or anything else
    (a string, [undefined], ...), for which [typeof error === "object"]
    fails or which is falsy. *)
Inductive Thrown :=
| ErrObj (e : ErrorObject)
| ErrPrimitive (v : string)
| ErrUndefined.

Record DelayOptions := {
  attempt : Z;
  d_initialDelayMs : Q;
  d_maxDelayMs : Q;
  d_backoffMultiplier : Q
}.

Record RetryOptions := {
  maxAttempts : Z;
  initialDelayMs : Q;
  maxDelayMs : Q;
  backoffMultiplier : Q;
  retryableStatuses : list Z
}.

(** [Partial<RetryOptions>]: an absent field is [None]. *)
Record PartialRetryOptions := {
  p_maxAttempts : option Z;
  p_initialDelayMs : option Q;
  p_maxDelayMs : option Q;
  p_backoffMultiplier : option Q;
  p_retryableStatuses : option (list Z)
}.

Definition no_options : PartialRetryOptions :=
  {| p_maxAttempts := None; p_initialDelayMs := None; p_maxDelayMs := None;
     p_backoffMultiplier := None; p_retryableStatuses := None |}.

Definition DEFAULT_OPTIONS : RetryOptions :=
  {| maxAttempts := 3;
     initialDelayMs := 1000 # 1;
     maxDelayMs := 30000 # 1;
     backoffMultiplier := 2 # 1;
     retryableStatuses := [429; 500; 502; 503; 504] |}.

(** [{ ...DEFAULT_OPTIONS, ...options }] *)
Definition merge_options (d : RetryOptions) (o : PartialRetryOptions)
  : RetryOptions :=
  {| maxAttempts := default (maxAttempts d) (p_maxAttempts o);
     initialDelayMs := default (initialDelayMs d) (p_initialDelayMs o);
     maxDelayMs := default (maxDelayMs d) (p_maxDelayMs o);
     backoffMultiplier :=
       default (backoffMultiplier d) (p_backoffMultiplier o);
     retryableStatuses :=
       default (retryableStatuses d) (p_retryableStatuses o) |}.

(** [status && retryableStatuses.includes(status)]: a missing status
    and the number 0 are both falsy. *)
Definition truthy_in (st : option Z) (l : list Z) : bool :=
  match st with
  | Some s => negb (s =? 0) && bool_decide (s ∈ l)
  | None => false
  end.

Definition isRetryableStatus (error : Thrown) (statuses : list Z) : bool :=
  match error with
  | ErrObj e =>
      if truthy_in (status e) statuses then true
      else match response e with
           | Some r => truthy_in (resp_status r) statuses
           | None => false
           end
  | _ => false
  end.

Definition str_is (o : option string) (s : string) : bool :=
  bool_decide (o = Some s).

Definition isNetworkError (error : Thrown) : bool :=
  match error with
  | ErrObj e =>
      let isNetworkCode :=
        str_is (code e) "ECONNRESET"
        || str_is (code e) "ECONNREFUSED"
        || str_is (code e) "ETIMEDOUT"
        || str_is (code e) "ENOTFOUND"
        || str_is (code e) "EAI_AGAIN" in
      if isNetworkCode then true
      else str_is (name e) "AbortError" || str_is (name e) "TimeoutError"
  | _ => false
  end.

(** The exponential term of [calculateDelay], before jitter. *)
Definition nominalDelay (o : DelayOptions) : Q :=
  d_initialDelayMs o * d_backoffMultiplier o ^ (attempt o - 1).

(** The jitter term; [rnd] is the value [Math.random()] returned, a
    number in [0, 1). *)
Definition jitterOf (o : DelayOptions) (rnd : Q) : Q :=
  nominalDelay o * (2 # 10) * (rnd - (1 # 2)).

Definition calculateDelay (o : DelayOptions) (rnd : Q) : Q :=
  let delay := nominalDelay o in
  let jitter := jitterOf o rnd in
  Qmin (delay + jitter) (d_maxDelayMs o).

(** Observable effects of one [withRetry] call, in program order. *)
Inductive Effect :=
| Invoke                          (* one call of [fn] *)
| OnRetry (attempt : Z) (error : Thrown)
| Sleep (ms : Q).

Definition is_invoke (e : Effect) : bool :=
  match e with Invoke => true | _ => false end.

Definition invocations (tr : list Effect) : nat :=
  length (List.filter is_invoke tr).

Definition sleeps (tr : list Effect) : list Q :=
  omap (λ e, match e with Sleep ms => Some ms | _ => None end) tr.

Section WithRetry.
(** [fn] is an arbitrary effectful thunk: it reads and updates a world
    [W] and either returns a [T] or throws.  [random a] is the draw
    [Math.random()] yields while handling the failure of attempt [a]. *)
Context {W T : Type}.
Variable fn : W → (Thrown + T) * W.
Variable random : Z → Q.
Variable opts : RetryOptions.

(** The [for] loop.  [fuel] bounds the number of iterations; [None]
    means the bound was too small (never the case in [withRetry]). *)
Fixpoint retry_loop (fuel : nat) (attempt : Z) (lastError : Thrown)
    (w : W) (tr : list Effect) : option ((Thrown + T) * W * list Effect) :=
  if negb (attempt <=? maxAttempts opts) then
    (* throw lastError *)
    Some (inl lastError, w, tr)
  else
    match fuel with
    | O => None
    | S fuel' =>
        let '(r, w') := fn w in
        let tr := tr ++ [Invoke] in
        match r with
        | inr v => Some (inr v, w', tr)
        | inl error =>
            let canRetry := attempt <? maxAttempts opts in
            let isRetryable :=
              isRetryableStatus error (retryableStatuses opts)
              || isNetworkError error in
            let shouldRetry := canRetry && isRetryable in
            if negb shouldRetry then Some (inl error, w', tr)
            else
              let delay :=
                calculateDelay
                  {| attempt := attempt;
                     d_initialDelayMs := initialDelayMs opts;
                     d_maxDelayMs := maxDelayMs opts;
                     d_backoffMultiplier := backoffMultiplier opts |}
                  (random attempt) in
              retry_loop fuel' (attempt + 1) error w'
                (tr ++ [OnRetry attempt error; Sleep delay])
        end
    end.
End WithRetry.

Definition withRetry {W T : Type} (fn : W → (Thrown + T) * W)
    (random : Z → Q) (options : PartialRetryOptions) (w : W)
  : option ((Thrown + T) * W * list Effect) :=
  let opts := merge_options DEFAULT_OPTIONS options in
  retry_loop fn random opts (Z.to_nat (maxAttempts opts)) 1 ErrUndefined w [].

(** ** Vocabulary of the properties *)

(** The outcome of the [k]-th invocation of [fn] (counting from 0) when
    nothing else touches the world in between, and the world after it. *)
Fixpoint nth_call {W T : Type} (fn : W → (Thrown + T) * W) (w : W)
    (k : nat) : (Thrown + T) * W :=
  match k with
  | O => fn w
  | S k' => nth_call fn (snd (fn w)) k'
  end.

(** An HTTP failure with status [st]: an error object that carries [st]
    as [status] or as [response.status], and no other status. *)
Definition has_status (error : Thrown) (st : Z) : Prop :=
  match error with
  | ErrObj e =>
      (status e = Some st ∨ (resp_status <$> response e) = Some (Some st))
      ∧ (status e = None ∨ status e = Some st)
      ∧ (response e = None ∨ (resp_status <$> response e) = Some None
         ∨ (resp_status <$> response e) = Some (Some st))
  | _ => False
  end.

(** What [new HTTPError(msg, response)] with [response.status = st]
    looks like to the two predicates above. *)
Definition http_error (st : Z) : Thrown :=
  ErrObj {| status := None; response := Some {| resp_status := Some st |};
            code := None; name := Some "Error" |}.

(** Whether [withRetry] would retry after [e], attempts permitting. *)
Definition retryable (opts : RetryOptions) (e : Thrown) : bool :=
  isRetryableStatus e (retryableStatuses opts) || isNetworkError e.

(** ** Sample inputs *)

(** The first retry under the default options. *)
Definition first_retry : DelayOptions :=
  {| attempt := 1; d_initialDelayMs := 1000 # 1;
     d_maxDelayMs := 30000 # 1; d_backoffMultiplier := 2 # 1 |}.

(** A thunk over a call counter: fails with [e] on its first [fails]
    calls, then returns ["ok"]. *)
Definition flaky (e : Thrown) (fails : nat) (calls : nat)
  : (Thrown + string) * nat :=
  (if (calls <? fails)%nat then inl e else inr "ok", S calls).

End Retry.

(* ===================================================================== *)
(** * Rate-limit gate ([checkRateLimit])                                  *)
(* ===================================================================== *)

Module RateLimit.

(** The three fields of the server [State] that [checkRateLimit] touches.
    [rateLimitSeconds = None] is [undefined]; [lastRequestTimestamp] is
    a millisecond timestamp, [None] before the first request. *)
Record State := {
  rateLimitSeconds : option Q;
  rateLimitWait : bool;
  lastRequestTimestamp : option Z
}.

(** The wall clock, read by [Date.now()].  [timerLag] is by how much a
    [sleep] overshoots the requested duration (0 for an ideal timer). *)
Record World := {
  clock : Z;
  timerLag : Z
}.

Inductive Outcome :=
| Returned
| ThrewHTTPError (message : string) (status : Z).

Inductive Effect :=
| Warn (waitTimeSeconds : Z)
| Sleep (ms : Z)
| Info.

Definition updateTimestamp (state : State) (w : World) : State :=
  {| rateLimitSeconds := rateLimitSeconds state;
     rateLimitWait := rateLimitWait state;
     lastRequestTimestamp := Some (clock w) |}.

Definition sleep (ms : Z) (w : World) : World :=
  {| clock := clock w + ms + timerLag w; timerLag := timerLag w |}.

(** [!lastTimestamp]: [undefined] and 0 are falsy. *)
Definition falsy_timestamp (t : option Z) : bool :=
  match t with
  | None => true
  | Some v => v =? 0
  end.

Definition Qgt_bool (a b : Q) : bool :=
  match Qcompare a b with Gt => true | _ => false end.

Definition checkRateLimit (state : State) (w : World)
  : Outcome * State * World * list Effect :=
  match rateLimitSeconds state with
  | None => (Returned, state, w, [])
  | Some limit =>
      let now := clock w in
      let lastTimestamp := lastRequestTimestamp state in
      if falsy_timestamp lastTimestamp then
        (Returned, updateTimestamp state w, w, [])
      else
        let elapsedSeconds := (now - default 0 lastTimestamp) # 1000 in
        if Qgt_bool elapsedSeconds limit then
          (Returned, updateTimestamp state w, w, [])
        else
          let waitTimeSeconds := Qceiling (limit - elapsedSeconds) in
          if negb (rateLimitWait state) then
            (ThrewHTTPError "Rate limit exceeded" 429, state, w,
             [Warn waitTimeSeconds])
          else
            let waitTimeMs := waitTimeSeconds * 1000 in
            let w' := sleep waitTimeMs w in
            (Returned, updateTimestamp state w', w',
             [Warn waitTimeSeconds; Sleep waitTimeMs; Info])
  end.

(** ** Vocabulary of the properties and sample inputs *)


(** A 10 second interval with the last request at t = 1000 ms; at
    t = 4000 ms 3 s have elapsed and 7 s remain, at t = 20000 ms the
    interval is over. *)
Definition paced (wait : bool) : State :=
  {| rateLimitSeconds := Some (10 # 1); rateLimitWait := wait;
     lastRequestTimestamp := Some 1000 |}.

Definition at_4000 : World := {| clock := 4000; timerLag := 0 |}.


End RateLimit.

(* ===================================================================== *)
(** * Copilot token refresh ([src/lib/token.ts])                          *)
(* ===================================================================== *)

Module Token.

Record GetCopilotTokenResponse := {
  expires_at : Z;
  refresh_in : Z;
  token : string
}.

Definition MAX_TOKEN_REFRESH_RETRIES : Z := 3.

(** The part of the global [state] that the token code writes. *)
Record State := {
  githubToken : option string;
  copilotToken : option string
}.

Inductive Effect :=
| Fetch                              (* one call of [getCopilotToken] *)
| Sleep (ms : Z)
| LogAttemptFailed (attempt : Z)     (* consola.error in the catch *)
| LogAllFailed                       (* the final consola.error *)
| LogRefreshed.

Definition fetches (tr : list Effect) : nat :=
  length (List.filter (λ e, match e with Fetch => true | _ => false end) tr).

Definition sleeps (tr : list Effect) : list Z :=
  omap (λ e, match e with Sleep ms => Some ms | _ => None end) tr.

Definition logged_all_failed (tr : list Effect) : bool :=
  existsb (λ e, match e with LogAllFailed => true | _ => false end) tr.

(** The delay handed to [setInterval]. *)
Definition refreshInterval (r : GetCopilotTokenResponse) : Z :=
  (refresh_in r - 60) * 1000.

Section Refresh.
(** [getCopilotToken]: a network call that answers or throws. *)
Context {W E : Type}.
Variable getCopilotToken : W → (E + GetCopilotTokenResponse) * W.

(** The [for] loop of the interval callback. *)
Fixpoint refresh_loop (fuel : nat) (attempt : Z) (st : State) (w : W)
    (tr : list Effect) : option (State * W * list Effect) :=
  if negb (attempt <=? MAX_TOKEN_REFRESH_RETRIES) then
    Some (st, w, tr ++ [LogAllFailed])
  else
    match fuel with
    | O => None
    | S fuel' =>
        let '(r, w') := getCopilotToken w in
        let tr := tr ++ [Fetch] in
        match r with
        | inr resp =>
            Some ({| githubToken := githubToken st;
                     copilotToken := Some (token resp) |},
                  w', tr ++ [LogRefreshed])
        | inl _ =>
            let tr := tr ++ [LogAttemptFailed attempt] in
            let tr :=
              if attempt <? MAX_TOKEN_REFRESH_RETRIES
              then tr ++ [Sleep (attempt * 5000)] else tr in
            refresh_loop fuel' (attempt + 1) st w' tr
        end
    end.

(** One firing of the interval timer. *)
Definition refreshCallback (st : State) (w : W)
  : option (State * W * list Effect) :=
  refresh_loop (Z.to_nat MAX_TOKEN_REFRESH_RETRIES) 1 st w [].

(** [setupCopilotToken]: the first fetch (whose failure propagates),
    and the period of the timer it installs. *)
Definition setupCopilotToken (tokenOverride : option string)
    (st : State) (w : W) : (E + (State * Z)) * W :=
  let st :=
    match tokenOverride with
    | Some t => if bool_decide (t = "") then st
                else {| githubToken := Some t;
                        copilotToken := copilotToken st |}
    | None => st
    end in
  let '(r, w') := getCopilotToken w in
  match r with
  | inl e => (inl e, w')
  | inr resp =>
      (inr ({| githubToken := githubToken st;
               copilotToken := Some (token resp) |},
            refreshInterval resp), w')
  end.
End Refresh.

(** ** Vocabulary of the properties *)

(** Re-attempts after the first attempt of one refresh. *)
Definition retries (tr : list Effect) : nat := pred (fetches tr).

(** Outcome of the [k]-th fetch (from 0) and the world after it. *)
Fixpoint nth_fetch {W E : Type}
    (get : W → (E + GetCopilotTokenResponse) * W) (w : W) (k : nat)
  : (E + GetCopilotTokenResponse) * W :=
  match k with
  | O => get w
  | S k' => nth_fetch get (snd (get w)) k'
  end.

(** The sleeps of a refresh whose first [m] attempts fail. *)
Definition backoff_after (m : nat) : list Z :=
  firstn m [5000; 10000].

(** The first [m] fetches from world [w] all throw. *)
Definition all_fail {W E : Type}
    (get : W → (E + GetCopilotTokenResponse) * W) (w : W) (m : nat) : Prop :=
  ∀ k, (k < m)%nat → ∃ e, fst (nth_fetch get w k) = inl e.

(** ** Sample inputs *)

(** A token endpoint that always fails, and one that answers with a
    token that expires 1800 s from now and asks to be refreshed in
    1500 s (the clock reads 0 when the response arrives). *)
Definition always_fail (w : unit) : (string + GetCopilotTokenResponse) * unit :=
  (inl "503", w).

Definition sample_response : GetCopilotTokenResponse :=
  {| expires_at := 1800; refresh_in := 1500; token := "tid=new" |}.

Definition answers (w : unit) : (string + GetCopilotTokenResponse) * unit :=
  (inr sample_response, w).

Definition stale : State :=
  {| githubToken := Some "gho_x"; copilotToken := Some "tid=old" |}.

End Token.

(* ===================================================================== *)
(** * Streaming translator ([routes/messages/stream-translation.ts])      *)
(* ===================================================================== *)

Module Stream.

(** ** Upstream chunks ([ChatCompletionChunk])

    The type is declared in [services/copilot/create-chat-completions];
    the fields below are the ones the translator reads. *)

Inductive FinishReason := fr_stop | fr_length | fr_tool_calls | fr_content_filter.

Record ToolCallFunction := {
  fn_name : option string;
  fn_arguments : option string
}.

Record ToolCallDelta := {
  tc_index : Z;
  tc_id : option string;
  tc_function : option ToolCallFunction
}.

Record Delta := {
  content : option string;
  tool_calls : option (list ToolCallDelta)
}.

Record Choice := {
  delta : Delta;
  finish_reason : option FinishReason
}.

Record PromptTokensDetails := { cached_tokens : Z }.

Record Usage := {
  prompt_tokens : Z;
  completion_tokens : Z;
  prompt_tokens_details : option PromptTokensDetails
}.

Record Chunk := {
  id : string;
  model : string;
  choices : list Choice;
  usage : option Usage
}.

(** ** Target events ([AnthropicStreamEventData]) *)

(** Modelled from the spec: the stop-reason vocabulary of the target
    protocol and [mapOpenAIStopReasonToAnthropic], which live in
    [./utils] and [./anthropic-types]; the spec names the four reasons
    "normal completion, length limit, tool invocation, content filter". *)
Inductive StopReason :=
| normal_completion | length_limit | tool_invocation | content_filtered.

Definition mapOpenAIStopReasonToAnthropic (r : FinishReason) : StopReason :=
  match r with
  | fr_stop => normal_completion
  | fr_length => length_limit
  | fr_tool_calls => tool_invocation
  | fr_content_filter => content_filtered
  end.

Inductive ContentBlock :=
| TextBlock (text : string)
| ToolUseBlock (id name : string).

Inductive BlockDelta :=
| TextDelta (text : string)
| InputJsonDelta (partial_json : string).

Record MessageUsage := {
  input_tokens : Z;
  output_tokens : Z;
  cache_read_input_tokens : option Z
}.

Inductive Event :=
| MessageStart (id model : string) (u : MessageUsage)
| ContentBlockStart (index : Z) (content_block : ContentBlock)
| ContentBlockDelta (index : Z) (d : BlockDelta)
| ContentBlockStop (index : Z)
| MessageDelta (stop_reason : StopReason) (u : MessageUsage)
| MessageStop
| ErrorEvent (message : string).

(** The [type] tag of an event. *)
Inductive EventType :=
| message_start | content_block_start | content_block_delta
| content_block_stop | message_delta | message_stop | error.

Definition event_type (e : Event) : EventType :=
  match e with
  | MessageStart _ _ _ => message_start
  | ContentBlockStart _ _ => content_block_start
  | ContentBlockDelta _ _ => content_block_delta
  | ContentBlockStop _ => content_block_stop
  | MessageDelta _ _ => message_delta
  | MessageStop => message_stop
  | ErrorEvent _ => error
  end.

(** ** Per-connection state ([AnthropicStreamState])

    Declared in [./anthropic-types]; the four fields below are the ones
    the translator reads and writes. *)

Record ToolCallInfo := {
  tci_id : string;
  tci_name : string;
  anthropicBlockIndex : Z
}.

Record State := {
  messageStartSent : bool;
  contentBlockIndex : Z;
  contentBlockOpen : bool;
  toolCalls : gmap Z ToolCallInfo
}.

(** Modelled from the spec: the state a connection starts with (built by
    the route handler, which is not part of the sources at hand): no
    message started, no block open, block index 0, no tool call seen. *)
Definition fresh_state : State :=
  {| messageStartSent := false; contentBlockIndex := 0;
     contentBlockOpen := false; toolCalls := ∅ |}.

(** JavaScript truthiness of an optional string: present and not empty. *)
Definition truthy (s : option string) : option string :=
  match s with
  | Some v => if bool_decide (v = "") then None else Some v
  | None => None
  end.

Definition isToolBlockOpen (state : State) : bool :=
  if negb (contentBlockOpen state) then false
  else existsb (λ kv, anthropicBlockIndex (snd kv) =? contentBlockIndex state)
         (map_to_list (toolCalls state)).

Definition calculateInputTokens (chunk : Chunk) : Z :=
  default 0 (prompt_tokens <$> usage chunk)
  - default 0 (cached_tokens <$> (usage chunk ≫= prompt_tokens_details)).

Definition getCacheReadTokens (chunk : Chunk) : option Z :=
  cached_tokens <$> (usage chunk ≫= prompt_tokens_details).

Definition createMessageStartEvent (chunk : Chunk) : Event :=
  MessageStart (id chunk) (model chunk)
    {| input_tokens := calculateInputTokens chunk;
       output_tokens := 0;
       cache_read_input_tokens := getCacheReadTokens chunk |}.

(** The handlers mutate [state] and push onto [events]; here they take
    and return the pair. *)
Definition closeContentBlock (state : State) : Event * State :=
  (ContentBlockStop (contentBlockIndex state),
   {| messageStartSent := messageStartSent state;
      contentBlockIndex := contentBlockIndex state + 1;
      contentBlockOpen := false;
      toolCalls := toolCalls state |}).

Definition set_open (state : State) (b : bool) : State :=
  {| messageStartSent := messageStartSent state;
     contentBlockIndex := contentBlockIndex state;
     contentBlockOpen := b;
     toolCalls := toolCalls state |}.

Definition handleTextContent (state : State) (content : string)
    (events : list Event) : State * list Event :=
  let '(state, events) :=
    if isToolBlockOpen state then
      let '(ev, state') := closeContentBlock state in
      (state', events ++ [ev])
    else (state, events) in
  let '(state, events) :=
    if negb (contentBlockOpen state) then
      (set_open state true,
       events ++ [ContentBlockStart (contentBlockIndex state) (TextBlock "")])
    else (state, events) in
  (state,
   events ++ [ContentBlockDelta (contentBlockIndex state) (TextDelta content)]).

Definition handleNewToolCall (state : State) (toolCallIndex : Z)
    (toolCallId toolCallName : string) (events : list Event)
  : State * list Event :=
  let '(state, events) :=
    if contentBlockOpen state then
      let '(ev, state') := closeContentBlock state in
      (state', events ++ [ev])
    else (state, events) in
  let anthropicBlockIndex := contentBlockIndex state in
  let state :=
    {| messageStartSent := messageStartSent state;
       contentBlockIndex := contentBlockIndex state;
       contentBlockOpen := true;
       toolCalls :=
         <[toolCallIndex :=
             {| tci_id := toolCallId; tci_name := toolCallName;
                anthropicBlockIndex := anthropicBlockIndex |}]>
           (toolCalls state) |} in
  (state,
   events ++ [ContentBlockStart anthropicBlockIndex
                (ToolUseBlock toolCallId toolCallName)]).

Definition handleToolCallArguments (state : State) (toolCallIndex : Z)
    (args : string) (events : list Event) : State * list Event :=
  match toolCalls state !! toolCallIndex with
  | None => (state, events)
  | Some toolCallInfo =>
      (state,
       events ++ [ContentBlockDelta (anthropicBlockIndex toolCallInfo)
                    (InputJsonDelta args)])
  end.

Definition handleFinishReason (chunk : Chunk) (state : State)
    (finishReason : FinishReason) (events : list Event)
  : State * list Event :=
  let '(state, events) :=
    if contentBlockOpen state then
      (set_open state false,
       events ++ [ContentBlockStop (contentBlockIndex state)])
    else (state, events) in
  (state,
   events ++
     [MessageDelta (mapOpenAIStopReasonToAnthropic finishReason)
        {| input_tokens := calculateInputTokens chunk;
           output_tokens := default 0 (completion_tokens <$> usage chunk);
           cache_read_input_tokens := getCacheReadTokens chunk |};
      MessageStop]).

(** The body of [for (const toolCall of delta.tool_calls)]. *)
Definition handleToolCall (acc : State * list Event) (toolCall : ToolCallDelta)
  : State * list Event :=
  let '(state, events) := acc in
  let '(state, events) :=
    match truthy (tc_id toolCall),
          truthy (tc_function toolCall ≫= fn_name) with
    | Some tid, Some tname =>
        handleNewToolCall state (tc_index toolCall) tid tname events
    | _, _ => (state, events)
    end in
  match truthy (tc_function toolCall ≫= fn_arguments) with
  | Some args => handleToolCallArguments state (tc_index toolCall) args events
  | None => (state, events)
  end.

Definition translateChunkToAnthropicEvents (chunk : Chunk) (state : State)
  : list Event * State :=
  let events : list Event := [] in
  match choices chunk with
  | [] => (events, state)
  | choice :: _ =>
      let '(state, events) :=
        if negb (messageStartSent state) then
          ({| messageStartSent := true;
              contentBlockIndex := contentBlockIndex state;
              contentBlockOpen := contentBlockOpen state;
              toolCalls := toolCalls state |},
           events ++ [createMessageStartEvent chunk])
        else (state, events) in
      let '(state, events) :=
        match truthy (content (delta choice)) with
        | Some text => handleTextContent state text events
        | None => (state, events)
        end in
      let '(state, events) :=
        match tool_calls (delta choice) with
        | Some tcs => fold_left handleToolCall tcs (state, events)
        | None => (state, events)
        end in
      let '(state, events) :=
        match finish_reason choice with
        | Some fr => handleFinishReason chunk state fr events
        | None => (state, events)
        end in
      (events, state)
  end.

(** Driving the translator over the chunks of one connection, in arrival
    order, with the one state object of that connection; the events are
    forwarded in the order produced. *)
Fixpoint translateStream (chunks : list Chunk) (state : State)
  : list Event * State :=
  match chunks with
  | [] => ([], state)
  | c :: rest =>
      let '(evs, state') := translateChunkToAnthropicEvents c state in
      let '(evs', state'') := translateStream rest state' in
      (evs ++ evs', state'')
  end.

(** ** Chunks of the shapes the properties talk about

    [i], [m] and [u] are the chunk's [id], [model] and [usage]. *)

Definition mk_chunk (i m : string) (u : option Usage) (d : Delta)
    (fr : option FinishReason) : Chunk :=
  {| id := i; model := m;
     choices := [{| delta := d; finish_reason := fr |}]; usage := u |}.

Definition text_chunk (i m : string) (u : option Usage) (s : string) : Chunk :=
  mk_chunk i m u {| content := Some s; tool_calls := None |} None.

Definition finish_chunk (i m : string) (u : option Usage) (fr : FinishReason)
  : Chunk :=
  mk_chunk i m u {| content := None; tool_calls := None |} (Some fr).

Definition empty_choices_chunk (i m : string) (u : option Usage) : Chunk :=
  {| id := i; model := m; choices := []; usage := u |}.

(** ** Block discipline of an event sequence

    [blocks_ok cur hi evs]: reading [evs] left to right with [cur] the
    index of the block that is open (if any) and [hi] an index above
    every block opened so far, each [content_block_start] happens while
    no block is open and carries an index of at least [hi], and each
    [content_block_stop] closes the open block. *)
Fixpoint blocks_ok (cur : option Z) (hi : Z) (evs : list Event) : bool :=
  match evs with
  | [] => true
  | ContentBlockStart i _ :: rest =>
      match cur with
      | Some _ => false
      | None => (hi <=? i) && blocks_ok (Some i) (i + 1) rest
      end
  | ContentBlockStop i :: rest =>
      match cur with
      | Some j => (i =? j) && blocks_ok None hi rest
      | None => false
      end
  | _ :: rest => blocks_ok cur hi rest
  end.

(** The indices of the [content_block_start] events, in order. *)
Definition start_indices (evs : list Event) : list Z :=
  omap (λ e, match e with ContentBlockStart i _ => Some i | _ => None end) evs.

Fixpoint strictly_increasing (l : list Z) : bool :=
  match l with
  | a :: (b :: _) as rest => (a <? b) && strictly_increasing rest
  | _ => true
  end.

(** A finish reason ends the stream: every chunk that comes after a
    chunk carrying one has an empty [choices] array. *)
Definition has_finish (c : Chunk) : bool :=
  match choices c with
  | choice :: _ => bool_decide (is_Some (finish_reason choice))
  | [] => false
  end.

Definition no_choices (c : Chunk) : bool :=
  match choices c with [] => true | _ => false end.

Fixpoint finish_is_terminal (chunks : list Chunk) : bool :=
  match chunks with
  | [] => true
  | c :: rest =>
      if has_finish c then forallb no_choices rest
      else finish_is_terminal rest
  end.

(** [blocks_ok] with the final reading position made explicit. *)
Fixpoint blocks_run (cur : option Z) (hi : Z) (evs : list Event)
  : option (option Z * Z) :=
  match evs with
  | [] => Some (cur, hi)
  | ContentBlockStart i _ :: rest =>
      match cur with
      | Some _ => None
      | None => if hi <=? i then blocks_run (Some i) (i + 1) rest else None
      end
  | ContentBlockStop i :: rest =>
      match cur with
      | Some j => if i =? j then blocks_run None hi rest else None
      | None => None
      end
  | _ :: rest => blocks_run cur hi rest
  end.

(** What the translator state says about open blocks: the open block,
    and the least index a new block can get. *)
Definition cur_of (st : State) : option Z :=
  if contentBlockOpen st then Some (contentBlockIndex st) else None.

Definition hi_of (st : State) : Z :=
  if contentBlockOpen st then contentBlockIndex st + 1
  else contentBlockIndex st.

(** A handler step from [(st, evs)] to [(st', evs')]: it only appends
    events, the appended events respect the block discipline and leave
    it where [st'] says, and [messageStartSent] is not reset. *)
Definition step_ok (a b : State * list Event) : Prop :=
  ∃ new, snd b = snd a ++ new
         ∧ blocks_run (cur_of (fst a)) (hi_of (fst a)) new
           = Some (cur_of (fst b), hi_of (fst b))
         ∧ (messageStartSent (fst a) = true → messageStartSent (fst b) = true).

(** ** Sample streams *)

(** A chunk with one tool-call delta. *)
Definition tool_chunk (idx : Z) (tid tname : option string)
    (args : option string) : Chunk :=
  mk_chunk "c1" "gpt-4" None
    {| content := None;
       tool_calls :=
         Some [{| tc_index := idx; tc_id := tid;
                  tc_function :=
                    Some {| fn_name := tname; fn_arguments := args |} |}] |}
    None.

(** A tool call, then text, then a second tool call with arguments, then
    the finish reason. *)
Definition mixed_stream : list Chunk :=
  [tool_chunk 0 (Some "call_a") (Some "search") None;
   text_chunk "c1" "gpt-4" None "thinking";
   tool_chunk 1 (Some "call_b") (Some "fetch") (Some "{");
   tool_chunk 1 None None (Some "}");
   finish_chunk "c1" "gpt-4" None fr_tool_calls].

(** Text, the finish reason, then text again. *)
Definition resumed_stream : list Chunk :=
  [text_chunk "c1" "gpt-4" None "a";
   finish_chunk "c1" "gpt-4" None fr_stop;
   text_chunk "c1" "gpt-4" None "b"].

End Stream.

(* ===================================================================== *)
(** * Request cache (LRU over a doubly linked list)                       *)
(* ===================================================================== *)

Module Cache.

(** [response] is [unknown] in the source: any payload type [R]. *)
Record CacheEntry {R : Type} := {
  key : string;
  response : R;
  model : string;
  inputTokens : Z;
  outputTokens : Z;
  createdAt : Z;
  lastAccessed : Z;
  hits : Z
}.
Arguments CacheEntry : clear implicits.

(** Node objects are identified by the address they were allocated at;
    [prev] and [next] hold addresses ([None] is [null]). *)
Definition addr := nat.

Record LRUNode := {
  n_key : string;
  prev : option addr;
  next : option addr
}.

Record CacheConfig := {
  enabled : bool;
  maxSize : Z;
  ttlSeconds : Z
}.

(** [Partial<CacheConfig>]: an absent field is [None]. *)
Record PartialCacheConfig := {
  pc_enabled : option bool;
  pc_maxSize : option Z;
  pc_ttlSeconds : option Z
}.

(** [{ ...cacheConfig, ...config }] *)
Definition merge_config (c : CacheConfig) (p : PartialCacheConfig)
  : CacheConfig :=
  {| enabled := default (enabled c) (pc_enabled p);
     maxSize := default (maxSize c) (pc_maxSize p);
     ttlSeconds := default (ttlSeconds c) (pc_ttlSeconds p) |}.

(** The module-level variables.  [heap] holds every node object ever
    allocated (unreachable ones are garbage); [nextAddr] is the address
    the next [{ key, prev, next }] literal gets. *)
Record CacheState {R : Type} := {
  cache : gmap string (CacheEntry R);
  heap : gmap addr LRUNode;
  nextAddr : addr;
  lruNodes : gmap string addr;
  lruHead : option addr;
  lruTail : option addr;
  cacheConfig : CacheConfig;
  stat_hits : Z;
  stat_misses : Z;
  savedTokens : Z;
  isDirty : bool
}.
Arguments CacheState : clear implicits.

(** The module variables with nothing cached, under configuration
    [cfg]; the module starts in [initial_state], and [initCache] then
    installs the configured values. *)
Definition empty_state (R : Type) (cfg : CacheConfig) : CacheState R :=
  {| cache := ∅; heap := ∅; nextAddr := 0%nat; lruNodes := ∅;
     lruHead := None; lruTail := None; cacheConfig := cfg;
     stat_hits := 0; stat_misses := 0; savedTokens := 0; isDirty := false |}.

Definition initial_state (R : Type) : CacheState R :=
  empty_state R {| enabled := false; maxSize := 1000; ttlSeconds := 3600 |}.

(** ** Field reads and writes on node objects *)

Definition prevOf (h : gmap addr LRUNode) (a : addr) : option addr :=
  h !! a ≫= prev.
Definition nextOf (h : gmap addr LRUNode) (a : addr) : option addr :=
  h !! a ≫= next.
Definition keyOf (h : gmap addr LRUNode) (a : addr) : option string :=
  n_key <$> h !! a.

Definition setPrev (a : addr) (v : option addr) (h : gmap addr LRUNode)
  : gmap addr LRUNode :=
  alter (λ n, {| n_key := n_key n; prev := v; next := next n |}) a h.
Definition setNext (a : addr) (v : option addr) (h : gmap addr LRUNode)
  : gmap addr LRUNode :=
  alter (λ n, {| n_key := n_key n; prev := prev n; next := v |}) a h.

(** [if (p) p.next = v] and [if (p) p.prev = v] for a nullable [p]. *)
Definition setNextOpt (p v : option addr) (h : gmap addr LRUNode) :=
  match p with Some a => setNext a v h | None => h end.
Definition setPrevOpt (p v : option addr) (h : gmap addr LRUNode) :=
  match p with Some a => setPrev a v h | None => h end.

Section Ops.
Context {R : Type}.
Local Abbreviation St := (CacheState R).

Definition with_lru (s : St) (h : gmap addr LRUNode) (na : addr)
    (nodes : gmap string addr) (hd tl : option addr) : St :=
  {| cache := cache s; heap := h; nextAddr := na; lruNodes := nodes;
     lruHead := hd; lruTail := tl; cacheConfig := cacheConfig s;
     stat_hits := stat_hits s; stat_misses := stat_misses s;
     savedTokens := savedTokens s; isDirty := isDirty s |}.

Definition with_cache (s : St) (c : gmap string (CacheEntry R))
    (dirty : bool) : St :=
  {| cache := c; heap := heap s; nextAddr := nextAddr s;
     lruNodes := lruNodes s; lruHead := lruHead s; lruTail := lruTail s;
     cacheConfig := cacheConfig s; stat_hits := stat_hits s;
     stat_misses := stat_misses s; savedTokens := savedTokens s;
     isDirty := dirty |}.

Definition with_stats (s : St) (h m t : Z) (dirty : bool) : St :=
  {| cache := cache s; heap := heap s; nextAddr := nextAddr s;
     lruNodes := lruNodes s; lruHead := lruHead s; lruTail := lruTail s;
     cacheConfig := cacheConfig s; stat_hits := h; stat_misses := m;
     savedTokens := t; isDirty := dirty |}.

Definition moveToFront (node : addr) (s : St) : St :=
  if bool_decide (lruHead s = Some node) then s
  else
    let h := heap s in
    (* remove from current position *)
    let h := setNextOpt (prevOf h node) (nextOf h node) h in
    let h := setPrevOpt (nextOf h node) (prevOf h node) h in
    let tl :=
      if bool_decide (lruTail s = Some node) then prevOf h node
      else lruTail s in
    (* move to front *)
    let h := setPrev node None h in
    let h := setNext node (lruHead s) h in
    let h := setPrevOpt (lruHead s) (Some node) h in
    let hd := Some node in
    let tl := match tl with None => Some node | Some _ => tl end in
    with_lru s h (nextAddr s) (lruNodes s) hd tl.

Definition addToFront (k : string) (s : St) : St :=
  let node := nextAddr s in
  let h := <[node := {| n_key := k; prev := None; next := lruHead s |}]>
             (heap s) in
  let h := setPrevOpt (lruHead s) (Some node) h in
  let hd := Some node in
  let tl := match lruTail s with None => Some node | Some _ => lruTail s end in
  with_lru s h (S node) (<[k := node]> (lruNodes s)) hd tl.

(** [lruTail] always refers to an allocated node; the [None] branches
    of the heap reads below are there for totality only. *)
Definition removeTail (s : St) : option string * St :=
  match lruTail s with
  | None => (None, s)
  | Some t =>
      match keyOf (heap s) t with
      | None => (None, s)
      | Some k =>
          let nodes := delete k (lruNodes s) in
          match prevOf (heap s) t with
          | Some p =>
              let h := setNext p None (heap s) in
              (Some k, with_lru s h (nextAddr s) nodes (lruHead s) (prevOf h t))
          | None =>
              (Some k, with_lru s (heap s) (nextAddr s) nodes None None)
          end
      end
  end.

Definition removeNode (k : string) (s : St) : St :=
  match lruNodes s !! k with
  | None => s
  | Some node =>
      let h := heap s in
      let h := setNextOpt (prevOf h node) (nextOf h node) h in
      let h := setPrevOpt (nextOf h node) (prevOf h node) h in
      let hd :=
        if bool_decide (lruHead s = Some node) then nextOf h node
        else lruHead s in
      let tl :=
        if bool_decide (lruTail s = Some node) then prevOf h node
        else lruTail s in
      with_lru s h (nextAddr s) (delete k (lruNodes s)) hd tl
  end.

Definition resetLRU (s : St) : St :=
  with_lru s (heap s) (nextAddr s) ∅ None None.

(** The [while] loop of [evictLRU].  [if (key)] is false for [null]
    and for the empty string.  [None]: [fuel] iterations did not
    finish the loop. *)
Fixpoint evict_loop (fuel : nat) (s : St) : option St :=
  if negb (Z.of_nat (size (cache s)) >? maxSize (cacheConfig s)) then Some s
  else
    match fuel with
    | O => None
    | S fuel' =>
        match removeTail s with
        | (Some k, s') =>
            if bool_decide (k = "") then Some s'
            else evict_loop fuel' (with_cache s' (delete k (cache s')) true)
        | (None, s') => Some s'
        end
    end.

(** On a well-formed cache an iteration either deletes an entry or
    leaves the loop, so [size + 1] iterations are enough. *)
Definition evictLRU (s : St) : option St :=
  evict_loop (S (size (cache s))) s.

(** [now] is the value of [Date.now()] during the call. *)
Definition getCachedResponse (now : Z) (k : string) (s : St)
  : option (CacheEntry R) * St :=
  if negb (enabled (cacheConfig s)) then (None, s)
  else
    match cache s !! k with
    | None =>
        (None, with_stats s (stat_hits s) (stat_misses s + 1)
                 (savedTokens s) (isDirty s))
    | Some entry =>
        let ttlMs := ttlSeconds (cacheConfig s) * 1000 in
        if now - createdAt entry >? ttlMs then
          let s := with_cache s (delete k (cache s)) (isDirty s) in
          let s := removeNode k s in
          (None, with_stats s (stat_hits s) (stat_misses s + 1)
                   (savedTokens s) true)
        else
          let entry :=
            {| key := key entry; response := response entry;
               model := model entry; inputTokens := inputTokens entry;
               outputTokens := outputTokens entry;
               createdAt := createdAt entry;
               lastAccessed := now; hits := hits entry + 1 |} in
          let s := with_cache s (<[k := entry]> (cache s)) (isDirty s) in
          let s :=
            with_stats s (stat_hits s + 1) (stat_misses s)
              (savedTokens s + (inputTokens entry + outputTokens entry))
              true in
          let s :=
            match lruNodes s !! k with
            | Some node => moveToFront node s
            | None => s
            end in
          (Some entry, s)
    end.

Record SetCachedResponseOptions := {
  o_key : string;
  o_response : R;
  o_model : string;
  o_inputTokens : Z;
  o_outputTokens : Z
}.

Definition new_entry (now : Z) (o : SetCachedResponseOptions)
  : CacheEntry R :=
  {| key := o_key o; response := o_response o; model := o_model o;
     inputTokens := o_inputTokens o; outputTokens := o_outputTokens o;
     createdAt := now; lastAccessed := now; hits := 0 |}.

Definition setCachedResponse (now : Z) (o : SetCachedResponseOptions)
    (s : St) : option St :=
  if negb (enabled (cacheConfig s)) then Some s
  else
    let entry := new_entry now o in
    let s :=
      if bool_decide (is_Some (cache s !! o_key o)) then
        match lruNodes s !! o_key o with
        | Some node => moveToFront node s
        | None => s
        end
      else addToFront (o_key o) s in
    let s := with_cache s (<[o_key o := entry]> (cache s)) true in
    evictLRU s.

Definition deleteCacheEntry (k : string) (s : St) : bool * St :=
  match cache s !! k with
  | Some _ =>
      let s := with_cache s (delete k (cache s)) (isDirty s) in
      let s := removeNode k s in
      (true, with_cache s (cache s) true)
  | None => (false, s)
  end.

Definition clearCache (s : St) : St :=
  resetLRU (with_cache s ∅ true).

Definition with_config (s : St) (cfg : CacheConfig) : St :=
  {| cache := cache s; heap := heap s; nextAddr := nextAddr s;
     lruNodes := lruNodes s; lruHead := lruHead s; lruTail := lruTail s;
     cacheConfig := cfg; stat_hits := stat_hits s;
     stat_misses := stat_misses s; savedTokens := savedTokens s;
     isDirty := isDirty s |}.

Definition updateCacheConfig (config : PartialCacheConfig) (s : St)
  : option St :=
  let s := with_config s (merge_config (cacheConfig s) config) in
  let s :=
    if negb (enabled (cacheConfig s))
    then resetLRU (with_cache s ∅ (isDirty s)) else s in
  evictLRU s.

(** The calls a client of the module can make, and their effect on the
    module state. *)
Inductive CacheOp :=
| OpGet (now : Z) (k : string)
| OpSet (now : Z) (o : SetCachedResponseOptions)
| OpDelete (k : string)
| OpClear
| OpConfig (config : PartialCacheConfig).

Definition run_op (op : CacheOp) (s : St) : option St :=
  match op with
  | OpGet now k => Some (snd (getCachedResponse now k s))
  | OpSet now o => setCachedResponse now o s
  | OpDelete k => Some (snd (deleteCacheEntry k s))
  | OpClear => Some (clearCache s)
  | OpConfig config => updateCacheConfig config s
  end.

Fixpoint run_ops (ops : list CacheOp) (s : St) : option St :=
  match ops with
  | [] => Some s
  | op :: rest =>
      match run_op op s with
      | Some s' => run_ops rest s'
      | None => None
      end
  end.

(** Stores use non-empty keys. *)
Definition op_ok (op : CacheOp) : Prop :=
  match op with
  | OpSet _ o => o_key o ≠ ""
  | _ => True
  end.

(** Any call but a store under key [k]. *)
Definition not_a_store_under (k : string) (op : CacheOp) : Prop :=
  match op with
  | OpSet _ o => o_key o ≠ k
  | _ => True
  end.

End Ops.

(** ** Cache keys *)

(** [generateCacheKey]: the model name, an underscore, and the first 16
    hex digits of the SHA-256 digest of the canonical payload; the
    digest is computed by [node:crypto] and is a parameter here. *)
Definition generateCacheKey (model digest16 : string) : string :=
  model +:+ "_" +:+ digest16.

(** ** Doubly linked segments

    [cells] lists the nodes of a segment front to back, each with its
    address and key.  [dseg h p cells n]: in heap [h] the nodes are
    chained in this order, the first one pointing back to [p] and the
    last one pointing on to [n]. *)
Abbreviation cell := (addr * string)%type.

Definition first_addr (cells : list cell) (dflt : option addr) : option addr :=
  match cells with
  | [] => dflt
  | c :: _ => Some (fst c)
  end.

Definition last_addr (cells : list cell) (dflt : option addr) : option addr :=
  match last cells with
  | Some c => Some (fst c)
  | None => dflt
  end.

Fixpoint dseg (h : gmap addr LRUNode) (p : option addr) (cells : list cell)
    (n : option addr) : Prop :=
  match cells with
  | [] => True
  | c :: rest =>
      h !! fst c
      = Some {| n_key := snd c; prev := p; next := first_addr rest n |}
      ∧ dseg h (Some (fst c)) rest n
  end.

(** ** The recency list of a cache state

    [lru_ok s cells]: the nodes reachable from [lruHead] are exactly
    [cells], most recently used first; [lruTail] is the last of them;
    [lruNodes] indexes them by key. *)
Record lru_ok {R : Type} (s : CacheState R) (cells : list cell) : Prop := {
  ok_dseg : dseg (heap s) None cells None;
  ok_nodup : NoDup cells.*1;
  ok_keys : NoDup cells.*2;
  ok_head : lruHead s = first_addr cells None;
  ok_tail : lruTail s = last_addr cells None;
  ok_nodes : ∀ k a, lruNodes s !! k = Some a ↔ (a, k) ∈ cells;
  ok_fresh : ∀ a, a ∈ cells.*1 → (a < nextAddr s)%nat
}.

(** ** The cache invariant

    The keys of the entry map are the keys of the recency list, and no
    key is the empty string (keys produced by [generateCacheKey] never
    are). *)
Definition cache_inv {R : Type} (s : CacheState R) (cells : list cell) : Prop :=
  lru_ok s cells
  ∧ (∀ k, is_Some (cache s !! k) ↔ k ∈ cells.*2)
  ∧ "" ∉ cells.*2.

(** Moving key [k] to the most-recently-used position; [fresh] is the
    address its node gets if it has none yet. *)
Definition bump (k : string) (fresh : addr) (cells : list cell) : list cell :=
  let old := filter (λ c, snd c = k) cells in
  (default fresh (fst <$> head old), k) :: filter (λ c, snd c ≠ k) cells.

(** The entry as [getCachedResponse] leaves it on a hit. *)
Definition touch {R : Type} (e : CacheEntry R) (now : Z) : CacheEntry R :=
  {| key := key e; response := response e; model := model e;
     inputTokens := inputTokens e; outputTokens := outputTokens e;
     createdAt := createdAt e; lastAccessed := now; hits := hits e + 1 |}.

(** The access time recorded for key [k] in the entry map [m] (0 if [k]
    has no entry). *)
Definition stamp {R : Type} (m : gmap string (CacheEntry R)) (k : string) : Z :=
  default 0 (lastAccessed <$> m !! k).

(** The recency list agrees with the recorded access times: no cell was
    accessed after a cell in front of it. *)
Fixpoint newest_first {R : Type} (m : gmap string (CacheEntry R))
    (cells : list cell) : Prop :=
  match cells with
  | [] => True
  | c :: rest =>
      (∀ c', c' ∈ rest → stamp m (snd c') <= stamp m (snd c))
      ∧ newest_first m rest
  end.

(** No entry carries an access time later than [now]. *)
Definition clock_ok {R : Type} (m : gmap string (CacheEntry R)) (now : Z) : Prop :=
  ∀ k e, m !! k = Some e → lastAccessed e <= now.

(** ** Sample inputs *)

Definition sample (k r : string) : SetCachedResponseOptions :=
  {| o_key := k; o_response := r; o_model := "gpt-4";
     o_inputTokens := 10; o_outputTokens := 5 |}.

(** An empty cache of capacity 2 with a one-hour TTL. *)
Definition hour_cache : CacheState string :=
  empty_state string {| enabled := true; maxSize := 2; ttlSeconds := 3600 |}.

Definition key_a : string := generateCacheKey "gpt-4" "00000000000000aa".

Definition key_b : string := generateCacheKey "gpt-4" "00000000000000bb".

Definition key_c : string := generateCacheKey "gpt-4" "00000000000000cc".

(** Capacity 2, after storing A and then B. *)
Definition two_slots : CacheState string :=
  empty_state string {| enabled := true; maxSize := 2; ttlSeconds := 3600 |}.

Definition after_a_b : option (CacheState string) :=
  s1 ← setCachedResponse 0 (sample key_a "RA") two_slots;
  setCachedResponse 1 (sample key_b "RB") s1.

(** Capacity 1: store A, read A, store B. *)
Definition one_slot : CacheState string :=
  empty_state string {| enabled := true; maxSize := 1; ttlSeconds := 3600 |}.

Definition slot_stored : CacheState string :=
  default one_slot (setCachedResponse 0 (sample key_a "RA") one_slot).

Definition slot_read : CacheState string :=
  snd (getCachedResponse 1 key_a slot_stored).

Definition slot_next : CacheState string :=
  default one_slot (setCachedResponse 2 (sample key_b "RB") slot_read).

(** Capacity 1: store under the empty key, then store A. *)
Definition slot_empty_key : CacheState string :=
  default one_slot (setCachedResponse 0 (sample "" "R0") one_slot).

Definition slot_overfull : CacheState string :=
  default one_slot (setCachedResponse 1 (sample key_a "RA") slot_empty_key).

End Cache.

(* ===================================================================== *)
(** * Interval registry ([src/lib/intervals.ts])                          *)
(* ===================================================================== *)

Module Intervals.

(** A timer handle as [setInterval] returns it.  Handles are objects
    (as in Node and Bun), hence truthy; they are identified by the order
    in which the runtime created them. *)
Abbreviation Timer := nat.

(** The runtime's timers: the ones still scheduled, and the handle the
    next [setInterval] returns. *)
Record Timers := {
  running : gset Timer;
  nextTimer : Timer
}.

Definition setInterval (w : Timers) : Timer * Timers :=
  (nextTimer w,
   {| running := {[nextTimer w]} ∪ running w; nextTimer := S (nextTimer w) |}).

Definition clearInterval (t : Timer) (w : Timers) : Timers :=
  {| running := running w ∖ {[t]}; nextTimer := nextTimer w |}.

(** The module-level [Map] from names to handles. *)
Abbreviation Registry := (gmap string Timer).

Definition registerInterval (name : string) (interval : Timer)
    (intervals : Registry) (w : Timers) : Registry * Timers :=
  let w :=
    match intervals !! name with
    | Some existing => clearInterval existing w
    | None => w
    end in
  (<[name := interval]> intervals, w).

Definition clearRegisteredInterval (name : string) (intervals : Registry)
    (w : Timers) : bool * Registry * Timers :=
  match intervals !! name with
  | Some interval => (true, delete name intervals, clearInterval interval w)
  | None => (false, intervals, w)
  end.

(** The [for ... of] loop cancels every registered handle; the order of
    the visits does not show in the resulting state. *)
Definition clearAllIntervals (intervals : Registry) (w : Timers)
  : Registry * Timers :=
  (∅, map_fold (λ _ interval w, clearInterval interval w) w intervals).

Definition getIntervalCount (intervals : Registry) : nat := size intervals.

(** ** Clients of the registry

    A client starts a timer with [setInterval] and hands the handle to
    [registerInterval] (as [setupCopilotToken] does), stops one by name,
    or stops all of them (shutdown). *)
Inductive Op :=
| Start (name : string)
| Stop (name : string)
| StopAll.

Definition run_op (op : Op) (s : Registry * Timers) : Registry * Timers :=
  match op with
  | Start name =>
      let '(t, w) := setInterval s.2 in
      registerInterval name t s.1 w
  | Stop name =>
      let '(_, r, w) := clearRegisteredInterval name s.1 s.2 in (r, w)
  | StopAll => clearAllIntervals s.1 s.2
  end.

Definition run_ops (ops : list Op) (s : Registry * Timers) : Registry * Timers :=
  foldl (λ s op, run_op op s) s ops.

(** Every registered handle is scheduled and was created by the
    runtime, and no handle is registered under two names. *)
Definition tracked (r : Registry) (w : Timers) : Prop :=
  (∀ n t, r !! n = Some t → t ∈ running w ∧ (t < nextTimer w)%nat)
  ∧ (∀ n1 n2 t, r !! n1 = Some t → r !! n2 = Some t → n1 = n2).

(** The handles registered in [r]. *)
Definition registered (r : Registry) (t : Timer) : Prop :=
  ∃ n, r !! n = Some t.

End Intervals.

(* ===================================================================== *)
(** * Token setup and its refresh timer ([src/lib/token.ts])              *)
(* ===================================================================== *)

Module TokenSetup.
Import Intervals.

(** [maskToken]; tokens are ASCII, one character per code unit. *)
Definition maskToken (token : string) : string :=
  if (String.length token <=? 8)%nat then "***"
  else String.substring 0 4 token +:+ "..."
       +:+ String.substring (String.length token - 4) 4 token.

Section Setup.
(** [getCopilotToken tokenSource]: a network call that answers or
    throws. *)
Context {W E : Type}.
Variable getCopilotToken :
  option string → W → (E + Token.GetCopilotTokenResponse) * W.

(** [setupCopilotToken] with the interval it starts and registers.  A
    truthy [tokenOverride] is stored before the first fetch, whose
    failure propagates; [tokenOverride ?? state.githubToken] keeps an
    empty override.  The result carries the period and the handle of
    the timer. *)
Definition setupCopilotToken (tokenOverride : option string)
    (st : Token.State) (w : W) (intervals : Registry) (tw : Timers)
  : (E + (Z * Timer)) * Token.State * W * Registry * Timers :=
  let st :=
    match tokenOverride with
    | Some t => if bool_decide (t = "") then st
                else {| Token.githubToken := Some t;
                        Token.copilotToken := Token.copilotToken st |}
    | None => st
    end in
  let tokenSource :=
    match tokenOverride with
    | Some t => Some t
    | None => Token.githubToken st
    end in
  let '(r, w) := getCopilotToken tokenSource w in
  match r with
  | inl e => (inl e, st, w, intervals, tw)
  | inr resp =>
      let st := {| Token.githubToken := Token.githubToken st;
                   Token.copilotToken := Some (Token.token resp) |} in
      let '(intervalId, tw) := setInterval tw in
      let '(intervals, tw) :=
        registerInterval "copilot-token-refresh" intervalId intervals tw in
      (inr (Token.refreshInterval resp, intervalId), st, w, intervals, tw)
  end.


End Setup.

(** ** Sample input *)


End TokenSetup.

(* ===================================================================== *)
(** * Log emitter (the [LogEmitter] class)                                *)
(* ===================================================================== *)

Module Logger.

Record LogEntry := {
  level : string;
  message : string;
  timestamp : string
}.

(** A listener function, identified by reference. *)
Abbreviation Listener := nat.

(** The private fields of a [LogEmitter].  [listeners] is a [Set]: its
    elements are distinct and are visited in insertion order. *)
Record LogEmitter := {
  recentLogs : list LogEntry;
  listeners : list Listener
}.

Definition maxLogs : nat := 1000.

Definition new_LogEmitter : LogEmitter :=
  {| recentLogs := []; listeners := [] |}.

(** [Array.prototype.slice(start)] for an integer [start]: a negative
    [start] counts from the end. *)
Definition slice_from {A : Type} (start : Z) (l : list A) : list A :=
  let len := Z.of_nat (length l) in
  let k := if start <? 0 then Z.max (len + start) 0 else Z.min start len in
  drop (Z.to_nat k) l.

Section Log.
(** What calling a listener does to the rest of the program, and
    whether the call returns ([true]) or throws ([false]).  Listeners
    do not subscribe or unsubscribe while an entry is delivered. *)
Context {W : Type}.
Variable call : Listener → LogEntry → W → bool * W.

(** The [for ... of] loop over the listeners, with the calls made. *)
Fixpoint deliver (entry : LogEntry) (ls : list Listener) (w : W)
  : W * list (Listener * bool) :=
  match ls with
  | [] => (w, [])
  | l :: rest =>
      let '(returned, w) := call l entry w in
      (* a throw is caught and ignored *)
      let '(w, calls) := deliver entry rest w in
      (w, (l, returned) :: calls)
  end.

(** [now] is [new Date().toISOString()] at the time of the call. *)
Definition log (lvl msg now : string) (e : LogEmitter) (w : W)
  : LogEmitter * W * list (Listener * bool) :=
  let entry := {| level := lvl; message := msg; timestamp := now |} in
  let logs := recentLogs e ++ [entry] in
  let logs := if (maxLogs <? length logs)%nat then drop 1 logs else logs in
  let '(w, calls) := deliver entry (listeners e) w in
  ({| recentLogs := logs; listeners := listeners e |}, w, calls).

End Log.

Definition on (listener : Listener) (e : LogEmitter) : LogEmitter :=
  {| recentLogs := recentLogs e;
     listeners := if bool_decide (listener ∈ listeners e) then listeners e
                  else listeners e ++ [listener] |}.

Definition off (listener : Listener) (e : LogEmitter) : LogEmitter :=
  {| recentLogs := recentLogs e;
     listeners := filter (λ l, l ≠ listener) (listeners e) |}.

(** [limit = None]: the argument is omitted and defaults to 100. *)
Definition getRecentLogs (limit : option Z) (e : LogEmitter) : list LogEntry :=
  slice_from (- default 100 limit) (recentLogs e).

(** ** Clients of the emitter *)

Inductive Op :=
| Log (lvl msg now : string)
| On (listener : Listener)
| Off (listener : Listener).

Definition run_op {W : Type} (call : Listener → LogEntry → W → bool * W)
    (op : Op) (s : LogEmitter * W) : LogEmitter * W :=
  match op with
  | Log lvl msg now => (log call lvl msg now s.1 s.2).1
  | On l => (on l s.1, s.2)
  | Off l => (off l s.1, s.2)
  end.

Definition run_ops {W : Type} (call : Listener → LogEntry → W → bool * W)
    (ops : list Op) (s : LogEmitter * W) : LogEmitter * W :=
  foldl (λ s op, run_op call op s) s ops.

(** The entries a sequence of calls logs, oldest first. *)
Definition logged (ops : list Op) : list LogEntry :=
  omap (λ op, match op with
              | Log lvl msg now =>
                  Some {| level := lvl; message := msg; timestamp := now |}
              | _ => None
              end) ops.


(** ** Sample input: an emitter holding three entries. *)
Definition entry_n (n : string) : LogEntry :=
  {| level := "info"; message := n; timestamp := "2024-01-01T00:00:00.000Z" |}.

Definition three_logs : LogEmitter :=
  {| recentLogs := [entry_n "1"; entry_n "2"; entry_n "3"]; listeners := [] |}.

(** The last [n] elements of a list. *)
Definition last_n {A : Type} (n : nat) (l : list A) : list A :=
  drop (length l - n) l.

End Logger.

(* ===================================================================== *)
(** * Notification center                                                 *)
(* ===================================================================== *)

Module Notifications.

Inductive NotificationType := info | warning | error | success.

(** [data] is an optional record of [unknown] values: any payload [D]. *)
Record Notification {D : Type} := {
  id : string;
  type : NotificationType;
  title : string;
  message : string;
  timestamp : Z;
  read : bool;
  data : option D
}.
Arguments Notification : clear implicits.

Definition MAX_NOTIFICATIONS : nat := 50.

Record AddNotificationOptions {D : Type} := {
  o_type : NotificationType;
  o_title : string;
  o_message : string;
  o_data : option D
}.
Arguments AddNotificationOptions : clear implicits.

Section Center.
Context {D : Type}.
Local Abbreviation N := (Notification D).

(** [newId] is what [generateId()] returns and [now] what [Date.now()]
    reads.  The result is the notification, the array after the call,
    and the event dispatched to the SSE subscribers. *)
Definition addNotification (newId : string) (now : Z)
    (o : AddNotificationOptions D) (notifications : list N)
  : N * list N * list N :=
  let notification :=
    {| id := newId; type := o_type o; title := o_title o;
       message := o_message o; timestamp := now; read := false;
       data := o_data o |} in
  let notifications := notification :: notifications in
  let notifications :=
    if (MAX_NOTIFICATIONS <? length notifications)%nat
    then take MAX_NOTIFICATIONS notifications else notifications in
  (notification, notifications, [notification]).

Definition getNotifications (notifications : list N) : list N := notifications.

Definition getUnreadCount (notifications : list N) : nat :=
  length (filter (λ n, read n = false) notifications).

Definition set_read (n : N) : N :=
  {| id := id n; type := type n; title := title n; message := message n;
     timestamp := timestamp n; read := true; data := data n |}.

(** [find] returns the first notification with the given id. *)
Fixpoint markAsRead (i : string) (notifications : list N) : bool * list N :=
  match notifications with
  | [] => (false, [])
  | n :: rest =>
      if bool_decide (id n = i) then (true, set_read n :: rest)
      else let '(found, rest) := markAsRead i rest in (found, n :: rest)
  end.

Fixpoint markAllAsRead (notifications : list N) : nat * list N :=
  match notifications with
  | [] => (0%nat, [])
  | n :: rest =>
      let '(count, rest) := markAllAsRead rest in
      if read n then (count, n :: rest) else (S count, set_read n :: rest)
  end.

(** [findIndex] and [splice(index, 1)]. *)
Fixpoint deleteNotification (i : string) (notifications : list N)
  : bool * list N :=
  match notifications with
  | [] => (false, [])
  | n :: rest =>
      if bool_decide (id n = i) then (true, rest)
      else let '(found, rest) := deleteNotification i rest in (found, n :: rest)
  end.

Definition clearNotifications (notifications : list N) : nat * list N :=
  (length notifications, []).

(** ** Clients of the center *)

Inductive Op :=
| Add (newId : string) (now : Z) (o : AddNotificationOptions D)
| MarkAsRead (i : string)
| MarkAllAsRead
| Delete (i : string)
| Clear.

Definition run_op (op : Op) (ns : list N) : list N :=
  match op with
  | Add newId now o => (addNotification newId now o ns).1.2
  | MarkAsRead i => (markAsRead i ns).2
  | MarkAllAsRead => (markAllAsRead ns).2
  | Delete i => (deleteNotification i ns).2
  | Clear => (clearNotifications ns).2
  end.

Definition run_ops (ops : list Op) (ns : list N) : list N :=
  foldl (λ ns op, run_op op ns) ns ops.

(** The notifications a list of [Add] requests creates, oldest first. *)
Definition created (adds : list (string * Z * AddNotificationOptions D))
  : list N :=
  (λ a, (addNotification a.1.1 a.1.2 a.2 []).1.1) <$> adds.

Definition add_all (adds : list (string * Z * AddNotificationOptions D))
    (ns : list N) : list N :=
  foldl (λ ns a, (addNotification a.1.1 a.1.2 a.2 ns).1.2) ns adds.

End Center.

(** ** Sample input *)

Definition note (t : string) : AddNotificationOptions unit :=
  {| o_type := info; o_title := t; o_message := "m"; o_data := None |}.

(** Three notifications, the newest and the oldest under the same id. *)
Definition three_notes : list (Notification unit) :=
  add_all [("notif_1_a", 1, note "first"); ("notif_2_b", 2, note "second");
           ("notif_1_a", 3, note "third")] [].

End Notifications.

(* ===================================================================== *)
(** * Graceful shutdown manager ([src/lib/shutdown.ts])                   *)
(* ===================================================================== *)

Module Shutdown.

Section Manager.
(** [H] is the type of cleanup functions and [W] what they act on. *)
Context {H : Type}.

(** Priorities are integers in every caller (10, and the default 50). *)
Record ShutdownHandler := {
  name : string;
  handler : H;
  priority : Z
}.

(** The module-level variables. *)
Record State := {
  handlers : list ShutdownHandler;
  isShuttingDown : bool
}.

Definition initial : State := {| handlers := []; isShuttingDown := false |}.

Definition SHUTDOWN_TIMEOUT_MS : Z := 10000.

(** [handlers.sort((a, b) => a.priority - b.priority)]: the sort is
    stable, so the result is the one insertion sort computes. *)
Fixpoint insert_sorted (x : ShutdownHandler) (l : list ShutdownHandler)
  : list ShutdownHandler :=
  match l with
  | [] => [x]
  | y :: rest =>
      if priority x <=? priority y then x :: y :: rest
      else y :: insert_sorted x rest
  end.

Definition sort_by_priority (l : list ShutdownHandler)
  : list ShutdownHandler :=
  foldr insert_sorted [] l.

(** [prio = None]: the argument is omitted and defaults to 50. *)
Definition registerShutdownHandler (nm : string) (h : H) (prio : option Z)
    (s : State) : State :=
  {| handlers :=
       sort_by_priority
         (handlers s
          ++ [{| name := nm; handler := h; priority := default 50 prio |}]);
     isShuttingDown := isShuttingDown s |}.

Definition isShutdownInProgress (s : State) : bool := isShuttingDown s.

Inductive Effect :=
| SetForceExitTimer (ms : Z)
| RunHandler (nm : string) (completed : bool)
| ClearForceExitTimer
| Exit (code : Z).

Context {W : Type}.
(** Running a cleanup function: [false] when it throws or rejects.
    Cleanup functions do not register further handlers. *)
Variable invoke : H → W → bool * W.

Fixpoint run_handlers (hs : list ShutdownHandler) (w : W)
  : W * list Effect :=
  match hs with
  | [] => (w, [])
  | h :: rest =>
      let '(completed, w) := invoke (handler h) w in
      (* a failure is logged and the loop goes on *)
      let '(w, tr) := run_handlers rest w in
      (w, RunHandler (name h) completed :: tr)
  end.

(** [gracefulShutdown], for runs in which the handlers finish before
    the forced-exit timer fires: the timer is then cleared and the
    process exits with code 0. *)
Definition gracefulShutdown (s : State) (w : W) : State * W * list Effect :=
  if isShuttingDown s then (s, w, [])
  else
    let s := {| handlers := handlers s; isShuttingDown := true |} in
    let '(w, tr) := run_handlers (handlers s) w in
    (s, w,
     [SetForceExitTimer SHUTDOWN_TIMEOUT_MS] ++ tr
     ++ [ClearForceExitTimer; Exit 0]).

(** ** Vocabulary of the properties *)

(** A registration request: name, cleanup function, optional priority. *)
Definition register_all (regs : list (string * H * option Z)) (s : State)
  : State :=
  foldl (λ s r, registerShutdownHandler r.1.1 r.1.2 r.2 s) s regs.

Definition as_handler (r : string * H * option Z) : ShutdownHandler :=
  {| name := r.1.1; handler := r.1.2; priority := default 50 r.2 |}.

Fixpoint ascending (l : list ShutdownHandler) : Prop :=
  match l with
  | [] => True
  | x :: rest => (∀ y, y ∈ rest → priority x <= priority y) ∧ ascending rest
  end.

(** The handlers the shutdown ran, in order. *)
Definition ran (tr : list Effect) : list string :=
  omap (λ e, match e with RunHandler nm _ => Some nm | _ => None end) tr.

End Manager.

Arguments ShutdownHandler : clear implicits.
Arguments State : clear implicits.

End Shutdown.

(* ===================================================================== *)
(** * Health check endpoint                                               *)
(* ===================================================================== *)

Module Health.

Inductive Status := healthy | degraded | unhealthy.

(** The fields of an account's status that the endpoint reads. *)
Record AccountStatus := {
  active : bool;
  rateLimited : bool;
  paused : bool
}.

Record QueueStatus := {
  qs_enabled : bool;
  qs_paused : bool;
  qs_size : Z;
  qs_maxSize : Z
}.

Inductive QueueState := q_paused | q_ok.

Record QueueHealth := {
  q_status : QueueState;
  size : Z;
  maxSize : Z
}.

Definition getQueueHealth (queueStatus : QueueStatus) : option QueueHealth :=
  if negb (qs_enabled queueStatus) then None
  else Some {| q_status := if qs_paused queueStatus then q_paused else q_ok;
               size := qs_size queueStatus;
               maxSize := qs_maxSize queueStatus |}.

Definition Qlt_bool (a b : Q) : bool :=
  match Qcompare a b with Lt => true | _ => false end.

(** The two comparisons go through a division by 2 and a multiplication
    by 0.8; on integer counts (below 2^49) the floating-point results
    compare as the exact rationals do. *)
Definition getOverallStatus (modelsCount : Z) (poolEnabled : bool)
    (activeAccounts totalAccounts : Z) (queueStatus : option QueueHealth)
  : Status :=
  if modelsCount =? 0 then unhealthy
  else if poolEnabled && (activeAccounts =? 0) then unhealthy
  else if poolEnabled
          && Qlt_bool (inject_Z activeAccounts) (inject_Z totalAccounts / 2)
  then degraded
  else
    match queueStatus with
    | Some q =>
        if Qlt_bool (inject_Z (maxSize q) * (8 # 10)) (inject_Z (size q))
        then degraded else healthy
    | None => healthy
    end.

Definition getStatusCode (status : Status) : Z :=
  match status with unhealthy => 503 | _ => 200 end.

Inductive CheckStatus := ok | warning | error.

(** The body of the detailed report, without timestamp and uptime. *)
Record HealthCheck := {
  status : Status;
  accounts_status : CheckStatus;
  accounts_active : Z;
  accounts_total : Z;
  models_status : CheckStatus;
  models_count : Z;
  queue : option QueueHealth
}.

Definition usable (a : AccountStatus) : bool :=
  active a && negb (rateLimited a) && negb (paused a).

(** [GET /health/detailed].  [pool] is what [getAccountsStatus] returns,
    [models] the length of [state.models.data] ([None]: not loaded). *)
Definition detailed (poolEnabled : bool) (pool : list AccountStatus)
    (models : option Z) (queueStatus : QueueStatus) : HealthCheck * Z :=
  let accounts := if poolEnabled then pool else [] in
  let activeAccounts := List.filter usable accounts in
  let modelsCount := default 0 models in
  let queueStatus := getQueueHealth queueStatus in
  let overallStatus :=
    getOverallStatus modelsCount poolEnabled
      (Z.of_nat (length activeAccounts)) (Z.of_nat (length accounts))
      queueStatus in
  ({| status := overallStatus;
      accounts_status :=
        if Z.of_nat (length activeAccounts) >? 0 then ok else warning;
      accounts_active := Z.of_nat (length activeAccounts);
      accounts_total := Z.of_nat (length accounts);
      models_status := if modelsCount >? 0 then ok else error;
      models_count := modelsCount;
      queue := queueStatus |},
   getStatusCode overallStatus).

(** [GET /health/ready]: the status code. *)
Definition ready (models : option Z) : Z :=
  let modelsCount := default 0 models in
  if modelsCount =? 0 then 503 else 200.

(** ** Sample input *)

Definition up : AccountStatus :=
  {| active := true; rateLimited := false; paused := false |}.
Definition limited : AccountStatus :=
  {| active := true; rateLimited := true; paused := false |}.
Definition idle_queue : QueueStatus :=
  {| qs_enabled := true; qs_paused := false; qs_size := 0; qs_maxSize := 100 |}.

End Health.

(* ===================================================================== *)
(** * Account pool state (the pool store module)                          *)
(* ===================================================================== *)

Module PoolStore.

(** The fields of an account that this module reads. *)
Record AccountStatus := {
  token : string;
  login : string;
  active : bool;
  rateLimited : bool;
  paused : bool
}.

Record PoolState := {
  accounts : list AccountStatus;
  currentIndex : Z;
  stickyAccountId : option string;
  lastSelectedId : option string;
  lastAutoRotationAt : option Z
}.

Record PoolAccount := {
  pa_token : string;
  pa_label : option string
}.

Record PoolConfig := {
  enabled : bool;
  strategy : string;
  pc_accounts : list PoolAccount
}.

(** The module-level variables (the save timer apart). *)
Record Store := {
  poolState : PoolState;
  poolConfig : PoolConfig;
  poolStateLoaded : bool;
  cachedActiveAccounts : option (list AccountStatus);
  cacheVersion : Z
}.

Definition initial : Store :=
  {| poolState := {| accounts := []; currentIndex := 0;
                     stickyAccountId := None; lastSelectedId := None;
                     lastAutoRotationAt := None |};
     poolConfig := {| enabled := false; strategy := "sticky";
                      pc_accounts := [] |};
     poolStateLoaded := false;
     cachedActiveAccounts := None;
     cacheVersion := 0 |}.

Definition markPoolStateLoaded (s : Store) : Store :=
  {| poolState := poolState s; poolConfig := poolConfig s;
     poolStateLoaded := true;
     cachedActiveAccounts := cachedActiveAccounts s;
     cacheVersion := cacheVersion s |}.

Definition isPoolStateLoaded (s : Store) : bool := poolStateLoaded s.

Definition invalidateActiveAccountsCache (s : Store) : Store :=
  {| poolState := poolState s; poolConfig := poolConfig s;
     poolStateLoaded := poolStateLoaded s;
     cachedActiveAccounts := None;
     cacheVersion := cacheVersion s + 1 |}.

Definition setPoolState (next : PoolState) (s : Store) : Store :=
  invalidateActiveAccountsCache
    {| poolState := next; poolConfig := poolConfig s;
       poolStateLoaded := poolStateLoaded s;
       cachedActiveAccounts := cachedActiveAccounts s;
       cacheVersion := cacheVersion s |}.

Definition setPoolConfig (next : PoolConfig) (s : Store) : Store :=
  {| poolState := poolState s; poolConfig := next;
     poolStateLoaded := poolStateLoaded s;
     cachedActiveAccounts := cachedActiveAccounts s;
     cacheVersion := cacheVersion s |}.

Definition usable (a : AccountStatus) : bool :=
  active a && negb (rateLimited a) && negb (paused a).

Definition getActiveAccounts (s : Store) : list AccountStatus * Store :=
  match cachedActiveAccounts s with
  | Some cached => (cached, s)
  | None =>
      let l := List.filter usable (accounts (poolState s)) in
      (l, {| poolState := poolState s; poolConfig := poolConfig s;
             poolStateLoaded := poolStateLoaded s;
             cachedActiveAccounts := Some l;
             cacheVersion := cacheVersion s |})
  end.

Definition getCacheVersion (s : Store) : Z := cacheVersion s.

(** The parsed contents of the pool file: every field may be missing. *)
Record SavedPool := {
  sv_accounts : option (list AccountStatus);
  sv_currentIndex : option Z;
  sv_stickyAccountId : option string;
  sv_lastSelectedId : option string;
  sv_lastAutoRotationAt : option Z;
  sv_config : option (bool * string)      (* enabled, strategy *)
}.

(** [file = None]: the file is missing or does not parse. *)
Definition loadPoolState (file : option SavedPool) (s : Store) : Store :=
  match file with
  | None => s
  | Some saved =>
      {| poolState :=
           {| accounts := default [] (sv_accounts saved);
              currentIndex := default 0 (sv_currentIndex saved);
              stickyAccountId := sv_stickyAccountId saved;
              lastSelectedId := sv_lastSelectedId saved;
              lastAutoRotationAt := sv_lastAutoRotationAt saved |};
         poolConfig :=
           match sv_config saved with
           | Some (e, st) =>
               {| enabled := e; strategy := st;
                  pc_accounts := pc_accounts (poolConfig s) |}
           | None => poolConfig s
           end;
         poolStateLoaded := poolStateLoaded s;
         cachedActiveAccounts := cachedActiveAccounts s;
         cacheVersion := cacheVersion s |}
  end.

(** ** Clients of the store *)

Inductive Op :=
| SetPoolState (next : PoolState)
| SetPoolConfig (next : PoolConfig)
| Invalidate
| GetActiveAccounts
| MarkLoaded.

Definition run_op (op : Op) (s : Store) : Store :=
  match op with
  | SetPoolState next => setPoolState next s
  | SetPoolConfig next => setPoolConfig next s
  | Invalidate => invalidateActiveAccountsCache s
  | GetActiveAccounts => (getActiveAccounts s).2
  | MarkLoaded => markPoolStateLoaded s
  end.

Definition run_ops (ops : list Op) (s : Store) : Store :=
  foldl (λ s op, run_op op s) s ops.

Definition invalidations (ops : list Op) : Z :=
  Z.of_nat (length (List.filter
    (λ op, match op with SetPoolState _ | Invalidate => true | _ => false end)
    ops)).

(** The cached list, when there is one, is the list of usable accounts. *)
Definition coherent (s : Store) : Prop :=
  ∀ l, cachedActiveAccounts s = Some l
       → l = List.filter usable (accounts (poolState s)).

(** ** Sample input *)

Definition account (l : string) (ok : bool) : AccountStatus :=
  {| token := "gho_" +:+ l; login := l; active := ok; rateLimited := false;
     paused := false |}.

Definition saved_two : SavedPool :=
  {| sv_accounts := Some [account "ann" true; account "bob" true];
     sv_currentIndex := Some 0; sv_stickyAccountId := None;
     sv_lastSelectedId := None; sv_lastAutoRotationAt := None;
     sv_config := None |}.

End PoolStore.

(* ===================================================================== *)
(** * Claude CLI configuration ([src/lib/claude-config.ts])               *)
(* ===================================================================== *)

Module ClaudeCli.

(** A field that is absent is [None]; fields are never present with the
    value [undefined] (both the file and the updates come from JSON).
    [J] is the type of the values under the keys the interface does not
    name.  The [permissions] object of a settings file may hold such
    keys too, next to [allow] and [deny] ([ask], [defaultMode], ...). *)
Record Permissions {J : Type} := {
  allow : option (list string);
  deny : option (list string);
  p_others : gmap string J
}.
Arguments Permissions : clear implicits.

Record ClaudeConfig {J : Type} := {
  env : option (gmap string string);
  permissions : option (Permissions J);
  others : gmap string J
}.
Arguments ClaudeConfig : clear implicits.

(** [[...new Set(l)]]: the first occurrence of every element, in order. *)
Fixpoint dedup (l : list string) : list string :=
  match l with
  | [] => []
  | x :: rest => x :: filter (λ y, y ≠ x) (dedup rest)
  end.

Section Config.
Context {J : Type}.

Definition empty_config : ClaudeConfig J :=
  {| env := None; permissions := None; others := ∅ |}.

(** [file = None]: the settings file is missing or does not parse. *)
Definition readClaudeConfig (file : option (ClaudeConfig J)) : ClaudeConfig J :=
  default empty_config file.

(** [{ ...a, ...b }] on objects: the keys of [b] win. *)
Definition spread {V : Type} (a b : gmap string V) : gmap string V := b ∪ a.

(** The new contents of the settings file. *)
Definition updateClaudeConfig (updates : ClaudeConfig J)
    (file : option (ClaudeConfig J)) : ClaudeConfig J :=
  let current := readClaudeConfig file in
  (* deep merge env if both exist *)
  let updates_env :=
    match env updates, env current with
    | Some u, Some c => Some (spread c u)
    | _, _ => env updates
    end in
  (* deep merge permissions if both exist: the object is built anew
     from the two lists, with no other key *)
  let updates_permissions :=
    match permissions updates, permissions current with
    | Some u, Some c =>
        Some {| allow := Some (dedup (default [] (allow c)
                                      ++ default [] (allow u)));
                deny := Some (dedup (default [] (deny c)
                                     ++ default [] (deny u)));
                p_others := ∅ |}
    | _, _ => permissions updates
    end in
  (* { ...current, ...updates } *)
  {| env := match updates_env with Some e => Some e | None => env current end;
     permissions := match updates_permissions with
                    | Some p => Some p
                    | None => permissions current
                    end;
     others := spread (others current) (others updates) |}.

Definition replaceClaudeConfig (config : ClaudeConfig J)
    (file : option (ClaudeConfig J)) : ClaudeConfig J := config.

Definition generateCopilotConfig (serverUrl model smallModel : string)
  : ClaudeConfig J :=
  {| env := Some (list_to_map
       [("ANTHROPIC_BASE_URL", serverUrl);
        ("ANTHROPIC_AUTH_TOKEN", "dummy");
        ("ANTHROPIC_MODEL", model);
        ("ANTHROPIC_DEFAULT_SONNET_MODEL", model);
        ("ANTHROPIC_SMALL_FAST_MODEL", smallModel);
        ("ANTHROPIC_DEFAULT_HAIKU_MODEL", smallModel);
        ("DISABLE_NON_ESSENTIAL_MODEL_CALLS", "1");
        ("CLAUDE_CODE_DISABLE_NONESSENTIAL_TRAFFIC", "1")]);
     permissions := Some {| allow := None; deny := Some ["WebSearch"];
                            p_others := ∅ |};
     others := ∅ |}.

End Config.

(** ** Sample input: a settings file with a variable, an allow list and
    a permission mode. *)
Definition user_settings : ClaudeConfig string :=
  {| env := Some {[ "EDITOR" := "vim" ]};
     permissions := Some {| allow := Some ["Bash"]; deny := Some ["WebSearch"];
                            p_others := {[ "defaultMode" := "acceptEdits" ]} |};
     others := ∅ |}.

End ClaudeCli.

(* ===================================================================== *)
(** * The shape of a retry trace                                          *)
(* ===================================================================== *)

Module RetryTrace.
Import Retry.


End RetryTrace.

(* ===================================================================== *)
(** * Fetch with timeout ([src/lib/fetch-with-timeout.ts])                *)
(* ===================================================================== *)

Module FetchTimeout.
Import Retry.

Definition DEFAULT_TIMEOUT : Z := 30000.

(** A value caught from [fetch]: the fields the retry helper reads, and
    whether it is an instance of [Error]. *)
Record Caught := {
  thrown : Thrown;
  instanceofError : bool
}.

(** What [fetchWithTimeout] throws: the error it builds on a timeout,
    [new Error(`Request timeout after ${timeout}ms: ${String(url)}`)],
    or the caught value itself. *)
Inductive Failure :=
| RequestTimeout (timeout : Z) (url : string)
| Rethrown (c : Caught).

Inductive Effect :=
| SetTimeout (ms : Z)
| Fetch (url : string)
| ClearTimeout.

Definition is_abort (c : Caught) : bool :=
  instanceofError c
  && match thrown c with
     | ErrObj e => str_is (name e) "AbortError"
     | _ => false
     end.

Section Fetch.
(** [fetch url] with the abort signal attached: it answers with a
    response [R] or throws; when the timer aborts the request it throws
    an [AbortError]. *)
Context {W R : Type}.
Variable fetch : string → W → (Caught + R) * W.

(** [timeout = None]: the option is omitted and defaults to 30 s. *)
Definition fetchWithTimeout (url : string) (timeout : option Z) (w : W)
  : (Failure + R) * W * list Effect :=
  let timeout := default DEFAULT_TIMEOUT timeout in
  let '(r, w) := fetch url w in
  let result :=
    match r with
    | inr response => inr response
    | inl error =>
        if is_abort error then inl (RequestTimeout timeout url)
        else inl (Rethrown error)
    end in
  (* finally *)
  (result, w, [SetTimeout timeout; Fetch url; ClearTimeout]).

End Fetch.

(** What the predicates of the retry helper see of a failure: a fresh
    [Error] has the name ["Error"] and neither status nor code. *)
Definition as_thrown (f : Failure) : Thrown :=
  match f with
  | RequestTimeout _ _ =>
      ErrObj {| status := None; response := None; code := None;
                name := Some "Error" |}
  | Rethrown c => thrown c
  end.

(** A thunk for [withRetry] that calls [fetchWithTimeout]. *)
Definition fetching {W R : Type} (fetch : string → W → (Caught + R) * W)
    (url : string) (timeout : option Z) (w : W) : (Thrown + R) * W :=
  let '(r, w, _) := fetchWithTimeout fetch url timeout w in
  (match r with inl f => inl (as_thrown f) | inr v => inr v end, w).

(** ** Sample input: a server that never answers in time. *)
Definition abort_error : Caught :=
  {| thrown := ErrObj {| status := None; response := None; code := None;
                         name := Some "AbortError" |};
     instanceofError := true |}.

Definition hangs (url : string) (calls : nat) : (Caught + string) * nat :=
  (inl abort_error, S calls).

End FetchTimeout.

(* ===================================================================== *)
(** * Observations on translated streams                                  *)
(* ===================================================================== *)

Module StreamObs.
Import Stream.

(** The texts of the [text_delta] events, in order. *)
Definition text_deltas (evs : list Event) : list string :=
  omap (λ e, match e with
             | ContentBlockDelta _ (TextDelta t) => Some t
             | _ => None
             end) evs.

(** The text a chunk carries: the content of its first choice, when it
    is present and not empty. *)
Definition chunk_text (c : Chunk) : option string :=
  match choices c with
  | choice :: _ => truthy (content (delta choice))
  | [] => None
  end.

Definition is_message_start (e : Event) : bool :=
  match e with MessageStart _ _ _ => true | _ => false end.

(** The first chunk that carries a choice. *)
Definition first_with_choices (chunks : list Chunk) : option Chunk :=
  List.find (λ c, negb (no_choices c)) chunks.




End StreamObs.

(* ===================================================================== *)
(** * Request cache: persistence, statistics and admin routes             *)
(* ===================================================================== *)

Module CacheAdmin.
Import Cache.

Record SavedStats := {
  sv_hits : Z;
  sv_misses : Z;
  sv_savedTokens : Z
}.

(** The parsed contents of the cache file; both members may be missing. *)
Record SavedCache {R : Type} := {
  sv_entries : option (list (CacheEntry R));
  sv_stats : option SavedStats
}.
Arguments SavedCache : clear implicits.

Section Admin.
Context {R : Type}.
Local Abbreviation St := (CacheState R).

Definition resetCacheStats (s : St) : St := with_stats s 0 0 0 true.

(** [.sort((a, b) => a.lastAccessed - b.lastAccessed)]: the sort is
    stable, so the result is the one insertion sort computes. *)
Fixpoint insert_by_access (e : CacheEntry R) (l : list (CacheEntry R))
  : list (CacheEntry R) :=
  match l with
  | [] => [e]
  | x :: rest =>
      if lastAccessed e <=? lastAccessed x then e :: x :: rest
      else x :: insert_by_access e rest
  end.

Definition sort_by_access (l : list (CacheEntry R)) : list (CacheEntry R) :=
  foldr insert_by_access [] l.

(** The body of the loop over the valid entries. *)
Definition load_entry (s : St) (entry : CacheEntry R) : St :=
  addToFront (key entry)
    (with_cache s (<[key entry := entry]> (cache s)) (isDirty s)).

(** [file = None]: the file is missing or does not parse; [now] is the
    value of [Date.now()]. *)
Definition loadCache (now : Z) (file : option (SavedCache R)) (s : St) : St :=
  let s := resetLRU (with_cache s ∅ (isDirty s)) in
  match file with
  | None => s
  | Some parsed =>
      let ttlMs := ttlSeconds (cacheConfig s) * 1000 in
      let validEntries :=
        sort_by_access
          (List.filter (λ entry, now - createdAt entry <? ttlMs)
             (default [] (sv_entries parsed))) in
      let s := foldl load_entry s validEntries in
      match sv_stats parsed with
      | Some st =>
          with_stats s (sv_hits st) (sv_misses st) (sv_savedTokens st)
            (isDirty s)
      | None => s
      end
  end.

(** [saveCache]: [order] is the order in which the entry map yields its
    keys and [written] whether the write succeeds; no other call on the
    cache happens before the write has finished.  The result is what was
    written, if anything. *)
Definition saveCache (order : list string) (written : bool) (s : St)
  : option (SavedCache R) * St :=
  if negb (isDirty s) then (None, s)
  else
    let entries := omap (λ k, cache s !! k) order in
    let data :=
      {| sv_entries := Some entries;
         sv_stats := Some {| sv_hits := stat_hits s;
                             sv_misses := stat_misses s;
                             sv_savedTokens := savedTokens s |} |} in
    if written then (Some data, with_cache s (cache s) false)
    else (None, with_cache s (cache s) true).

(** ** The admin route: status code and state after the request *)

(** [DELETE /api/cache/:key] *)
Definition delete_route (k : string) (s : St) : Z * St :=
  let '(deleted, s) := deleteCacheEntry k s in
  (if deleted then 200 else 404, s).

(** ** Vocabulary of the properties *)

(** The entries a cache file holds ([parsed.entries ?? []]; none if there
    is no file). *)
Definition file_entries (file : option (SavedCache R)) : list (CacheEntry R) :=
  default [] (file ≫= sv_entries).

(** Every entry is stored under its own key. *)
Definition keyed (m : gmap string (CacheEntry R)) : Prop :=
  map_Forall (λ k e, key e = k) m.

(** The entries of [m] that are younger than the TTL at time [now]. *)
Definition unexpired (now ttlMs : Z) (m : gmap string (CacheEntry R))
  : gmap string (CacheEntry R) :=
  filter (λ kv, now - createdAt kv.2 < ttlMs) m.

(** A call counts as a lookup when it is a [getCachedResponse] made
    while the cache is enabled. *)
Definition is_lookup (op : CacheOp (R := R)) (s : St) : Z :=
  match op with
  | OpGet _ _ => if enabled (cacheConfig s) then 1 else 0
  | _ => 0
  end.

(** The lookups a sequence of calls makes. *)
Fixpoint lookups (ops : list (CacheOp (R := R))) (s : St) : Z :=
  match ops with
  | [] => 0
  | op :: rest =>
      is_lookup op s
      + match run_op op s with
        | Some s' => lookups rest s'
        | None => 0
        end
  end.

End Admin.

(** ** Sample input *)

(** Enable the cache with room for two entries, fill it, then lower the
    capacity to one. *)
Definition shrinking : list (CacheOp (R := string)) :=
  [OpConfig {| pc_enabled := Some true; pc_maxSize := Some 2;
               pc_ttlSeconds := None |};
   OpSet 0 (sample key_a "RA"); OpSet 1 (sample key_b "RB");
   OpGet 2 key_a; OpSet 3 (sample key_c "RC");
   OpConfig {| pc_enabled := None; pc_maxSize := Some 1;
               pc_ttlSeconds := None |}].

Definition only_maxSize (n : Z) : PartialCacheConfig :=
  {| pc_enabled := None; pc_maxSize := Some n; pc_ttlSeconds := None |}.

(** A cache file with two entries, the older one first. *)
Definition saved_entry (k : string) (created accessed : Z) : CacheEntry string :=
  {| key := k; response := "R"; model := "gpt-4"; inputTokens := 10;
     outputTokens := 5; createdAt := created; lastAccessed := accessed;
     hits := 1 |}.

Definition saved_file : SavedCache string :=
  {| sv_entries := Some [saved_entry key_b 100 900; saved_entry key_a 200 300];
     sv_stats := Some {| sv_hits := 4; sv_misses := 2; sv_savedTokens := 60 |} |}.

End CacheAdmin.

(* ===================================================================== *)
(** * Properties of the retry utility                                     *)
(* ===================================================================== *)

Module RetryFacts.
Import Retry.

Lemma jitterOf_range (o : DelayOptions) (rnd : Q) :
  (0 <= rnd)%Q → (rnd < 1)%Q → (0 <= nominalDelay o)%Q →
  (- ((1 # 10) * nominalDelay o) <= jitterOf o rnd)%Q
  ∧ (jitterOf o rnd <= (1 # 10) * nominalDelay o)%Q.
Proof.
  intros H0 H1 Hn. unfold jitterOf.
  set (x := nominalDelay o) in *.
  split; nra.
Qed.

(** C3: for a draw in [0, 1) and a non-negative nominal delay
    [initialDelayMs * backoffMultiplier ^ (attempt - 1)], the jitter term
    stays within 10% of the nominal delay on either side, so the delay
    lies between [min (maxDelayMs, 0.9 * nominal)] and
    [min (maxDelayMs, 1.1 * nominal)]: the jitter never reaches the 20%
    announced by the comment in the source. *)
Theorem calculateDelay_jitter_is_ten_percent (o : DelayOptions) (rnd : Q) :
  (0 <= rnd)%Q → (rnd < 1)%Q → (0 <= nominalDelay o)%Q →
  (- ((1 # 10) * nominalDelay o) <= jitterOf o rnd)%Q
  ∧ (jitterOf o rnd <= (1 # 10) * nominalDelay o)%Q
  ∧ (Qmin ((9 # 10) * nominalDelay o) (d_maxDelayMs o)
     <= calculateDelay o rnd)%Q
  ∧ (calculateDelay o rnd
     <= Qmin ((11 # 10) * nominalDelay o) (d_maxDelayMs o))%Q.
Proof.
  intros H0 H1 Hn. destruct (jitterOf_range o rnd H0 H1 Hn) as [Hlo Hhi].
  split_and!; [done | done | |]; unfold calculateDelay;
    apply Q.min_le_compat_r; lra.
Qed.

(** With the smallest draw the first retry waits 900 ms, where a 20%
    jitter would give 800 ms. *)
Lemma calculateDelay_jitter_is_ten_percent_witness :
  (calculateDelay first_retry 0 == 900 # 1)%Q
  ∧ (- ((1 # 10) * nominalDelay first_retry) <= jitterOf first_retry 0)%Q.
Proof.
  destruct (calculateDelay_jitter_is_ten_percent first_retry 0)
    as (Hlo & _ & _ & _).
  - vm_compute; discriminate.
  - reflexivity.
  - vm_compute; discriminate.
  - split; [reflexivity | exact Hlo].
Defined.

(** ** The retry loop *)

Section Loop.
Context {W T : Type}.
Variable fn : W → (Thrown + T) * W.
Variable random : Z → Q.
Variable opts : RetryOptions.

Lemma invocations_app (t1 t2 : list Effect) :
  invocations (t1 ++ t2) = (invocations t1 + invocations t2)%nat.
Proof. unfold invocations. by rewrite List.filter_app, length_app. Qed.

Lemma sleeps_app (t1 t2 : list Effect) :
  sleeps (t1 ++ t2) = sleeps t1 ++ sleeps t2.
Proof. unfold sleeps. apply omap_app. Qed.

Lemma retry_loop_success fuel a last w tr v w' :
  a <= maxAttempts opts → fn w = (inr v, w') →
  retry_loop fn random opts (S fuel) a last w tr
  = Some (inr v, w', tr ++ [Invoke]).
Proof.
  intros Ha Hfn. simpl.
  destruct (Z.leb_spec a (maxAttempts opts)); [|lia]. simpl.
  by rewrite Hfn.
Qed.

Lemma retry_loop_give_up fuel a last w tr e w' :
  a <= maxAttempts opts → fn w = (inl e, w') →
  a = maxAttempts opts ∨ retryable opts e = false →
  retry_loop fn random opts (S fuel) a last w tr
  = Some (inl e, w', tr ++ [Invoke]).
Proof.
  intros Ha Hfn Hstop. simpl.
  destruct (Z.leb_spec a (maxAttempts opts)); [|lia]. simpl.
  rewrite Hfn. unfold retryable in Hstop.
  destruct Hstop as [-> | ->].
  - by rewrite Z.ltb_irrefl.
  - by rewrite andb_false_r.
Qed.

Lemma retry_loop_again fuel a last w tr e w' :
  a < maxAttempts opts → fn w = (inl e, w') → retryable opts e = true →
  retry_loop fn random opts (S fuel) a last w tr
  = retry_loop fn random opts fuel (a + 1) e w'
      (tr ++ [Invoke]
          ++ [OnRetry a e;
              Sleep (calculateDelay
                       {| attempt := a;
                          d_initialDelayMs := initialDelayMs opts;
                          d_maxDelayMs := maxDelayMs opts;
                          d_backoffMultiplier := backoffMultiplier opts |}
                       (random a))]).
Proof.
  intros Ha Hfn Hre. simpl.
  destruct (Z.leb_spec a (maxAttempts opts)); [|lia]. simpl.
  rewrite Hfn. unfold retryable in Hre. rewrite Hre.
  destruct (Z.ltb_spec a (maxAttempts opts)); [|lia]. simpl.
  by rewrite <- app_assoc.
Qed.

(** [m] retryable failures followed by one more invocation, all within
    the attempt budget: the loop performs exactly these [m + 1]
    invocations and ends with the outcome of the last one. *)
Lemma retry_loop_run (m : nat) :
  ∀ fuel a last w tr r,
    (m < fuel)%nat →
    a + Z.of_nat m <= maxAttempts opts →
    (∀ k, (k < m)%nat →
          ∃ e, fst (nth_call fn w k) = inl e ∧ retryable opts e = true) →
    fst (nth_call fn w m) = r →
    (match r with
     | inr _ => True
     | inl e => a + Z.of_nat m = maxAttempts opts ∨ retryable opts e = false
     end) →
    ∃ w' tr',
      retry_loop fn random opts fuel a last w tr = Some (r, w', tr')
      ∧ invocations tr' = (invocations tr + m + 1)%nat
      ∧ length (sleeps tr') = (length (sleeps tr) + m)%nat.
Proof.
  induction m as [|m IH]; intros fuel a last w tr r Hfuel Ha Hfail Hlast Hr.
  - destruct fuel as [|fuel]; [lia|].
    simpl in Hlast. destruct (fn w) as [r0 w'] eqn:Hfn. simpl in Hlast.
    subst r0. exists w', (tr ++ [Invoke]).
    split_and!;
      [| rewrite invocations_app; cbn; lia
       | rewrite sleeps_app, length_app; cbn; lia].
    destruct r as [e|v].
    + apply retry_loop_give_up; [lia|done|].
      destruct Hr as [Hr|Hr]; [left; lia|by right].
    + apply retry_loop_success; [lia|done].
  - destruct fuel as [|fuel]; [lia|].
    destruct (Hfail 0%nat ltac:(lia)) as (e & He & Hre).
    simpl in He. destruct (fn w) as [r0 w'] eqn:Hfn. simpl in He. subst r0.
    rewrite (retry_loop_again _ _ _ _ _ e w') by (done || lia).
    edestruct (IH fuel (a + 1) e w') as (w'' & tr' & Hrun & Hinv & Hsl).
    + lia.
    + lia.
    + intros k Hk. specialize (Hfail (S k) ltac:(lia)).
      simpl in Hfail. by rewrite Hfn in Hfail.
    + simpl in Hlast. rewrite Hfn in Hlast. exact Hlast.
    + destruct r; [|done]. destruct Hr as [Hr|Hr]; [left; lia|by right].
    + exists w'', tr'. split; [exact Hrun|].
      rewrite !invocations_app in Hinv. rewrite !sleeps_app, !length_app in Hsl.
      simpl in Hinv, Hsl. unfold invocations in Hinv; simpl in Hinv.
      fold (invocations tr) in Hinv. fold (invocations tr') in Hinv.
      split; lia.
Qed.
(** The loop ends within the fuel [withRetry] gives it. *)
Lemma retry_loop_total fuel :
  ∀ a last w tr,
    maxAttempts opts - a + 1 <= Z.of_nat fuel →
    is_Some (retry_loop fn random opts fuel a last w tr).
Proof.
  induction fuel as [|fuel IH]; intros a last w tr Hfuel; simpl.
  - destruct (Z.leb_spec a (maxAttempts opts)); [lia|]. by eexists.
  - destruct (a <=? maxAttempts opts); simpl; [|by eexists].
    destruct (fn w) as [[e|v] w']; [|by eexists].
    destruct (negb _); [by eexists|]. apply IH. lia.
Qed.
End Loop.

Lemma withRetry_total {W T : Type} (fn : W → (Thrown + T) * W)
    (random : Z → Q) (options : PartialRetryOptions) (w : W) :
  is_Some (withRetry fn random options w).
Proof. unfold withRetry. apply retry_loop_total. lia. Qed.

Lemma has_status_retryable (e : Thrown) (st : Z) (l : list Z) :
  has_status e st → st ≠ 0 → st ∈ l → isRetryableStatus e l = true.
Proof.
  destruct e as [e| |]; simpl; [|done..].
  intros (Hsome & Hst & Hresp) Hnz Hin.
  assert (Ht : truthy_in (Some st) l = true).
  { unfold truthy_in. rewrite bool_decide_eq_true_2 by done.
    destruct (Z.eqb_spec st 0); [done|reflexivity]. }
  destruct Hsome as [-> | Hr]; [by rewrite Ht|].
  destruct (truthy_in (status e) l); [done|].
  destruct (response e) as [r|]; simpl in Hr; [|done].
  injection Hr as ->. exact Ht.
Qed.

Lemma has_status_not_retryable (e : Thrown) (st : Z) (l : list Z) :
  has_status e st → st ∉ l → isRetryableStatus e l = false.
Proof.
  destruct e as [e| |]; simpl; [|done..].
  intros (_ & Hst & Hresp) Hin.
  assert (Ht : truthy_in (Some st) l = false).
  { unfold truthy_in. rewrite bool_decide_eq_false_2 by done.
    by rewrite andb_false_r. }
  assert (Hs : truthy_in (status e) l = false)
    by (destruct Hst as [-> | ->]; [done | exact Ht]).
  rewrite Hs. destruct (response e) as [r|]; simpl in *; [|done].
  destruct Hresp as [?|[Hr|Hr]]; [done| |]; injection Hr as ->; done.
Qed.

(** C4: with at least one attempt allowed, (1) if 503 is a retryable
    status and [fn] fails with HTTP status 503 on its first
    [maxAttempts - 1] invocations and then returns [v], [withRetry]
    returns [v] after exactly [maxAttempts] invocations of [fn] and
    [maxAttempts - 1] sleeps; (2) if 400 is not a retryable status and
    [fn] fails with HTTP status 400 (and not with a transport error),
    [withRetry] invokes [fn] once, does not sleep, and rethrows that
    very error; (3) if the first [maxAttempts] invocations all fail with
    retryable errors, [withRetry] stops after exactly [maxAttempts]
    invocations and throws the error of the last one, unchanged. *)
Theorem withRetry_retry_discipline {W T : Type}
    (fn : W → (Thrown + T) * W) (random : Z → Q)
    (options : PartialRetryOptions) (w : W) :
  let opts := merge_options DEFAULT_OPTIONS options in
  let n := Z.to_nat (maxAttempts opts) in
  1 <= maxAttempts opts →
  (503 ∈ retryableStatuses opts →
   ∀ v : T,
     (∀ k, (k < n - 1)%nat →
           ∃ e, fst (nth_call fn w k) = inl e ∧ has_status e 503) →
     fst (nth_call fn w (n - 1)) = inr v →
     ∃ w' tr, withRetry fn random options w = Some (inr v, w', tr)
              ∧ invocations tr = n
              ∧ length (sleeps tr) = (n - 1)%nat)
  ∧ (400 ∉ retryableStatuses opts →
     ∀ e, fst (fn w) = inl e → has_status e 400 →
          isNetworkError e = false →
          ∃ w' tr, withRetry fn random options w = Some (inl e, w', tr)
                   ∧ invocations tr = 1%nat
                   ∧ sleeps tr = [])
  ∧ (∀ e,
       (∀ k, (k < n)%nat →
             ∃ e', fst (nth_call fn w k) = inl e'
                   ∧ (isRetryableStatus e' (retryableStatuses opts)
                      || isNetworkError e') = true) →
       fst (nth_call fn w (n - 1)) = inl e →
       ∃ w' tr, withRetry fn random options w = Some (inl e, w', tr)
                ∧ invocations tr = n
                ∧ length (sleeps tr) = (n - 1)%nat).
Proof.
  intros opts n Hmax. unfold withRetry. fold opts. fold n.
  assert (Hn : Z.of_nat (n - 1) = maxAttempts opts - 1) by (unfold n; lia).
  assert (Hpos : (0 < n)%nat) by (unfold n; lia).
  split_and!.
  - intros H503 v Hfail Hok.
    destruct (retry_loop_run fn random opts (n - 1) n 1 ErrUndefined w []
                (inr v)) as (w' & tr & Hrun & Hinv & Hsl);
      [lia | lia | | exact Hok | done |].
    + intros k Hk. destruct (Hfail k Hk) as (e & He & Hst).
      exists e. split; [exact He|]. unfold retryable.
      by rewrite (has_status_retryable e 503).
    + exists w', tr. split; [exact Hrun|].
      cbn in Hinv, Hsl. split; lia.
  - intros H400 e Hfn Hst Hnet.
    destruct (fn w) as [r w'] eqn:Hfnw. simpl in Hfn. subst r.
    exists w', [Invoke].
    destruct n as [|n']; [lia|].
    rewrite (retry_loop_give_up fn random opts n' 1 ErrUndefined w [] e w');
      [done | lia | done |].
    right. unfold retryable.
    by rewrite (has_status_not_retryable e 400), Hnet.
  - intros e Hfail Hlast.
    destruct (retry_loop_run fn random opts (n - 1) n 1 ErrUndefined w []
                (inl e)) as (w' & tr & Hrun & Hinv & Hsl);
      [lia | lia | | exact Hlast | left; lia |].
    + intros k Hk. apply Hfail. lia.
    + exists w', tr. split; [exact Hrun|].
      cbn in Hinv, Hsl. split; lia.
Qed.

Lemma nth_call_flaky e fails k c :
  nth_call (flaky e fails) c k
  = (if (c + k <? fails)%nat then inl e else inr "ok", S (c + k)).
Proof.
  revert c. induction k as [|k IH]; intros c; simpl.
  - unfold flaky. by rewrite Nat.add_0_r.
  - rewrite IH. by replace (S c + k)%nat with (c + S k)%nat by lia.
Qed.

Lemma has_status_http_error (st : Z) : has_status (http_error st) st.
Proof. simpl. split_and!; [right | left | right; right]; reflexivity. Qed.

Lemma withRetry_retry_discipline_witness :
  (∃ w' tr, withRetry (flaky (http_error 503) 2) (λ _, 0%Q) no_options 0%nat
            = Some (inr "ok", w', tr)
            ∧ invocations tr = 3%nat ∧ length (sleeps tr) = 2%nat)
  ∧ (∃ w' tr, withRetry (flaky (http_error 400) 5) (λ _, 0%Q) no_options 0%nat
              = Some (inl (http_error 400), w', tr)
              ∧ invocations tr = 1%nat ∧ sleeps tr = [])
  ∧ (∃ w' tr, withRetry (flaky (http_error 503) 5) (λ _, 0%Q) no_options 0%nat
              = Some (inl (http_error 503), w', tr)
              ∧ invocations tr = 3%nat ∧ length (sleeps tr) = 2%nat).
Proof.
  split_and!.
  - destruct (withRetry_retry_discipline (flaky (http_error 503) 2)
                (λ _, 0%Q) no_options 0%nat) as (H & _ & _);
      [simpl; lia|].
    apply H.
    + apply (bool_decide_unpack _). by vm_compute.
    + intros k Hk. exists (http_error 503). rewrite nth_call_flaky.
      simpl in Hk. split.
      * destruct k as [|[|k]]; [reflexivity..|lia].
      * apply has_status_http_error.
    + reflexivity.
  - destruct (withRetry_retry_discipline (flaky (http_error 400) 5)
                (λ _, 0%Q) no_options 0%nat) as (_ & H & _);
      [simpl; lia|].
    apply H.
    + apply (bool_decide_unpack _). by vm_compute.
    + reflexivity.
    + apply has_status_http_error.
    + reflexivity.
  - destruct (withRetry_retry_discipline (flaky (http_error 503) 5)
                (λ _, 0%Q) no_options 0%nat) as (_ & _ & H);
      [simpl; lia|].
    apply H.
    + intros k Hk. exists (http_error 503). rewrite nth_call_flaky.
      simpl in Hk. split; [|reflexivity].
      destruct k as [|[|[|k]]]; [reflexivity..|lia].
    + reflexivity.
Defined.

End RetryFacts.

(* ===================================================================== *)
(** * Properties of the rate-limit gate                                   *)
(* ===================================================================== *)

Module RateLimitFacts.
Import RateLimit.

Lemma Qgt_bool_true (a b : Q) : Qgt_bool a b = true ↔ (b < a)%Q.
Proof.
  unfold Qgt_bool. rewrite Qgt_alt.
  destruct (a ?= b)%Q; split; intros; congruence.
Qed.

Lemma Qgt_bool_false (a b : Q) : Qgt_bool a b = false ↔ (a <= b)%Q.
Proof.
  rewrite <- not_true_iff_false, Qgt_bool_true. split.
  - apply Qnot_lt_le.
  - apply Qle_not_lt.
Qed.

Lemma falsy_timestamp_nonzero (t : Z) : t ≠ 0 → falsy_timestamp (Some t) = false.
Proof. intros Ht. simpl. by apply Z.eqb_neq. Qed.

(** The wait covers the remainder of the interval, rounded up to a whole
    second. *)
Lemma wait_covers_remainder (limit el : Q) :
  ((limit - el) * (1000 # 1) <= inject_Z (Qceiling (limit - el) * 1000))%Q
  ∧ (inject_Z (Qceiling (limit - el) * 1000)
     < (limit - el) * (1000 # 1) + (1000 # 1))%Q.
Proof.
  pose proof (Qle_ceiling (limit - el)) as Hle.
  pose proof (Qceiling_lt (limit - el)) as Hlt.
  rewrite inject_Z_mult. change (inject_Z 1000) with (1000 # 1).
  unfold Z.sub in Hlt. rewrite inject_Z_plus, inject_Z_opp in Hlt.
  change (inject_Z 1) with (1 # 1) in Hlt.
  set (c := inject_Z (Qceiling (limit - el))) in *.
  split; lra.
Qed.



End RateLimitFacts.

(* ===================================================================== *)
(** * Properties of the token refresh                                     *)
(* ===================================================================== *)

Module TokenFacts.
Import Token.

Section Refresh.
Context {W E : Type}.
Variable get : W → (E + GetCopilotTokenResponse) * W.

Lemma all_fail_step w m e w' :
  get w = (inl e, w') → all_fail get w (S m) → all_fail get w' m.
Proof.
  intros Hget Hall k Hk. specialize (Hall (S k) ltac:(lia)).
  simpl in Hall. by rewrite Hget in Hall.
Qed.

Lemma all_fail_head w m :
  all_fail get w (S m) → ∃ e w', get w = (inl e, w').
Proof.
  intros Hall. destruct (Hall 0%nat ltac:(lia)) as [e He].
  simpl in He. destruct (get w) as [r w']. simpl in He. subst r. eauto.
Qed.

Lemma refresh_loop_fail fuel a st w tr e w' :
  a <= 3 → get w = (inl e, w') →
  refresh_loop get (S fuel) a st w tr
  = refresh_loop get fuel (a + 1) st w'
      (if a <? 3
       then ((tr ++ [Fetch]) ++ [LogAttemptFailed a]) ++ [Sleep (a * 5000)]
       else (tr ++ [Fetch]) ++ [LogAttemptFailed a]).
Proof.
  intros Ha Hget. simpl. unfold MAX_TOKEN_REFRESH_RETRIES.
  destruct (Z.leb_spec a 3); [|lia]. simpl. by rewrite Hget.
Qed.

Lemma refresh_loop_ok fuel a st w tr resp w' :
  a <= 3 → get w = (inr resp, w') →
  refresh_loop get (S fuel) a st w tr
  = Some ({| githubToken := githubToken st;
             copilotToken := Some (token resp) |},
          w', (tr ++ [Fetch]) ++ [LogRefreshed]).
Proof.
  intros Ha Hget. simpl. unfold MAX_TOKEN_REFRESH_RETRIES.
  destruct (Z.leb_spec a 3); [|lia]. simpl. by rewrite Hget.
Qed.

Lemma refresh_loop_exhausted fuel a st w tr :
  3 < a →
  refresh_loop get fuel a st w tr = Some (st, w, tr ++ [LogAllFailed]).
Proof.
  intros Ha. destruct fuel; simpl; unfold MAX_TOKEN_REFRESH_RETRIES;
    by destruct (Z.leb_spec a 3); [lia|].
Qed.

(** Every attempt fails: three fetches, sleeps of 5 s and 10 s, the
    token left as it was, the failure logged. *)
Lemma refreshCallback_all_fail st w :
  all_fail get w 3 →
  ∃ w' tr, refreshCallback get st w = Some (st, w', tr)
           ∧ fetches tr = 3%nat
           ∧ sleeps tr = [5000; 10000]
           ∧ logged_all_failed tr = true.
Proof.
  intros H3. unfold refreshCallback.
  change (Z.to_nat MAX_TOKEN_REFRESH_RETRIES) with 3%nat.
  destruct (all_fail_head _ _ H3) as (e1 & w1 & Hg1).
  pose proof (all_fail_step _ _ _ _ Hg1 H3) as H2.
  destruct (all_fail_head _ _ H2) as (e2 & w2 & Hg2).
  pose proof (all_fail_step _ _ _ _ Hg2 H2) as H1.
  destruct (all_fail_head _ _ H1) as (e3 & w3 & Hg3).
  rewrite (refresh_loop_fail _ _ _ _ _ e1 w1) by (lia || done).
  rewrite (refresh_loop_fail _ _ _ _ _ e2 w2) by (lia || done).
  rewrite (refresh_loop_fail _ _ _ _ _ e3 w3) by (lia || done).
  rewrite refresh_loop_exhausted by lia.
  eexists _, _. split; [reflexivity|]. by vm_compute.
Qed.

(** The first [m < 3] attempts fail and the next one answers: [m + 1]
    fetches, the first [m] back-off sleeps, the new token stored. *)
Lemma refreshCallback_success st w m resp :
  (m < 3)%nat → all_fail get w m →
  fst (nth_fetch get w m) = inr resp →
  ∃ w' tr, refreshCallback get st w
           = Some ({| githubToken := githubToken st;
                      copilotToken := Some (token resp) |}, w', tr)
           ∧ fetches tr = S m
           ∧ sleeps tr = backoff_after m
           ∧ logged_all_failed tr = false.
Proof.
  intros Hm Hall Hok. unfold refreshCallback.
  change (Z.to_nat MAX_TOKEN_REFRESH_RETRIES) with 3%nat.
  destruct m as [|[|[|m]]]; [| | |lia].
  - simpl in Hok. destruct (get w) as [r w1] eqn:Hg1. simpl in Hok. subst r.
    rewrite (refresh_loop_ok _ _ _ _ _ resp w1) by (lia || done).
    eexists _, _. split; [reflexivity|]. by vm_compute.
  - destruct (all_fail_head _ _ Hall) as (e1 & w1 & Hg1).
    simpl in Hok. rewrite Hg1 in Hok. simpl in Hok.
    destruct (get w1) as [r w2] eqn:Hg2. simpl in Hok. subst r.
    rewrite (refresh_loop_fail _ _ _ _ _ e1 w1) by (lia || done).
    rewrite (refresh_loop_ok _ _ _ _ _ resp w2) by (lia || done).
    eexists _, _. split; [reflexivity|]. by vm_compute.
  - destruct (all_fail_head _ _ Hall) as (e1 & w1 & Hg1).
    pose proof (all_fail_step _ _ _ _ Hg1 Hall) as H1.
    destruct (all_fail_head _ _ H1) as (e2 & w2 & Hg2).
    simpl in Hok. rewrite Hg1 in Hok. simpl in Hok.
    rewrite Hg2 in Hok. simpl in Hok.
    destruct (get w2) as [r w3] eqn:Hg3. simpl in Hok. subst r.
    rewrite (refresh_loop_fail _ _ _ _ _ e1 w1) by (lia || done).
    rewrite (refresh_loop_fail _ _ _ _ _ e2 w2) by (lia || done).
    rewrite (refresh_loop_ok _ _ _ _ _ resp w3) by (lia || done).
    eexists _, _. split; [reflexivity|]. by vm_compute.
Qed.
Lemma refresh_loop_total fuel :
  ∀ a st w tr,
    MAX_TOKEN_REFRESH_RETRIES - a + 1 <= Z.of_nat fuel →
    is_Some (refresh_loop get fuel a st w tr).
Proof.
  induction fuel as [|fuel IH]; intros a st w tr Hfuel; simpl.
  - destruct (Z.leb_spec a MAX_TOKEN_REFRESH_RETRIES); [lia|]. by eexists.
  - destruct (a <=? MAX_TOKEN_REFRESH_RETRIES); simpl; [|by eexists].
    destruct (get w) as [[e|resp] w']; [|by eexists]. apply IH. lia.
Qed.

Lemma refreshCallback_total st w : is_Some (refreshCallback get st w).
Proof. unfold refreshCallback. apply refresh_loop_total. lia. Qed.
End Refresh.

(** C8 (as the code has it): the refresh timer is installed with a
    period of [refresh_in - 60] seconds, [refresh_in] being the refresh
    delay the token response declares; one firing of the timer makes at
    most 3 attempts in all (the first one and up to 2 retries), sleeping
    [attempt * 5] seconds after failed attempt 1 and 2; when all three
    fail it leaves the token as it was and logs the failure; when one
    succeeds it stores the new token and stops. *)
Theorem refresh_makes_three_attempts {W E : Type}
    (get : W → (E + GetCopilotTokenResponse) * W)
    (st : State) (w : W) :
  (∀ resp w' over, get w = (inr resp, w') →
     ∃ st', setupCopilotToken get over st w
            = (inr (st', (refresh_in resp - 60) * 1000), w')
            ∧ copilotToken st' = Some (token resp))
  ∧ (all_fail get w 3 →
     ∃ w' tr, refreshCallback get st w = Some (st, w', tr)
              ∧ fetches tr = 3%nat ∧ retries tr = 2%nat
              ∧ sleeps tr = [1 * 5000; 2 * 5000]
              ∧ logged_all_failed tr = true)
  ∧ (∀ m resp, (m < 3)%nat → all_fail get w m →
       fst (nth_fetch get w m) = inr resp →
       ∃ st' w' tr, refreshCallback get st w = Some (st', w', tr)
                    ∧ copilotToken st' = Some (token resp)
                    ∧ fetches tr = S m
                    ∧ sleeps tr = backoff_after m
                    ∧ logged_all_failed tr = false).
Proof.
  split_and!.
  - intros resp w' over Hget. unfold setupCopilotToken. rewrite Hget.
    eexists. split; reflexivity.
  - intros Hall.
    destruct (refreshCallback_all_fail get st w Hall)
      as (w' & tr & Hrun & Hf & Hs & Hl).
    exists w', tr. unfold retries. rewrite Hf. by split_and!.
  - intros m resp Hm Hall Hok.
    destruct (refreshCallback_success get st w m resp Hm Hall Hok)
      as (w' & tr & Hrun & Hf & Hs & Hl).
    eexists _, w', tr. split; [exact Hrun|]. by split_and!.
Qed.

Lemma refresh_makes_three_attempts_witness :
  (∃ w' tr, refreshCallback always_fail stale () = Some (stale, w', tr)
            ∧ fetches tr = 3%nat ∧ retries tr = 2%nat
            ∧ sleeps tr = [5000; 10000]
            ∧ logged_all_failed tr = true)
  ∧ (∃ st', setupCopilotToken answers None stale ()
            = (inr (st', 1440000), ())
            ∧ copilotToken st' = Some "tid=new").
Proof.
  destruct (refresh_makes_three_attempts always_fail stale ())
    as (_ & Hfail & _).
  destruct (refresh_makes_three_attempts answers stale ())
    as (Hsetup & _ & _).
  split.
  - apply Hfail. intros k _. exists "503".
    induction k as [|k IH]; [reflexivity | exact IH].
  - apply (Hsetup sample_response () None). reflexivity.
Defined.

(** C8 as stated fails twice.  A refresh whose every attempt fails is
    retried 2 times, not 3 (three attempts in all); and for a token
    that expires in 1800 s with [refresh_in = 1500] the timer period is
    1440 s, which is [refresh_in - 60] and not the 1740 s that "expiry
    minus 60 seconds" would give. *)
Lemma refresh_is_not_retried_three_times :
  (∃ tr, refreshCallback always_fail stale () = Some (stale, (), tr)
         ∧ retries tr = 2%nat ∧ retries tr ≠ 3%nat)
  ∧ (∃ st', setupCopilotToken answers None stale ()
            = (inr (st', 1440000), ())
            ∧ 1440000 ≠ (expires_at sample_response - 0 - 60) * 1000).
Proof.
  split.
  - eexists. split; [reflexivity|]. split; [reflexivity | discriminate].
  - eexists. split; [reflexivity | discriminate].
Qed.

End TokenFacts.

(* ===================================================================== *)
(** * Properties of the streaming translator                              *)
(* ===================================================================== *)

Module StreamFacts.
Import Stream.

(** C5: the chunks {text "Hello", text " world", finish_reason = stop},
    whatever their id, model and usage fields, translate from the fresh
    state to exactly seven events: message_start, content_block_start
    (an empty text block, index 0), two content_block_delta carrying
    "Hello" and " world", content_block_stop, message_delta (normal
    completion) and message_stop, in this order. *)
Theorem hello_world_event_sequence
    (i1 m1 i2 m2 i3 m3 : string) (u1 u2 u3 : option Usage) :
  let chunks := [text_chunk i1 m1 u1 "Hello"; text_chunk i2 m2 u2 " world";
                 finish_chunk i3 m3 u3 fr_stop] in
  let events := fst (translateStream chunks fresh_state) in
  event_type <$> events
  = [message_start; content_block_start; content_block_delta;
     content_block_delta; content_block_stop; message_delta; message_stop]
  ∧ events
    = [createMessageStartEvent (text_chunk i1 m1 u1 "Hello");
       ContentBlockStart 0 (TextBlock "");
       ContentBlockDelta 0 (TextDelta "Hello");
       ContentBlockDelta 0 (TextDelta " world");
       ContentBlockStop 0;
       MessageDelta normal_completion
         {| input_tokens := calculateInputTokens (finish_chunk i3 m3 u3 fr_stop);
            output_tokens := default 0 (completion_tokens <$> u3);
            cache_read_input_tokens :=
              getCacheReadTokens (finish_chunk i3 m3 u3 fr_stop) |};
       MessageStop].
Proof. split; reflexivity. Qed.

(** ** The translator against the block discipline *)

Lemma blocks_ok_run cur hi evs :
  blocks_ok cur hi evs = true ↔ is_Some (blocks_run cur hi evs).
Proof.
  revert cur hi. induction evs as [|e evs IH]; intros cur hi; simpl.
  - split; eauto.
  - destruct e; try apply IH.
    + destruct cur; [split; [done | by intros [? ?]]|].
      destruct (hi <=? index); simpl; [apply IH|].
      split; [done | by intros [? ?]].
    + destruct cur as [j|]; [|split; [done | by intros [? ?]]].
      destruct (index =? j); simpl; [apply IH|].
      split; [done | by intros [? ?]].
Qed.

Lemma blocks_run_app cur hi e1 e2 :
  blocks_run cur hi (e1 ++ e2)
  = blocks_run cur hi e1 ≫= λ p, blocks_run (fst p) (snd p) e2.
Proof.
  revert cur hi. induction e1 as [|e e1 IH]; intros cur hi; simpl; [done|].
  destruct e; try apply IH.
  - destruct cur; [done|]. destruct (hi <=? index); [apply IH | done].
  - destruct cur as [j|]; [|done]. destruct (index =? j); [apply IH | done].
Qed.

Lemma blocks_run_starts cur hi evs p :
  blocks_run cur hi evs = Some p →
  Forall (λ i, hi <= i) (start_indices evs)
  ∧ strictly_increasing (start_indices evs) = true.
Proof.
  revert cur hi. induction evs as [|e evs IH]; intros cur hi Hrun.
  - by split; [constructor|].
  - destruct e; simpl in Hrun; try (by apply (IH cur hi)).
    + destruct cur; [done|].
      destruct (Z.leb_spec hi index); [|done].
      destruct (IH _ _ Hrun) as [Hall Hinc].
      change (start_indices (ContentBlockStart index content_block :: evs))
        with (index :: start_indices evs).
      split.
      * constructor; [done|].
        eapply Forall_impl; [exact Hall|]. simpl. lia.
      * simpl. destruct (start_indices evs) as [|b l] eqn:Hl; [done|].
        apply Forall_cons in Hall as [Hb _].
        apply andb_true_intro. split; [apply Z.ltb_lt; lia | exact Hinc].
    + destruct cur as [j|]; [|done].
      destruct (index =? j); [|done]. by apply (IH None hi).
Qed.

Lemma step_ok_refl a : step_ok a a.
Proof. exists []. by rewrite app_nil_r. Qed.

Lemma step_ok_trans a b c : step_ok a b → step_ok b c → step_ok a c.
Proof.
  intros (n1 & E1 & R1 & S1) (n2 & E2 & R2 & S2). exists (n1 ++ n2).
  split_and!.
  - by rewrite E2, E1, app_assoc.
  - by rewrite blocks_run_app, R1.
  - auto.
Qed.

Lemma isToolBlockOpen_open st : isToolBlockOpen st = true → contentBlockOpen st = true.
Proof. unfold isToolBlockOpen. by destruct (contentBlockOpen st). Qed.

Ltac run_blocks H :=
  simpl; rewrite ?H; simpl; rewrite ?Z.eqb_refl, ?Z.leb_refl; reflexivity.

Lemma handleTextContent_ok st text evs :
  step_ok (st, evs) (handleTextContent st text evs).
Proof.
  unfold handleTextContent, step_ok, cur_of, hi_of.
  destruct (isToolBlockOpen st) eqn:Htool.
  - apply isToolBlockOpen_open in Htool. simpl.
    eexists. split_and!; [by rewrite <- !app_assoc | run_blocks Htool | done].
  - destruct (contentBlockOpen st) eqn:Hopen; simpl; rewrite ?Hopen.
    + eexists. split_and!; [reflexivity | reflexivity | done].
    + eexists. split_and!; [by rewrite <- !app_assoc | run_blocks Hopen | done].
Qed.

Lemma handleNewToolCall_ok st idx tid tname evs :
  step_ok (st, evs) (handleNewToolCall st idx tid tname evs).
Proof.
  unfold handleNewToolCall, step_ok, cur_of, hi_of.
  destruct (contentBlockOpen st) eqn:Hopen; simpl.
  - eexists. split_and!; [by rewrite <- !app_assoc | run_blocks Hopen | done].
  - eexists. split_and!; [reflexivity | run_blocks Hopen | done].
Qed.

Lemma handleToolCallArguments_ok st idx args evs :
  step_ok (st, evs) (handleToolCallArguments st idx args evs).
Proof.
  unfold handleToolCallArguments.
  destruct (toolCalls st !! idx); [|apply step_ok_refl].
  eexists. split_and!; [reflexivity | reflexivity | done].
Qed.

Lemma handleToolCall_ok acc tc : step_ok acc (handleToolCall acc tc).
Proof.
  destruct acc as [st evs]. unfold handleToolCall.
  destruct (match truthy (tc_id tc) with Some tid => _ | None => _ end)
    as [st1 evs1] eqn:E1.
  assert (Hb : step_ok (st, evs) (st1, evs1)).
  { rewrite <- E1. destruct (truthy (tc_id tc)); [|apply step_ok_refl].
    destruct (truthy _); [|apply step_ok_refl].
    apply handleNewToolCall_ok. }
  destruct (truthy (tc_function tc ≫= fn_arguments)); [|exact Hb].
  eapply step_ok_trans; [exact Hb|]. apply handleToolCallArguments_ok.
Qed.

Lemma fold_handleToolCall_ok tcs acc :
  step_ok acc (fold_left handleToolCall tcs acc).
Proof.
  revert acc. induction tcs as [|tc tcs IH]; intros acc; simpl.
  - apply step_ok_refl.
  - eapply step_ok_trans; [apply handleToolCall_ok | apply IH].
Qed.

(** The finish handler closes the open block, if any, and opens none. *)
Lemma handleFinishReason_ok chunk st fr evs :
  ∃ new, snd (handleFinishReason chunk st fr evs) = evs ++ new
         ∧ blocks_run (cur_of st) (hi_of st) new = Some (None, hi_of st)
         ∧ messageStartSent (fst (handleFinishReason chunk st fr evs))
           = messageStartSent st.
Proof.
  unfold handleFinishReason, cur_of, hi_of.
  destruct (contentBlockOpen st) eqn:Hopen; simpl.
  - eexists. split_and!; [by rewrite <- !app_assoc | run_blocks Hopen | done].
  - eexists. split_and!; [reflexivity | run_blocks Hopen | done].
Qed.

(** The events of one chunk that carries a choice, read from where the
    state stands: they respect the discipline; unless the chunk carries
    a finish reason the discipline ends where the new state stands;
    message_start has been sent afterwards, as the first event of the
    chunk if it had not been sent before. *)
Lemma translateChunk_ok chunk st :
  choices chunk ≠ [] →
  ∃ p, blocks_run (cur_of st) (hi_of st)
         (fst (translateChunkToAnthropicEvents chunk st)) = Some p
       ∧ (has_finish chunk = false →
          p = (cur_of (snd (translateChunkToAnthropicEvents chunk st)),
               hi_of (snd (translateChunkToAnthropicEvents chunk st))))
       ∧ messageStartSent (snd (translateChunkToAnthropicEvents chunk st))
         = true
       ∧ (messageStartSent st = false →
          head (fst (translateChunkToAnthropicEvents chunk st))
          = Some (createMessageStartEvent chunk)).
Proof.
  unfold translateChunkToAnthropicEvents, has_finish.
  destruct (choices chunk) as [|choice rest]; [done|]. intros _.
  destruct (if negb (messageStartSent st) then _ else _)
    as [st1 evs1] eqn:E1.
  assert (H1 : step_ok (st, []) (st1, evs1)
               ∧ messageStartSent st1 = true
               ∧ (messageStartSent st = false →
                  evs1 = [createMessageStartEvent chunk])).
  { destruct (messageStartSent st) eqn:Hs; simpl in E1;
      injection E1 as <- <-.
    - split; [apply step_ok_refl | done].
    - split; [|done]. eexists. split_and!; [reflexivity | reflexivity | done]. }
  destruct H1 as (H1 & Hsent1 & Hfirst).
  destruct (match truthy (content (delta choice)) with
            | Some text => _ | None => _ end) as [st2 evs2] eqn:E2.
  assert (H2 : step_ok (st1, evs1) (st2, evs2)).
  { rewrite <- E2.
    destruct (truthy _); [apply handleTextContent_ok | apply step_ok_refl]. }
  destruct (match tool_calls (delta choice) with
            | Some tcs => _ | None => _ end) as [st3 evs3] eqn:E3.
  assert (H3 : step_ok (st2, evs2) (st3, evs3)).
  { rewrite <- E3.
    destruct (tool_calls _); [apply fold_handleToolCall_ok | apply step_ok_refl]. }
  pose proof (step_ok_trans _ _ _ H2 H3) as H13.
  destruct (step_ok_trans _ _ _ H1 H13) as (new & Hev & Hrun & _).
  destruct H13 as (tl & Htl & _ & Hsent3). simpl in *. subst evs3.
  specialize (Hsent3 Hsent1).
  assert (Hhd : ∀ more, messageStartSent st = false →
                        head ((evs1 ++ tl) ++ more)
                        = Some (createMessageStartEvent chunk)).
  { intros more Hs. by rewrite (Hfirst Hs). }
  destruct (finish_reason choice) as [fr|].
  - destruct (handleFinishReason_ok chunk st3 fr (evs1 ++ tl))
      as (fin & Hfin & Hrunf & Hsentf).
    destruct (handleFinishReason chunk st3 fr (evs1 ++ tl)) as [st4 evs4].
    simpl in *. subst evs4.
    exists (None, hi_of st3). split_and!.
    + by rewrite Hev, blocks_run_app, Hrun.
    + intros Hf. by compute in Hf.
    + congruence.
    + apply Hhd.
  - simpl. eexists. split_and!; [by rewrite Hev | done | done |].
    intros Hs. specialize (Hhd [] Hs). by rewrite app_nil_r in Hhd.
Qed.

Lemma translateChunk_no_choices chunk st :
  no_choices chunk = true →
  translateChunkToAnthropicEvents chunk st = ([], st).
Proof.
  unfold no_choices, translateChunkToAnthropicEvents.
  by destruct (choices chunk).
Qed.

Lemma translateStream_no_choices chunks st :
  forallb no_choices chunks = true → translateStream chunks st = ([], st).
Proof.
  revert st. induction chunks as [|c rest IH]; intros st Hall; [done|].
  simpl in Hall. apply andb_true_iff in Hall as [Hc Hrest].
  simpl. by rewrite translateChunk_no_choices, IH.
Qed.

Lemma translateStream_ok chunks st :
  finish_is_terminal chunks = true →
  is_Some (blocks_run (cur_of st) (hi_of st)
             (fst (translateStream chunks st))).
Proof.
  revert st. induction chunks as [|c rest IH]; intros st Hfin; [by eexists|].
  simpl in Hfin. simpl.
  destruct (decide (choices c = [])) as [Hnil|Hcons].
  - assert (Hn : no_choices c = true) by (unfold no_choices; by rewrite Hnil).
    assert (Hf : has_finish c = false) by (unfold has_finish; by rewrite Hnil).
    rewrite translateChunk_no_choices by done. rewrite Hf in Hfin.
    specialize (IH st Hfin).
    by destruct (translateStream rest st) as [evs' st''].
  - destruct (translateChunk_ok c st Hcons) as (p & Hrun & Hp & _).
    destruct (translateChunkToAnthropicEvents c st) as [evs st'] eqn:Hc.
    simpl in Hrun, Hp.
    destruct (has_finish c).
    + rewrite translateStream_no_choices by done. rewrite app_nil_r.
      by eexists.
    + specialize (IH st' Hfin). rewrite (Hp eq_refl) in Hrun.
      destruct (translateStream rest st') as [evs' st''].
      simpl in *. by rewrite blocks_run_app, Hrun.
Qed.

(** C9: a chunk with an empty [choices] array yields no event and leaves
    the state as it is (so [messageStartSent] is still false afterwards
    on a fresh connection); message_start is then the first event of the
    next chunk that carries a choice. *)
Theorem empty_choices_is_noop (chunk : Chunk) (state : State) :
  choices chunk = [] →
  translateChunkToAnthropicEvents chunk state = ([], state)
  ∧ ∀ chunk', choices chunk' ≠ [] → messageStartSent state = false →
      head (fst (translateStream [chunk; chunk'] state))
      = Some (createMessageStartEvent chunk')
      ∧ messageStartSent (snd (translateStream [chunk; chunk'] state))
        = true.
Proof.
  intros Hnil.
  assert (Hnoop : translateChunkToAnthropicEvents chunk state = ([], state)).
  { unfold translateChunkToAnthropicEvents. by rewrite Hnil. }
  split; [exact Hnoop|].
  intros chunk' Hcons Hsent. simpl. rewrite Hnoop.
  destruct (translateChunk_ok chunk' state Hcons) as (_ & _ & _ & Hs & Hhd).
  destruct (translateChunkToAnthropicEvents chunk' state) as [evs st'].
  simpl in *. rewrite app_nil_r. auto.
Qed.

Lemma empty_choices_is_noop_witness :
  translateChunkToAnthropicEvents (empty_choices_chunk "c1" "gpt-4" None)
    fresh_state = ([], fresh_state)
  ∧ head (fst (translateStream [empty_choices_chunk "c1" "gpt-4" None;
                                text_chunk "c1" "gpt-4" None "Hi"]
                 fresh_state))
    = Some (createMessageStartEvent (text_chunk "c1" "gpt-4" None "Hi")).
Proof.
  destruct (empty_choices_is_noop (empty_choices_chunk "c1" "gpt-4" None)
              fresh_state eq_refl) as [Hnoop Hnext].
  split; [exact Hnoop|].
  apply (Hnext (text_chunk "c1" "gpt-4" None "Hi")); [discriminate | reflexivity].
Defined.

(** C6 (as the code has it): for every chunk sequence in which nothing
    but chunks without choices follows a chunk carrying a finish reason,
    the events produced from a fresh state open a block only while none
    is open, close only the block that is open, and give the blocks
    strictly increasing indices, so that no index is opened twice. *)
Theorem block_discipline_until_finish (chunks : list Chunk) :
  finish_is_terminal chunks = true →
  let events := fst (translateStream chunks fresh_state) in
  blocks_ok None 0 events = true
  ∧ strictly_increasing (start_indices events) = true.
Proof.
  intros Hfin events.
  pose proof (translateStream_ok chunks fresh_state Hfin) as [p Hrun].
  change (cur_of fresh_state) with (@None Z) in Hrun.
  change (hi_of fresh_state) with 0 in Hrun.
  split.
  - apply blocks_ok_run. by eexists.
  - by destruct (blocks_run_starts _ _ _ _ Hrun).
Qed.

(** On [mixed_stream]: three blocks, with indices 0, 1 and 2. *)
Lemma block_discipline_until_finish_witness :
  blocks_ok None 0 (fst (translateStream mixed_stream fresh_state)) = true
  ∧ start_indices (fst (translateStream mixed_stream fresh_state)) = [0; 1; 2].
Proof.
  destruct (block_discipline_until_finish mixed_stream eq_refl) as [Hok _].
  split; [exact Hok | reflexivity].
Defined.

(** C6 as stated fails: content arriving after a chunk with a finish
    reason reopens index 0, because [handleFinishReason] closes the block
    without advancing [contentBlockIndex]. *)
Lemma block_index_reused_after_finish :
  start_indices (fst (translateStream resumed_stream fresh_state)) = [0; 0]
  ∧ strictly_increasing
      (start_indices (fst (translateStream resumed_stream fresh_state)))
    = false
  ∧ blocks_ok None 0 (fst (translateStream resumed_stream fresh_state))
    = false.
Proof. split_and!; reflexivity. Qed.

End StreamFacts.

(* ===================================================================== *)
(** * Properties of the request cache                                     *)
(* ===================================================================== *)

Module CacheFacts.
Import Cache.

(** ** Node fields after a write *)

Lemma lookup_setPrev_ne a b v h : a ≠ b → setPrev a v h !! b = h !! b.
Proof. intros. unfold setPrev. by rewrite lookup_alter_ne. Qed.

Lemma lookup_setNext_ne a b v h : a ≠ b → setNext a v h !! b = h !! b.
Proof. intros. unfold setNext. by rewrite lookup_alter_ne. Qed.

Lemma lookup_setPrev_eq a v h k p n :
  h !! a = Some {| n_key := k; prev := p; next := n |} →
  setPrev a v h !! a = Some {| n_key := k; prev := v; next := n |}.
Proof. intros H. unfold setPrev. by rewrite lookup_alter_eq, H. Qed.

Lemma lookup_setNext_eq a v h k p n :
  h !! a = Some {| n_key := k; prev := p; next := n |} →
  setNext a v h !! a = Some {| n_key := k; prev := p; next := v |}.
Proof. intros H. unfold setNext. by rewrite lookup_alter_eq, H. Qed.

Lemma first_addr_app l1 l2 d :
  first_addr (l1 ++ l2) d = first_addr l1 (first_addr l2 d).
Proof. by destruct l1. Qed.

Lemma last_addr_cons c l d : last_addr (c :: l) d = last_addr l (Some (fst c)).
Proof.
  unfold last_addr. rewrite last_cons. by destruct (last l).
Qed.

Lemma last_addr_snoc l c d : last_addr (l ++ [c]) d = Some (fst c).
Proof. unfold last_addr. by rewrite last_snoc. Qed.

Lemma last_addr_app l1 l2 d :
  last_addr (l1 ++ l2) d = last_addr l2 (last_addr l1 d).
Proof.
  unfold last_addr. rewrite last_app.
  destruct (last l2); [done|]. by destruct (last l1).
Qed.

Lemma dseg_app h p l1 l2 n :
  dseg h p (l1 ++ l2) n
  ↔ dseg h p l1 (first_addr l2 n) ∧ dseg h (last_addr l1 p) l2 n.
Proof.
  revert p. induction l1 as [|c l1 IH]; intros p; simpl.
  - unfold last_addr. simpl. tauto.
  - rewrite IH, first_addr_app, last_addr_cons. tauto.
Qed.

(** A heap that agrees with [h] on the nodes of a segment holds the same
    segment. *)
Lemma dseg_frame h h' p cells n :
  (∀ a, a ∈ cells.*1 → h' !! a = h !! a) →
  dseg h p cells n → dseg h' p cells n.
Proof.
  revert p. induction cells as [|c rest IH]; intros p Hsame; simpl; [done|].
  intros [Hc Hrest]. split.
  - rewrite Hsame; [done|]. simpl. apply elem_of_cons. by left.
  - apply IH; [|done]. intros a Ha. apply Hsame. simpl.
    apply elem_of_cons. by right.
Qed.

Lemma dseg_setPrev_frame h a v p cells n :
  a ∉ cells.*1 → dseg h p cells n → dseg (setPrev a v h) p cells n.
Proof.
  intros Ha. apply dseg_frame. intros b Hb.
  apply lookup_setPrev_ne. by intros ->.
Qed.

Lemma dseg_setNext_frame h a v p cells n :
  a ∉ cells.*1 → dseg h p cells n → dseg (setNext a v h) p cells n.
Proof.
  intros Ha. apply dseg_frame. intros b Hb.
  apply lookup_setNext_ne. by intros ->.
Qed.

Lemma dseg_insert_frame h a nd p cells n :
  a ∉ cells.*1 → dseg h p cells n → dseg (<[a := nd]> h) p cells n.
Proof.
  intros Ha. apply dseg_frame. intros b Hb.
  apply lookup_insert_ne. by intros ->.
Qed.

(** Redirecting the back pointer of the first node of a segment. *)
Lemma dseg_set_first_prev h p p' cells n :
  NoDup cells.*1 → dseg h p cells n →
  dseg (setPrevOpt (first_addr cells None) p' h) p' cells n.
Proof.
  destruct cells as [|c rest]; [done|]. simpl.
  intros Hnd [Hc Hrest]. apply NoDup_cons in Hnd as [Hnotin Hnd]. split.
  - by eapply lookup_setPrev_eq.
  - by apply dseg_setPrev_frame.
Qed.

(** Redirecting the forward pointer of the last node of a segment. *)
Lemma dseg_set_last_next h p cells n n' :
  NoDup cells.*1 → dseg h p cells n →
  dseg (setNextOpt (last_addr cells None) n' h) p cells n'.
Proof.
  destruct cells as [|c rest _] using rev_ind; [done|].
  rewrite last_addr_snoc. simpl. rewrite fmap_app.
  intros Hnd Hseg. apply NoDup_app in Hnd as (Hnd & Hdisj & _).
  apply dseg_app in Hseg as [Hrest Hc].
  apply dseg_app. simpl in *. split.
  - apply dseg_setNext_frame; [|done].
    intros Hin. apply (Hdisj _ Hin). apply elem_of_cons. by left.
  - split; [|done]. destruct Hc as [Hc _]. by eapply lookup_setNext_eq.
Qed.

Lemma lookup_setPrevOpt_ne o b v h : o ≠ Some b → setPrevOpt o v h !! b = h !! b.
Proof.
  destruct o as [a|]; simpl; [|done]. intros Hne.
  apply lookup_setPrev_ne. congruence.
Qed.

Lemma lookup_setNextOpt_ne o b v h : o ≠ Some b → setNextOpt o v h !! b = h !! b.
Proof.
  destruct o as [a|]; simpl; [|done]. intros Hne.
  apply lookup_setNext_ne. congruence.
Qed.

Lemma dseg_setPrevOpt_frame h o v p cells n :
  (∀ a, o = Some a → a ∉ cells.*1) →
  dseg h p cells n → dseg (setPrevOpt o v h) p cells n.
Proof.
  destruct o as [a|]; simpl; [|done]. intros Ha.
  apply dseg_setPrev_frame. by apply Ha.
Qed.

Lemma dseg_setNextOpt_frame h o v p cells n :
  (∀ a, o = Some a → a ∉ cells.*1) →
  dseg h p cells n → dseg (setNextOpt o v h) p cells n.
Proof.
  destruct o as [a|]; simpl; [|done]. intros Ha.
  apply dseg_setNext_frame. by apply Ha.
Qed.

Lemma first_addr_elem (l : list cell) x : first_addr l None = Some x → x ∈ l.*1.
Proof.
  destruct l as [|c l]; simpl; [done|]. intros [= <-].
  apply elem_of_cons. by left.
Qed.

Lemma last_addr_elem (l : list cell) x : last_addr l None = Some x → x ∈ l.*1.
Proof.
  destruct l as [|c l _] using rev_ind; [done|].
  rewrite last_addr_snoc. intros [= <-]. rewrite fmap_app.
  apply elem_of_app. right. apply elem_of_cons. by left.
Qed.

Lemma first_addr_nonempty (l : list cell) d :
  l ≠ [] → first_addr l d = first_addr l None.
Proof. by destruct l. Qed.

Lemma last_addr_nonempty (l : list cell) d :
  l ≠ [] → last_addr l d = last_addr l None.
Proof.
  destruct l as [|c l _] using rev_ind; [done|]. intros _.
  by rewrite !last_addr_snoc.
Qed.

(** The pieces of a duplicate-free list around one of its cells. *)
Lemma nodup_around (l1 l2 : list cell) (c : cell) :
  NoDup (l1 ++ c :: l2).*1 →
  NoDup (l1.*1) ∧ NoDup (l2.*1) ∧ (fst c ∉ l1.*1) ∧ (fst c ∉ l2.*1)
  ∧ (∀ x, x ∈ l1.*1 → x ∉ l2.*1).
Proof.
  rewrite fmap_app, fmap_cons. intros Hnd.
  apply NoDup_app in Hnd as (Hnd1 & Hdisj & Hnd2).
  apply NoDup_cons in Hnd2 as [Hc2 Hnd2].
  split_and!; [done | done | | done |].
  - intros Hin. apply (Hdisj _ Hin). apply elem_of_cons. by left.
  - intros x Hx1 Hx2. apply (Hdisj _ Hx1). apply elem_of_cons. by right.
Qed.

(** Taking a node out of the chain, as the first two statements of
    [moveToFront] and [removeNode] do. *)
Lemma unlink_spec h (l1 l2 : list cell) a k :
  NoDup (l1 ++ (a, k) :: l2).*1 →
  dseg h None (l1 ++ (a, k) :: l2) None →
  let h1 := setNextOpt (prevOf h a) (nextOf h a) h in
  let h2 := setPrevOpt (nextOf h1 a) (prevOf h1 a) h1 in
  h !! a = Some {| n_key := k; prev := last_addr l1 None;
                   next := first_addr l2 None |}
  ∧ h2 !! a = h !! a
  ∧ dseg h2 None l1 (first_addr l2 None)
  ∧ dseg h2 (last_addr l1 None) l2 None.
Proof.
  intros Hnd Hseg.
  destruct (nodup_around _ _ _ Hnd) as (Hnd1 & Hnd2 & Ha1 & Ha2 & Hdisj).
  simpl in Ha1, Ha2.
  apply dseg_app in Hseg as [D1 [Ha D2]]. simpl in Ha, D1, D2.
  assert (Hp : prevOf h a = last_addr l1 None) by (unfold prevOf; by rewrite Ha).
  assert (Hn : nextOf h a = first_addr l2 None) by (unfold nextOf; by rewrite Ha).
  intros h1 h2. unfold h2, h1. clear h1 h2. rewrite Hp, Hn.
  set (h1 := setNextOpt (last_addr l1 None) (first_addr l2 None) h).
  assert (Ha' : h1 !! a = h !! a).
  { apply lookup_setNextOpt_ne. intros Hl. by apply last_addr_elem in Hl. }
  assert (Hp1 : prevOf h1 a = last_addr l1 None)
    by (unfold prevOf; by rewrite Ha', Ha).
  assert (Hn1 : nextOf h1 a = first_addr l2 None)
    by (unfold nextOf; by rewrite Ha', Ha).
  rewrite Hp1, Hn1.
  assert (D1' : dseg h1 None l1 (first_addr l2 None))
    by (by apply (dseg_set_last_next h None l1 (Some a))).
  assert (D2' : dseg h1 (Some a) l2 None).
  { apply dseg_setNextOpt_frame; [|done].
    intros x Hx Hin. apply last_addr_elem in Hx. by apply (Hdisj x). }
  split_and!.
  - exact Ha.
  - rewrite <- Ha'. apply lookup_setPrevOpt_ne.
    intros Hf. by apply first_addr_elem in Hf.
  - apply dseg_setPrevOpt_frame; [|done].
    intros x Hx Hin. apply first_addr_elem in Hx. by apply (Hdisj x).
  - by apply (dseg_set_first_prev h1 (Some a)).
Qed.

Section LRU.
Context {R : Type}.
Implicit Types (s : CacheState R) (cells : list cell).

Lemma lru_ok_empty cfg : lru_ok (empty_state R cfg) [].
Proof.
  split; simpl; [done | constructor | constructor | done | done | |].
  - intros k a. rewrite lookup_empty. split; [done|].
    intros H. by apply elem_of_nil in H.
  - intros a H. by apply elem_of_nil in H.
Qed.

(** The list-related fields do not depend on the others. *)
Lemma lru_ok_ext s s' cells :
  heap s' = heap s → nextAddr s' = nextAddr s →
  lruNodes s' = lruNodes s → lruHead s' = lruHead s →
  lruTail s' = lruTail s →
  lru_ok s cells → lru_ok s' cells.
Proof.
  intros Hh Hn Hm Hhd Htl [? ? ? ? ? ? ?].
  split; rewrite ?Hh, ?Hn, ?Hm, ?Hhd, ?Htl; done.
Qed.

Lemma lru_ok_key_addr s cells k a :
  lru_ok s cells → (a, k) ∈ cells → keyOf (heap s) a = Some k.
Proof.
  intros Hok Hin. apply list_elem_of_split in Hin as (l1 & l2 & ->).
  pose proof (ok_dseg _ _ Hok) as Hseg.
  apply dseg_app in Hseg as [_ [Ha _]]. simpl in Ha.
  unfold keyOf. by rewrite Ha.
Qed.

Lemma moveToFront_ok s (l1 l2 : list cell) a k :
  lru_ok s (l1 ++ (a, k) :: l2) →
  lru_ok (moveToFront a s) ((a, k) :: l1 ++ l2).
Proof.
  intros Hok. pose proof Hok as [Hseg Hnd Hkeys Hhd Htl Hnodes Hfresh].
  destruct (nodup_around _ _ _ Hnd) as (Hnd1 & Hnd2 & Ha1 & Ha2 & Hdisj).
  simpl in Ha1, Ha2.
  unfold moveToFront.
  destruct l1 as [|c1 l1'].
  { (* already at the front *)
    simpl in *. rewrite bool_decide_eq_true_2 by done. exact Hok. }
  assert (Hc1 : fst c1 ∈ (c1 :: l1').*1) by (apply elem_of_cons; by left).
  assert (Hhd' : lruHead s = Some (fst c1)) by (by rewrite Hhd).
  assert (Hfirst : ∀ d, first_addr (c1 :: l1') d = Some (fst c1)) by done.
  assert (Hne1 : c1 :: l1' ≠ []) by done.
  set (l1 := c1 :: l1') in *. clearbody l1. clear Hhd.
  rewrite bool_decide_eq_false_2.
  2:{ rewrite Hhd'. intros [= Heq]. apply Ha1. by rewrite <- Heq. }
  destruct (unlink_spec (heap s) l1 l2 a k Hnd Hseg) as (Ha & Ha' & D1 & D2).
  set (h1 := setNextOpt (prevOf (heap s) a) (nextOf (heap s) a) (heap s)) in *.
  set (h2 := setPrevOpt (nextOf h1 a) (prevOf h1 a) h1) in *.
  assert (Hp2 : prevOf h2 a = last_addr l1 None)
    by (unfold prevOf; by rewrite Ha', Ha).
  (* the new tail *)
  assert (Htl' :
    (if bool_decide (lruTail s = Some a) then prevOf h2 a else lruTail s)
    = last_addr (l1 ++ l2) None).
  { rewrite last_addr_app, Hp2. rewrite Htl, last_addr_app.
    rewrite last_addr_cons. simpl.
    destruct l2 as [|c2 l2' _] using rev_ind.
    - unfold last_addr at 1 2. simpl.
      by rewrite bool_decide_eq_true_2.
    - rewrite !last_addr_snoc. rewrite bool_decide_eq_false_2; [done|].
      intros [= Heq]. apply Ha2. rewrite <- Heq, fmap_app.
      apply elem_of_app. right. apply elem_of_cons. by left. }
  rewrite Htl'.
  assert (Hsome : ∃ t, last_addr (l1 ++ l2) None = Some t).
  { destruct (l1 ++ l2) as [|c l _] eqn:Hl using rev_ind.
    - by destruct l1.
    - rewrite last_addr_snoc. by eexists. }
  destruct Hsome as [t Ht]. rewrite Ht.
  set (h3 := setPrev a None h2).
  set (h4 := setNext a (lruHead s) h3).
  set (h5 := setPrevOpt (lruHead s) (Some a) h4).
  assert (Ha4 : h4 !! a = Some {| n_key := k; prev := None;
                                  next := Some (fst c1) |}).
  { unfold h4, h3. rewrite Hhd'. eapply lookup_setNext_eq.
    eapply lookup_setPrev_eq. by rewrite Ha'. }
  assert (Ha5 : h5 !! a = h4 !! a).
  { unfold h5. apply lookup_setPrevOpt_ne. rewrite Hhd'.
    intros [= Heq]. apply Ha1. by rewrite <- Heq. }
  assert (D1' : dseg h5 (Some a) l1 (first_addr l2 None)).
  { unfold h5.
    replace (lruHead s) with (first_addr l1 None) by (by rewrite Hhd', Hfirst).
    apply (dseg_set_first_prev h4 None); [done|].
    unfold h4, h3. by apply dseg_setNext_frame, dseg_setPrev_frame. }
  assert (D2' : dseg h5 (last_addr l1 None) l2 None).
  { unfold h5. apply dseg_setPrevOpt_frame.
    - rewrite Hhd'. intros x [= <-]. by apply Hdisj.
    - unfold h4, h3. by apply dseg_setNext_frame, dseg_setPrev_frame. }
  assert (Hperm : (a, k) :: l1 ++ l2 ≡ₚ l1 ++ (a, k) :: l2)
    by apply Permutation_middle.
  split; cbn [heap nextAddr lruNodes lruHead lruTail with_lru].
  - simpl. split.
    + by rewrite Ha5, Ha4, first_addr_app, Hfirst.
    + apply dseg_app. split; [done|].
      by rewrite (last_addr_nonempty l1 (Some a)).
  - by rewrite Hperm.
  - by rewrite Hperm.
  - done.
  - rewrite last_addr_cons, <- Ht. symmetry.
    apply last_addr_nonempty. by destruct l1.
  - intros k' a'. rewrite Hnodes. by rewrite Hperm.
  - intros a' Hin. apply Hfresh. by rewrite Hperm in Hin.
Qed.

Lemma addToFront_ok s cells k :
  lru_ok s cells → k ∉ cells.*2 →
  lru_ok (addToFront k s) ((nextAddr s, k) :: cells).
Proof.
  intros [Hseg Hnd Hkeys Hhd Htl Hnodes Hfresh] Hk.
  assert (Hnew : nextAddr s ∉ cells.*1).
  { intros Hin. apply Hfresh in Hin. lia. }
  unfold addToFront.
  set (node := nextAddr s) in *.
  set (h1 := <[node := {| n_key := k; prev := None; next := lruHead s |}]>
               (heap s)).
  split; cbn [heap nextAddr lruNodes lruHead lruTail with_lru].
  - simpl. split.
    + rewrite lookup_setPrevOpt_ne.
      * unfold h1. by rewrite lookup_insert_eq, Hhd.
      * rewrite Hhd. intros Hf. by apply first_addr_elem in Hf.
    + rewrite Hhd. apply (dseg_set_first_prev h1 None); [done|].
      by apply dseg_insert_frame.
  - rewrite fmap_cons. by apply NoDup_cons.
  - rewrite fmap_cons. by apply NoDup_cons.
  - done.
  - rewrite last_addr_cons, Htl. simpl.
    destruct cells as [|c l _] using rev_ind; [done|].
    by rewrite !last_addr_snoc.
  - intros k' a'. rewrite elem_of_cons.
    destruct (decide (k' = k)) as [->|Hne].
    + rewrite lookup_insert_eq. split.
      * intros [= <-]. by left.
      * intros [[= -> ]|Hin]; [done|].
        exfalso. apply Hk. apply list_elem_of_fmap. by exists (a', k).
    + rewrite lookup_insert_ne by done. rewrite Hnodes.
      split; [by right|]. intros [[= _ ?]|Hin]; done.
  - intros a'. rewrite fmap_cons, elem_of_cons. simpl.
    intros [->|Hin]; [lia|]. apply Hfresh in Hin. lia.
Qed.

(** [removeTail] leaves everything but the list alone. *)
Lemma removeTail_frame s :
  cache (snd (removeTail s)) = cache s
  ∧ cacheConfig (snd (removeTail s)) = cacheConfig s
  ∧ stat_hits (snd (removeTail s)) = stat_hits s
  ∧ stat_misses (snd (removeTail s)) = stat_misses s
  ∧ savedTokens (snd (removeTail s)) = savedTokens s
  ∧ isDirty (snd (removeTail s)) = isDirty s.
Proof.
  unfold removeTail. destruct (lruTail s); [|done].
  destruct (keyOf _ _); [|done]. by destruct (prevOf _ _).
Qed.

Lemma removeTail_empty s : lru_ok s [] → removeTail s = (None, s).
Proof. intros Hok. unfold removeTail. by rewrite (ok_tail _ _ Hok). Qed.

Lemma removeTail_ok s (l : list cell) a k :
  lru_ok s (l ++ [(a, k)]) →
  fst (removeTail s) = Some k ∧ lru_ok (snd (removeTail s)) l.
Proof.
  intros Hok. pose proof Hok as [Hseg Hnd Hkeys Hhd Htl Hnodes Hfresh].
  destruct (nodup_around _ _ _ Hnd) as (Hnd1 & _ & Ha1 & _ & _).
  simpl in Ha1.
  assert (Hk1 : k ∉ l.*2).
  { rewrite fmap_app in Hkeys. apply NoDup_app in Hkeys as (_ & Hd & _).
    intros Hin. apply (Hd _ Hin). apply elem_of_cons. by left. }
  rewrite last_addr_snoc in Htl. simpl in Htl.
  apply dseg_app in Hseg as [D1 [Ha _]]. simpl in Ha, D1.
  unfold removeTail. rewrite Htl. unfold keyOf, prevOf. rewrite Ha. simpl.
  assert (Hn : ∀ k' a', delete k (lruNodes s) !! k' = Some a' ↔ (a', k') ∈ l).
  { intros k' a'. destruct (decide (k' = k)) as [->|Hne].
    - rewrite lookup_delete_eq. split; [done|]. intros Hin.
      exfalso. apply Hk1. apply list_elem_of_fmap. by exists (a', k).
    - rewrite lookup_delete_ne by done. rewrite Hnodes, elem_of_app.
      split; [|by left]. intros [?|Hin]; [done|].
      apply elem_of_cons in Hin as [[= _ ?]|Hin]; [done|].
      by apply elem_of_nil in Hin. }
  assert (Hf : ∀ a', a' ∈ l.*1 → (a' < nextAddr s)%nat).
  { intros a' Hin. apply Hfresh. rewrite fmap_app. apply elem_of_app. by left. }
  destruct (last_addr l None) as [p|] eqn:Hl; simpl.
  - split; [done|].
    assert (Hpa : p ≠ a).
    { intros ->. by apply last_addr_elem in Hl. }
    split; cbn [heap nextAddr lruNodes lruHead lruTail with_lru].
    + change (setNext p None (heap s))
        with (setNextOpt (Some p) None (heap s)).
      rewrite <- Hl.
      by apply (dseg_set_last_next (heap s) None l (Some a)).
    + done.
    + rewrite fmap_app in Hkeys. by apply NoDup_app in Hkeys as (? & _ & _).
    + rewrite Hhd. rewrite first_addr_app. simpl.
      apply first_addr_nonempty. by destruct l.
    + rewrite lookup_setNext_ne by done. rewrite Ha. simpl. congruence.
    + done.
    + done.
  - split; [done|].
    assert (l = []) as ->.
    { destruct l as [|c l' _] using rev_ind; [done|].
      by rewrite last_addr_snoc in Hl. }
    split; cbn [heap nextAddr lruNodes lruHead lruTail with_lru];
      try done; constructor.
Qed.

Lemma removeNode_absent s cells k :
  lru_ok s cells → k ∉ cells.*2 → removeNode k s = s.
Proof.
  intros Hok Hk. unfold removeNode.
  destruct (lruNodes s !! k) as [a|] eqn:Hl; [|done].
  apply (ok_nodes _ _ Hok) in Hl. exfalso. apply Hk.
  apply list_elem_of_fmap. by exists (a, k).
Qed.

Lemma removeNode_ok s (l1 l2 : list cell) a k :
  lru_ok s (l1 ++ (a, k) :: l2) →
  lru_ok (removeNode k s) (l1 ++ l2).
Proof.
  intros Hok. pose proof Hok as [Hseg Hnd Hkeys Hhd Htl Hnodes Hfresh].
  destruct (nodup_around _ _ _ Hnd) as (Hnd1 & Hnd2 & Ha1 & Ha2 & Hdisj).
  simpl in Ha1, Ha2.
  assert (Hl : lruNodes s !! k = Some a).
  { apply Hnodes. apply elem_of_app. right. apply elem_of_cons. by left. }
  unfold removeNode. rewrite Hl.
  destruct (unlink_spec (heap s) l1 l2 a k Hnd Hseg) as (Ha & Ha' & D1 & D2).
  set (h1 := setNextOpt (prevOf (heap s) a) (nextOf (heap s) a) (heap s)) in *.
  set (h2 := setPrevOpt (nextOf h1 a) (prevOf h1 a) h1) in *.
  assert (Hp2 : prevOf h2 a = last_addr l1 None)
    by (unfold prevOf; by rewrite Ha', Ha).
  assert (Hn2 : nextOf h2 a = first_addr l2 None)
    by (unfold nextOf; by rewrite Ha', Ha).
  rewrite Hp2, Hn2.
  split; cbn [heap nextAddr lruNodes lruHead lruTail with_lru].
  - apply dseg_app. by split.
  - rewrite fmap_app. apply NoDup_app. by split_and!.
  - rewrite fmap_app, fmap_cons in Hkeys. rewrite fmap_app.
    apply NoDup_app in Hkeys as (Hk1 & Hd & Hk2).
    apply NoDup_cons in Hk2 as [_ Hk2].
    apply NoDup_app. split_and!; [done| |done].
    intros x Hx1 Hx2. apply (Hd x Hx1). apply elem_of_cons. by right.
  - rewrite Hhd, !first_addr_app. simpl.
    destruct l1 as [|c1 l1']; simpl.
    + by rewrite bool_decide_eq_true_2.
    + rewrite bool_decide_eq_false_2; [done|].
      intros [= Heq]. apply Ha1. rewrite <- Heq. apply elem_of_cons. by left.
  - rewrite Htl, !last_addr_app, last_addr_cons. simpl.
    destruct l2 as [|c2 l2' _] using rev_ind.
    + unfold last_addr at 1 2 4. simpl. by rewrite bool_decide_eq_true_2.
    + rewrite !last_addr_snoc. rewrite bool_decide_eq_false_2; [done|].
      intros [= Heq]. apply Ha2. rewrite <- Heq, fmap_app.
      apply elem_of_app. right. apply elem_of_cons. by left.
  - intros k' a'. destruct (decide (k' = k)) as [->|Hne].
    + rewrite lookup_delete_eq. split; [done|]. intros Hin. exfalso.
      rewrite fmap_app, fmap_cons in Hkeys.
      apply NoDup_app in Hkeys as (_ & Hd & Hk2).
      apply NoDup_cons in Hk2 as [Hk2 _].
      apply elem_of_app in Hin as [Hin|Hin].
      * apply (Hd k); [apply list_elem_of_fmap; by exists (a', k)|].
        apply elem_of_cons. by left.
      * apply Hk2. apply list_elem_of_fmap. by exists (a', k).
    + rewrite lookup_delete_ne by done. rewrite Hnodes, !elem_of_app.
      rewrite elem_of_cons. split; [|tauto].
      intros [?|[[= _ ?]|?]]; tauto.
  - intros a' Hin. apply Hfresh. rewrite fmap_app in Hin.
    rewrite fmap_app, fmap_cons. apply elem_of_app in Hin as [?|?];
      apply elem_of_app; [by left|right]. apply elem_of_cons. by right.
Qed.
End LRU.

Lemma filter_key_absent (k : string) (l : list cell) :
  k ∉ l.*2 → filter (λ c, snd c = k) l = [] ∧ filter (λ c, snd c ≠ k) l = l.
Proof.
  induction l as [|c l IH]; [done|]. rewrite fmap_cons, not_elem_of_cons.
  intros [Hne Hl]. destruct (IH Hl) as [IH1 IH2].
  split.
  - rewrite filter_cons_False by (simpl; congruence). exact IH1.
  - rewrite filter_cons_True by (simpl; congruence). f_equal. exact IH2.
Qed.

Lemma bump_absent k fresh cells :
  k ∉ cells.*2 → bump k fresh cells = (fresh, k) :: cells.
Proof.
  intros Hk. unfold bump. destruct (filter_key_absent k cells Hk) as [E1 E2].
  by rewrite E1, E2.
Qed.

Lemma bump_present k fresh (l1 l2 : list cell) a :
  NoDup (l1 ++ (a, k) :: l2).*2 →
  bump k fresh (l1 ++ (a, k) :: l2) = (a, k) :: l1 ++ l2.
Proof.
  rewrite fmap_app, fmap_cons. intros Hnd.
  apply NoDup_app in Hnd as (_ & Hd & Hnd2).
  apply NoDup_cons in Hnd2 as [Hk2 _]. simpl in Hk2.
  assert (Hk1 : k ∉ l1.*2).
  { intros Hin. apply (Hd _ Hin). apply elem_of_cons. by left. }
  destruct (filter_key_absent k l1 Hk1) as [E1 E1'].
  destruct (filter_key_absent k l2 Hk2) as [E2 E2'].
  unfold bump. rewrite !filter_app.
  rewrite filter_cons_True by done.
  rewrite filter_cons_False by (simpl; tauto).
  by rewrite E1, E1', E2'.
Qed.

Section CacheInv.
Context {R : Type}.
Implicit Types (s : CacheState R) (cells : list cell).

Lemma cache_inv_empty cfg : cache_inv (empty_state R cfg) [].
Proof.
  split_and!; [apply lru_ok_empty | | by intros H%elem_of_nil].
  intros k. simpl. rewrite lookup_empty. split.
  - by intros [? ?].
  - by intros H%elem_of_nil.
Qed.

Lemma cache_inv_size s cells :
  cache_inv s cells → size (cache s) = length cells.
Proof.
  intros (Hok & Hkeys & _).
  rewrite <- size_dom.
  assert (Hdom : dom (cache s) = list_to_set (cells.*2)).
  { apply set_eq. intros k.
    by rewrite elem_of_dom, elem_of_list_to_set. }
  rewrite Hdom, size_list_to_set, length_fmap; [done|].
  apply (ok_keys _ _ Hok).
Qed.

Lemma with_cache_lru_ok s c d cells :
  lru_ok s cells → lru_ok (with_cache s c d) cells.
Proof. by apply lru_ok_ext. Qed.

Lemma with_stats_lru_ok s h m t d cells :
  lru_ok s cells → lru_ok (with_stats s h m t d) cells.
Proof. by apply lru_ok_ext. Qed.

(** The eviction loop on a well-formed cache: it terminates within
    the fuel [evictLRU] gives it, keeps the [maxSize] most recently
    used cells, and deletes exactly the entries of the others. *)
Lemma evict_loop_ok fuel :
  ∀ s cells,
    cache_inv s cells → (length cells < fuel)%nat →
    let n := Z.to_nat (maxSize (cacheConfig s)) in
    ∃ s', evict_loop fuel s = Some s'
          ∧ cache_inv s' (take n cells)
          ∧ cacheConfig s' = cacheConfig s
          ∧ nextAddr s' = nextAddr s
          ∧ (∀ k, cache s' !! k
                  = if decide (k ∈ (take n cells).*2) then cache s !! k
                    else None).
Proof.
  induction fuel as [|fuel IH]; intros s cells Hinv Hfuel n; [lia|].
  pose proof (cache_inv_size _ _ Hinv) as Hsize.
  destruct Hinv as (Hok & Hkeys & Hne).
  simpl. rewrite Hsize.
  destruct (Z.gtb_spec (Z.of_nat (length cells)) (maxSize (cacheConfig s)))
    as [Hgt|Hle]; simpl.
  - destruct cells as [|[a k] l _] using rev_ind.
    + rewrite (removeTail_empty s Hok). exists s.
      split_and!; try done.
      * unfold n. by rewrite take_nil.
      * intros k. rewrite take_nil. simpl.
        destruct (cache s !! k) eqn:Hc; [|done].
        assert (Hin : k ∈ ([] : list cell).*2) by (apply Hkeys; eauto).
        by apply elem_of_nil in Hin.
    + destruct (removeTail_ok s l a k Hok) as [Hk Hok1].
      destruct (removeTail_frame s) as (Hc1 & Hcfg1 & _).
      assert (Hna : nextAddr (snd (removeTail s)) = nextAddr s).
      { unfold removeTail. destruct (lruTail s); [|done].
        destruct (keyOf _ _); [|done]. by destruct (prevOf _ _). }
      destruct (removeTail s) as [r s1]. simpl in *. subst r.
      assert (Hkne : k ≠ "").
      { intros ->. apply Hne. rewrite fmap_app. apply elem_of_app. right.
        apply elem_of_cons. by left. }
      rewrite bool_decide_eq_false_2 by done.
      assert (Hk1 : k ∉ l.*2).
      { pose proof (ok_keys _ _ Hok) as Hnd. rewrite fmap_app in Hnd.
        apply NoDup_app in Hnd as (_ & Hd & _).
        intros Hin. apply (Hd _ Hin). apply elem_of_cons. by left. }
      set (s2 := with_cache s1 (delete k (cache s1)) true).
      assert (Hinv2 : cache_inv s2 l).
      { split_and!.
        - by apply with_cache_lru_ok.
        - intros k'. simpl. rewrite Hc1.
          destruct (decide (k' = k)) as [->|Hkk].
          + rewrite lookup_delete_eq. split; [by intros [? ?] | done].
          + rewrite lookup_delete_ne by done. rewrite Hkeys, fmap_app.
            rewrite elem_of_app. split; [|by left].
            intros [?|Hin]; [done|].
            apply elem_of_cons in Hin as [?|Hin]; [done|].
            by apply elem_of_nil in Hin.
        - intros Hin. apply Hne. rewrite fmap_app. apply elem_of_app.
          by left. }
      rewrite length_app in Hfuel, Hgt. simpl in Hfuel, Hgt.
      destruct (IH s2 l Hinv2 ltac:(lia)) as (s' & Hrun & Hinv' & Hcfg & Hna' & Hc).
      simpl in Hcfg, Hinv', Hc, Hna'. rewrite Hcfg1 in Hcfg, Hinv', Hc.
      fold n in Hinv', Hc.
      assert (Htake : take n (l ++ [(a, k)]) = take n l).
      { apply take_app_le. unfold n. lia. }
      exists s'. rewrite Htake. split_and!; try done; [congruence|].
      intros k'. rewrite Hc, Hc1. destruct (decide _) as [Hin|]; [|done].
      rewrite lookup_delete_ne; [done|]. intros ->. apply Hk1.
      apply list_elem_of_fmap in Hin as (c & -> & Hc').
      apply list_elem_of_fmap. exists c. split; [done|].
      by apply (subseteq_take n l).
  - exists s.
    assert (Htake : take n cells = cells).
    { apply take_ge. unfold n. lia. }
    rewrite Htake. split_and!; try done.
    intros k. destruct (decide _) as [|Hnin]; [done|].
    destruct (cache s !! k) eqn:Hc; [|done].
    exfalso. apply Hnin, Hkeys. eauto.
Qed.

Lemma moveToFront_frame a s :
  cache (moveToFront a s) = cache s
  ∧ cacheConfig (moveToFront a s) = cacheConfig s
  ∧ nextAddr (moveToFront a s) = nextAddr s
  ∧ lruNodes (moveToFront a s) = lruNodes s
  ∧ stat_hits (moveToFront a s) = stat_hits s
  ∧ stat_misses (moveToFront a s) = stat_misses s
  ∧ savedTokens (moveToFront a s) = savedTokens s
  ∧ isDirty (moveToFront a s) = isDirty s.
Proof. unfold moveToFront. by destruct (bool_decide _). Qed.

Lemma removeNode_frame k s :
  cache (removeNode k s) = cache s
  ∧ cacheConfig (removeNode k s) = cacheConfig s
  ∧ nextAddr (removeNode k s) = nextAddr s
  ∧ stat_hits (removeNode k s) = stat_hits s
  ∧ stat_misses (removeNode k s) = stat_misses s
  ∧ savedTokens (removeNode k s) = savedTokens s
  ∧ isDirty (removeNode k s) = isDirty s
  ∧ lruNodes (removeNode k s) !! k = None.
Proof.
  unfold removeNode. destruct (lruNodes s !! k) eqn:Hl; [|done].
  simpl. by rewrite lookup_delete_eq.
Qed.

Lemma key_cell s cells k :
  cache_inv s cells → is_Some (cache s !! k) →
  ∃ a l1 l2, cells = l1 ++ (a, k) :: l2 ∧ lruNodes s !! k = Some a.
Proof.
  intros (Hok & Hkeys & _) Hk. apply Hkeys in Hk.
  apply list_elem_of_fmap in Hk as ([a k'] & -> & Hin).
  pose proof Hin as Hin'. apply list_elem_of_split in Hin as (l1 & l2 & ->).
  exists a, l1, l2. split; [done|]. by apply (ok_nodes _ _ Hok).
Qed.

Lemma bump_keys k fresh cells k' :
  NoDup cells.*2 →
  k' ∈ (bump k fresh cells).*2 ↔ k' = k ∨ k' ∈ cells.*2.
Proof.
  intros Hnd. destruct (decide (k ∈ cells.*2)) as [Hin|Hnin].
  - apply list_elem_of_fmap in Hin as ([a k0] & -> & Hin).
    apply list_elem_of_split in Hin as (l1 & l2 & ->).
    rewrite bump_present by done. simpl.
    rewrite !fmap_app, fmap_cons, elem_of_cons, !elem_of_app, elem_of_cons.
    simpl. tauto.
  - rewrite bump_absent by done. by rewrite fmap_cons, elem_of_cons.
Qed.

(** Touching key [k] (a hit, or a store under an existing key) or
    adding it (a store under a new key) puts its node at the front. *)
Lemma touch_or_add_ok s cells k :
  cache_inv s cells →
  let s1 :=
    if bool_decide (is_Some (cache s !! k)) then
      match lruNodes s !! k with
      | Some node => moveToFront node s
      | None => s
      end
    else addToFront k s in
  lru_ok s1 (bump k (nextAddr s) cells)
  ∧ cache s1 = cache s ∧ cacheConfig s1 = cacheConfig s.
Proof.
  intros Hinv. pose proof Hinv as (Hok & Hkeys & Hne). simpl.
  destruct (bool_decide (is_Some (cache s !! k))) eqn:Hb.
  - apply bool_decide_eq_true_1 in Hb.
    destruct (key_cell s cells k Hinv Hb) as (a & l1 & l2 & -> & Hl).
    rewrite Hl. rewrite bump_present by apply (ok_keys _ _ Hok).
    destruct (moveToFront_frame a s) as (? & ? & _).
    split_and!; [|done..]. by apply moveToFront_ok.
  - apply bool_decide_eq_false_1 in Hb.
    assert (Hk : k ∉ cells.*2) by (by rewrite <- Hkeys).
    rewrite bump_absent by done. split_and!; [|done..].
    by apply addToFront_ok.
Qed.

Lemma setCachedResponse_ok s cells now (o : SetCachedResponseOptions) :
  cache_inv s cells → enabled (cacheConfig s) = true → o_key o ≠ "" →
  let cells1 := bump (o_key o) (nextAddr s) cells in
  let n := Z.to_nat (maxSize (cacheConfig s)) in
  ∃ s', setCachedResponse now o s = Some s'
        ∧ cache_inv s' (take n cells1)
        ∧ cacheConfig s' = cacheConfig s
        ∧ (∀ k, cache s' !! k
                = if decide (k ∈ (take n cells1).*2)
                  then <[o_key o := new_entry now o]> (cache s) !! k
                  else None).
Proof.
  intros Hinv Hen Hkey cells1 n.
  destruct (touch_or_add_ok s cells (o_key o) Hinv) as (Hok1 & Hc1 & Hcfg1).
  pose proof Hinv as (Hok & Hkeys & Hne).
  unfold setCachedResponse. rewrite Hen. simpl negb. cbv iota.
  set (s1 := if bool_decide (is_Some (cache s !! o_key o)) then _ else _) in *.
  set (s2 := with_cache s1 (<[o_key o := new_entry now o]> (cache s1)) true).
  assert (Hinv2 : cache_inv s2 cells1).
  { split_and!.
    - by apply with_cache_lru_ok.
    - intros k. unfold s2. cbn [cache with_cache]. rewrite Hc1.
      unfold cells1. rewrite bump_keys by apply (ok_keys _ _ Hok).
      rewrite <- Hkeys. destruct (decide (k = o_key o)) as [->|Hk].
      + rewrite lookup_insert_eq. split; [by left | by eauto].
      + rewrite lookup_insert_ne by done. split; [by right|].
        by intros [?|?].
    - unfold cells1. rewrite bump_keys by apply (ok_keys _ _ Hok).
      intros [?|?]; [by apply Hkey | by apply Hne]. }
  unfold evictLRU.
  destruct (evict_loop_ok (S (size (cache s2))) s2 cells1 Hinv2)
    as (s' & Hrun & Hinv' & Hcfg' & _ & Hc').
  { rewrite (cache_inv_size _ _ Hinv2). lia. }
  simpl in Hcfg', Hinv', Hc'. rewrite Hcfg1 in Hcfg', Hinv', Hc'.
  rewrite Hc1 in Hc'. fold n in Hinv', Hc'.
  exists s'. by split_and!.
Qed.

Lemma getCachedResponse_hit s now k e :
  enabled (cacheConfig s) = true → cache s !! k = Some e →
  now - createdAt e <= ttlSeconds (cacheConfig s) * 1000 →
  ∃ s', getCachedResponse now k s = (Some (touch e now), s')
        ∧ cache s' = <[k := touch e now]> (cache s)
        ∧ cacheConfig s' = cacheConfig s
        ∧ stat_hits s' = stat_hits s + 1
        ∧ stat_misses s' = stat_misses s
        ∧ savedTokens s' = savedTokens s + (inputTokens e + outputTokens e)
        ∧ ∀ cells, cache_inv s cells →
                   cache_inv s' (bump k (nextAddr s) cells).
Proof.
  intros Hen Hk Hfresh. unfold getCachedResponse. rewrite Hen, Hk. simpl.
  destruct (Z.gtb_spec (now - createdAt e) (ttlSeconds (cacheConfig s) * 1000));
    [lia|].
  fold (touch e now).
  set (s1 := with_stats _ _ _ _ _).
  assert (Hperm : ∀ a (l1 l2 : list cell),
             (a, k) :: l1 ++ l2 ≡ₚ l1 ++ (a, k) :: l2)
    by (intros; apply Permutation_middle).
  destruct (lruNodes s !! k) as [a|] eqn:Hl.
  - destruct (moveToFront_frame a s1) as (Hc & Hcfg & _ & _ & Hh & Hm & Ht & _).
    eexists. split; [reflexivity|].
    split_and!; [by rewrite Hc | by rewrite Hcfg | by rewrite Hh
                 | by rewrite Hm | by rewrite Ht |].
    intros cells Hinv. pose proof Hinv as (Hok & Hkeys & Hne).
    destruct (key_cell s cells k Hinv ltac:(eauto))
      as (a' & l1 & l2 & -> & Hl').
    assert (a' = a) as -> by congruence.
    rewrite bump_present by apply (ok_keys _ _ Hok).
    split_and!.
    + apply moveToFront_ok. unfold s1.
      by apply with_stats_lru_ok, with_cache_lru_ok.
    + intros k'. rewrite Hc. unfold s1. cbn [cache with_stats with_cache].
      rewrite Hperm, <- Hkeys.
      destruct (decide (k' = k)) as [->|Hkk].
      * rewrite lookup_insert_eq, Hk. split; eauto.
      * by rewrite lookup_insert_ne.
    + by rewrite Hperm.
  - eexists. split; [reflexivity|]. split_and!; [done..|].
    intros cells Hinv.
    destruct (key_cell s cells k Hinv ltac:(eauto)) as (? & ? & ? & _ & Hl').
    congruence.
Qed.

Lemma getCachedResponse_expired s now k e :
  enabled (cacheConfig s) = true → cache s !! k = Some e →
  now - createdAt e > ttlSeconds (cacheConfig s) * 1000 →
  ∃ s', getCachedResponse now k s = (None, s')
        ∧ cache s' = delete k (cache s)
        ∧ lruNodes s' !! k = None
        ∧ cacheConfig s' = cacheConfig s
        ∧ stat_hits s' = stat_hits s
        ∧ stat_misses s' = stat_misses s + 1
        ∧ ∀ cells, cache_inv s cells →
                   cache_inv s' (filter (λ c, snd c ≠ k) cells).
Proof.
  intros Hen Hk Hold. unfold getCachedResponse. rewrite Hen, Hk. simpl.
  destruct (Z.gtb_spec (now - createdAt e) (ttlSeconds (cacheConfig s) * 1000));
    [|lia].
  set (s1 := with_cache s (delete k (cache s)) (isDirty s)).
  destruct (removeNode_frame k s1) as (Hc & Hcfg & _ & Hh & Hm & _ & _ & Hl).
  eexists. split; [reflexivity|]. simpl. rewrite Hc, Hcfg, Hh, Hm.
  split_and!; [done..|].
  intros cells Hinv. pose proof Hinv as (Hok & Hkeys & Hne).
  destruct (key_cell s cells k Hinv ltac:(eauto)) as (a & l1 & l2 & -> & _).
  pose proof (ok_keys _ _ Hok) as Hnd.
  rewrite fmap_app, fmap_cons in Hnd.
  apply NoDup_app in Hnd as (_ & Hd & Hnd2).
  apply NoDup_cons in Hnd2 as [Hk2 _]. simpl in Hk2.
  assert (Hk1 : k ∉ l1.*2).
  { intros Hin. apply (Hd _ Hin). apply elem_of_cons. by left. }
  destruct (filter_key_absent k l1 Hk1) as [_ E1].
  destruct (filter_key_absent k l2 Hk2) as [_ E2].
  rewrite filter_app, filter_cons_False by (simpl; tauto).
  rewrite E1, E2.
  split_and!.
  - apply with_stats_lru_ok. apply (removeNode_ok s1 l1 l2 a k).
    by apply with_cache_lru_ok.
  - intros k'. simpl. rewrite Hc. simpl.
    rewrite fmap_app, elem_of_app.
    destruct (decide (k' = k)) as [->|Hkk].
    + rewrite lookup_delete_eq. split; [by intros [? ?] | tauto].
    + rewrite lookup_delete_ne by done. rewrite Hkeys.
      rewrite fmap_app, fmap_cons, elem_of_app, elem_of_cons. simpl. tauto.
  - intros Hin. apply Hne. rewrite fmap_app in Hin.
    rewrite fmap_app, fmap_cons, elem_of_app, elem_of_cons.
    apply elem_of_app in Hin. tauto.
Qed.

Lemma getCachedResponse_absent s now k :
  enabled (cacheConfig s) = true → cache s !! k = None →
  ∃ s', getCachedResponse now k s = (None, s')
        ∧ cache s' = cache s
        ∧ stat_misses s' = stat_misses s + 1
        ∧ ∀ cells, cache_inv s cells → cache_inv s' cells.
Proof.
  intros Hen Hk. unfold getCachedResponse. rewrite Hen, Hk. simpl.
  eexists. split; [reflexivity|]. split_and!; [done..|].
  intros cells (Hok & Hkeys & Hne). split_and!; [|done..].
  by apply with_stats_lru_ok.
Qed.
End CacheInv.

Lemma generateCacheKey_nonempty (model digest16 : string) :
  generateCacheKey model digest16 ≠ "".
Proof.
  unfold generateCacheKey. destruct model; simpl; discriminate.
Qed.

(** ** The invariant is one of the module *)

Section Reachable.
Context {R : Type}.
Implicit Types (s : CacheState R) (cells : list cell).

Lemma cache_inv_reset s d : cache_inv (resetLRU (with_cache s ∅ d)) [].
Proof.
  split_and!; [split; simpl | | by intros H%elem_of_nil].
  - done.
  - constructor.
  - constructor.
  - done.
  - done.
  - intros k a. rewrite lookup_empty. split; [done | by intros H%elem_of_nil].
  - by intros a H%elem_of_nil.
  - intros k. simpl. rewrite lookup_empty. split.
    + by intros [? ?].
    + by intros H%elem_of_nil.
Qed.

Lemma deleteCacheEntry_ok s cells k :
  cache_inv s cells →
  cache_inv (snd (deleteCacheEntry k s)) (filter (λ c, snd c ≠ k) cells).
Proof.
  intros Hinv. pose proof Hinv as (Hok & Hkeys & Hne).
  unfold deleteCacheEntry. destruct (cache s !! k) as [e|] eqn:Hk; simpl.
  - destruct (key_cell s cells k Hinv ltac:(eauto)) as (a & l1 & l2 & -> & _).
    pose proof (ok_keys _ _ Hok) as Hnd.
    rewrite fmap_app, fmap_cons in Hnd.
    apply NoDup_app in Hnd as (_ & Hd & Hnd2).
    apply NoDup_cons in Hnd2 as [Hk2 _]. simpl in Hk2.
    assert (Hk1 : k ∉ l1.*2).
    { intros Hin. apply (Hd _ Hin). apply elem_of_cons. by left. }
    destruct (filter_key_absent k l1 Hk1) as [_ E1].
    destruct (filter_key_absent k l2 Hk2) as [_ E2].
    rewrite filter_app, filter_cons_False by (simpl; tauto).
    rewrite E1, E2.
    set (s1 := with_cache s (delete k (cache s)) (isDirty s)).
    destruct (removeNode_frame k s1) as (Hc & _).
    split_and!.
    + apply with_cache_lru_ok. apply (removeNode_ok s1 l1 l2 a k).
      by apply with_cache_lru_ok.
    + intros k'. simpl. rewrite Hc. simpl.
      rewrite fmap_app, elem_of_app.
      destruct (decide (k' = k)) as [->|Hkk].
      * rewrite lookup_delete_eq. split; [by intros [? ?] | tauto].
      * rewrite lookup_delete_ne by done. rewrite Hkeys.
        rewrite fmap_app, fmap_cons, elem_of_app, elem_of_cons. simpl. tauto.
    + intros Hin. apply Hne. rewrite fmap_app in Hin.
      rewrite fmap_app, fmap_cons, elem_of_app, elem_of_cons.
      apply elem_of_app in Hin. tauto.
  - assert (Hk' : k ∉ cells.*2).
    { rewrite <- Hkeys, Hk. by intros [? ?]. }
    destruct (filter_key_absent k cells Hk') as [_ E]. by rewrite E.
Qed.

Lemma with_config_inv s cfg cells :
  cache_inv s cells → cache_inv (with_config s cfg) cells.
Proof.
  intros (Hok & Hkeys & Hne). split_and!; [|done..].
  by apply (lru_ok_ext s).
Qed.

Lemma updateCacheConfig_ok s cells config :
  cache_inv s cells →
  ∃ s' cells', updateCacheConfig config s = Some s' ∧ cache_inv s' cells'.
Proof.
  intros Hinv. unfold updateCacheConfig.
  set (s1 := with_config s (merge_config (cacheConfig s) config)).
  assert (Hinv1 : cache_inv s1 cells) by (by apply with_config_inv).
  assert (∃ cells2, cache_inv
            (if negb (enabled (cacheConfig s1))
             then resetLRU (with_cache s1 ∅ (isDirty s1)) else s1) cells2)
    as [cells2 Hinv2].
  { destruct (negb _); [exists []; apply cache_inv_reset | by exists cells]. }
  set (s2 := if negb _ then _ else _) in *.
  destruct (evict_loop_ok (S (size (cache s2))) s2 cells2 Hinv2)
    as (s' & Hrun & Hinv' & _).
  { rewrite (cache_inv_size _ _ Hinv2). lia. }
  by exists s', (take (Z.to_nat (maxSize (cacheConfig s2))) cells2).
Qed.

(** Every call returns and keeps the cache well formed. *)
Lemma run_op_inv (op : CacheOp) s cells :
  cache_inv s cells → op_ok op →
  ∃ s' cells', run_op op s = Some s' ∧ cache_inv s' cells'.
Proof.
  intros Hinv Hop. destruct op as [now k|now o|k| |config]; simpl.
  - destruct (enabled (cacheConfig s)) eqn:Hen.
    + destruct (cache s !! k) as [e|] eqn:Hk.
      * destruct (Z_le_gt_dec (now - createdAt e)
                    (ttlSeconds (cacheConfig s) * 1000)) as [Hle|Hgt].
        -- destruct (getCachedResponse_hit s now k e Hen Hk Hle)
             as (s' & -> & _ & _ & _ & _ & _ & Hinv').
           eexists _, _. split; [done | by apply Hinv'].
        -- destruct (getCachedResponse_expired s now k e Hen Hk Hgt)
             as (s' & -> & _ & _ & _ & _ & _ & Hinv').
           eexists _, _. split; [done | by apply Hinv'].
      * destruct (getCachedResponse_absent s now k Hen Hk)
          as (s' & -> & _ & _ & Hinv').
        eexists _, _. split; [done | by apply Hinv'].
    + unfold getCachedResponse. rewrite Hen. simpl. by exists s, cells.
  - destruct (enabled (cacheConfig s)) eqn:Hen.
    + destruct (setCachedResponse_ok s cells now o Hinv Hen Hop)
        as (s' & Hset & Hinv' & _).
      by eexists _, _.
    + unfold setCachedResponse. rewrite Hen. simpl. by exists s, cells.
  - eexists _, _. split; [done | by apply deleteCacheEntry_ok].
  - eexists _, _. split; [done | apply cache_inv_reset].
  - by apply (updateCacheConfig_ok s cells).
Qed.

(** So every state the module reaches from its initial state, through
    any sequence of calls that store under non-empty keys, is well
    formed, and every such sequence runs to its end. *)
Lemma run_ops_inv (ops : list CacheOp) s cells :
  cache_inv s cells → Forall op_ok ops →
  ∃ s' cells', run_ops ops s = Some s' ∧ cache_inv s' cells'.
Proof.
  revert s cells. induction ops as [|op rest IH]; intros s cells Hinv Hops.
  - by exists s, cells.
  - apply Forall_cons in Hops as [Hop Hrest]. simpl.
    destruct (run_op_inv op s cells Hinv Hop) as (s1 & cells1 & -> & Hinv1).
    by apply (IH s1 cells1).
Qed.

Lemma reachable_inv (ops : list CacheOp) :
  Forall op_ok ops →
  ∃ s cells, run_ops ops (initial_state R) = Some s ∧ cache_inv s cells.
Proof. apply (run_ops_inv ops _ []), cache_inv_empty. Qed.
End Reachable.

(** ** Disabled cache *)

(** C10: with the cache disabled, [getCachedResponse] returns a miss and
    [setCachedResponse] returns, and both leave the whole module state
    (entry map, recency list, counters, dirty flag) exactly as it was. *)
Theorem disabled_cache_is_inert {R : Type} (s : CacheState R) :
  enabled (cacheConfig s) = false →
  (∀ now k, getCachedResponse now k s = (None, s))
  ∧ (∀ now o, setCachedResponse now o s = Some s).
Proof.
  intros Hoff. split; intros now x.
  - unfold getCachedResponse. by rewrite Hoff.
  - unfold setCachedResponse. by rewrite Hoff.
Qed.

Lemma disabled_cache_is_inert_witness :
  getCachedResponse 5 "gpt-4_00" (initial_state string)
  = (None, initial_state string)
  ∧ setCachedResponse 5 (sample "gpt-4_00" "R") (initial_state string)
    = Some (initial_state string).
Proof.
  destruct (disabled_cache_is_inert (initial_state string) eq_refl)
    as [Hget Hset].
  split; [apply Hget | apply Hset].
Defined.

(** ** The entry under a key, as long as nothing is stored there again *)

Section Kept.
Context {R : Type}.
Implicit Types (s : CacheState R).

(** The entry under [k], if any, was created at [t0] with response [r]. *)
Local Abbreviation stored_at s k t0 r :=
  (∀ e, cache s !! k = Some e → createdAt e = t0 ∧ response e = r).

Lemma evict_loop_sub fuel :
  ∀ s s', evict_loop fuel s = Some s' →
    ∀ k e, cache s' !! k = Some e → cache s !! k = Some e.
Proof.
  induction fuel as [| fuel IH]; intros s s'; simpl.
  - destruct (negb _); [by intros [= <-] | done].
  - destruct (negb _); [by intros [= <-] |].
    destruct (removeTail_frame s) as (Hc & _).
    destruct (removeTail s) as [[k0 |] s1]; simpl in Hc.
    + case_bool_decide.
      * intros [= <-] k e. by rewrite Hc.
      * intros Hrun k e He. apply (IH _ _ Hrun) in He. simpl in He.
        apply lookup_delete_Some in He as [_ He]. by rewrite <- Hc.
    + intros [= <-] k e. by rewrite Hc.
Qed.

Lemma run_op_kept (op : CacheOp) s s' k t0 (r : R) :
  run_op op s = Some s' → not_a_store_under k op →
  stored_at s k t0 r → stored_at s' k t0 r.
Proof.
  intros Hrun Hop Hs.
  destruct op as [now k0 | now o | k0 | | config]; simpl in Hrun, Hop.
  - injection Hrun as <-.
    destruct (enabled (cacheConfig s)) eqn:Hen.
    2:{ unfold getCachedResponse. by rewrite Hen. }
    destruct (cache s !! k0) as [e0 |] eqn:Hk0.
    + destruct (Z_le_gt_dec (now - createdAt e0)
                  (ttlSeconds (cacheConfig s) * 1000)) as [Hle | Hgt].
      * destruct (getCachedResponse_hit s now k0 e0 Hen Hk0 Hle)
          as (s1 & -> & Hc & _).
        simpl. rewrite Hc. intros e.
        destruct (decide (k = k0)) as [-> | Hne].
        -- rewrite lookup_insert_eq. intros [= <-]. simpl. by apply Hs.
        -- rewrite lookup_insert_ne by done. apply Hs.
      * destruct (getCachedResponse_expired s now k0 e0 Hen Hk0 Hgt)
          as (s1 & -> & Hc & _).
        simpl. rewrite Hc. intros e [_ He]%lookup_delete_Some. by apply Hs.
    + destruct (getCachedResponse_absent s now k0 Hen Hk0)
        as (s1 & -> & Hc & _).
      simpl. by rewrite Hc.
  - unfold setCachedResponse in Hrun.
    destruct (negb _); [by injection Hrun as <- |].
    intros e He. apply (evict_loop_sub _ _ _ Hrun) in He. simpl in He.
    rewrite lookup_insert_ne in He by done. revert He.
    destruct (bool_decide _); [| apply Hs].
    destruct (lruNodes s !! o_key o) as [a |]; [| apply Hs].
    destruct (moveToFront_frame a s) as (-> & _). apply Hs.
  - injection Hrun as <-. unfold deleteCacheEntry.
    destruct (cache s !! k0); [| done]. simpl.
    destruct (removeNode_frame k0
                (with_cache s (delete k0 (cache s)) (isDirty s))) as (-> & _).
    simpl. intros e [_ He]%lookup_delete_Some. by apply Hs.
  - injection Hrun as <-. intros e. simpl. by rewrite lookup_empty.
  - unfold updateCacheConfig in Hrun.
    intros e He. apply (evict_loop_sub _ _ _ Hrun) in He. revert He.
    destruct (negb _); simpl; [by rewrite lookup_empty | apply Hs].
Qed.

Lemma run_ops_kept (ops : list CacheOp) :
  ∀ s s' k t0 (r : R),
    run_ops ops s = Some s' → Forall (not_a_store_under k) ops →
    stored_at s k t0 r → stored_at s' k t0 r.
Proof.
  induction ops as [| op rest IH]; intros s s' k t0 r.
  { by intros [= <-]. }
  simpl. destruct (run_op op s) as [s1 |] eqn:Hop; [| done].
  intros Hrun [Hk Hrest]%Forall_cons Hs.
  apply (IH s1 s' k t0 r Hrun Hrest).
  by apply (run_op_kept op s s1).
Qed.

End Kept.

(** ** Store, then look up *)

(** C1: on an enabled, well-formed cache, storing [R] under a key made by
    [generateCacheKey] at time [t0] returns; the entry then found under
    the key, unless it was evicted, is the new one, created at [t0] with
    response [R], and it is there whenever [maxSize >= 1].  After any
    further calls that store nothing under the key again, an entry still
    found under it (not evicted, deleted or expired in between) is still
    one created at [t0] with response [R], and on an enabled cache a
    lookup at time [t1] with [t1 - t0] below the TTL returns that entry
    (with its access time and hit count updated) and keeps it; with
    [t1 - t0] above the TTL it returns a miss, counts it, and removes
    the key from the entry map and from the recency index.  The same
    holds of a lookup in any state of the same configuration that holds
    under the key an entry created at [t0] with response [R]. *)
Theorem put_then_get {R : Type} (s : CacheState R) (cells : list cell)
    (t0 : Z) (o : SetCachedResponseOptions) (m d : string) :
  cache_inv s cells → enabled (cacheConfig s) = true →
  o_key o = generateCacheKey m d →
  let ttlMs := ttlSeconds (cacheConfig s) * 1000 in
  ∃ s1, setCachedResponse t0 o s = Some s1
    ∧ cacheConfig s1 = cacheConfig s
    ∧ (∀ e, cache s1 !! o_key o = Some e →
         e = new_entry t0 o ∧ createdAt e = t0 ∧ response e = o_response o)
    ∧ (1 <= maxSize (cacheConfig s) →
       cache s1 !! o_key o = Some (new_entry t0 o))
    ∧ (∀ (ops : list CacheOp) (s2 : CacheState R) e t1,
        Forall (not_a_store_under (o_key o)) ops →
        run_ops ops s1 = Some s2 →
        enabled (cacheConfig s2) = true →
        cache s2 !! o_key o = Some e →
        createdAt e = t0 ∧ response e = o_response o
        ∧ (t1 - t0 < ttlSeconds (cacheConfig s2) * 1000 →
           ∃ s3, getCachedResponse t1 (o_key o) s2 = (Some (touch e t1), s3)
                 ∧ response (touch e t1) = o_response o
                 ∧ cache s3 !! o_key o = Some (touch e t1))
        ∧ (t1 - t0 > ttlSeconds (cacheConfig s2) * 1000 →
           ∃ s3, getCachedResponse t1 (o_key o) s2 = (None, s3)
                 ∧ cache s3 !! o_key o = None
                 ∧ lruNodes s3 !! o_key o = None
                 ∧ stat_misses s3 = stat_misses s2 + 1))
    ∧ ∀ (s2 : CacheState R) e t1,
        cacheConfig s2 = cacheConfig s →
        cache s2 !! o_key o = Some e →
        createdAt e = t0 → response e = o_response o →
        (t1 - t0 < ttlMs →
         ∃ s3, getCachedResponse t1 (o_key o) s2 = (Some (touch e t1), s3)
               ∧ response (touch e t1) = o_response o
               ∧ cache s3 !! o_key o = Some (touch e t1))
        ∧ (t1 - t0 > ttlMs →
           ∃ s3, getCachedResponse t1 (o_key o) s2 = (None, s3)
                 ∧ cache s3 !! o_key o = None
                 ∧ lruNodes s3 !! o_key o = None
                 ∧ stat_misses s3 = stat_misses s2 + 1).
Proof.
  intros Hinv Hen Hkey ttlMs.
  assert (Hne : o_key o ≠ "") by (rewrite Hkey; apply generateCacheKey_nonempty).
  destruct (setCachedResponse_ok s cells t0 o Hinv Hen Hne)
    as (s1 & Hset & Hinv1 & Hcfg1 & Hc1).
  assert (Hnew : ∀ e, cache s1 !! o_key o = Some e →
            e = new_entry t0 o ∧ createdAt e = t0 ∧ response e = o_response o).
  { intros e. rewrite Hc1. destruct (decide _); [|done].
    rewrite lookup_insert_eq. by intros [= <-]. }
  assert (Hlookup : ∀ (s2 : CacheState R) e t1,
            enabled (cacheConfig s2) = true →
            cache s2 !! o_key o = Some e →
            createdAt e = t0 → response e = o_response o →
            (t1 - t0 < ttlSeconds (cacheConfig s2) * 1000 →
             ∃ s3, getCachedResponse t1 (o_key o) s2 = (Some (touch e t1), s3)
                   ∧ response (touch e t1) = o_response o
                   ∧ cache s3 !! o_key o = Some (touch e t1))
            ∧ (t1 - t0 > ttlSeconds (cacheConfig s2) * 1000 →
               ∃ s3, getCachedResponse t1 (o_key o) s2 = (None, s3)
                     ∧ cache s3 !! o_key o = None
                     ∧ lruNodes s3 !! o_key o = None
                     ∧ stat_misses s3 = stat_misses s2 + 1)).
  { intros s2 e t1 Hen2 He Ht0 Hresp. split; intros Hage.
    - destruct (getCachedResponse_hit s2 t1 (o_key o) e Hen2 He)
        as (s3 & Hget & Hc3 & _).
      { rewrite Ht0. lia. }
      exists s3. split_and!; [done | done |].
      by rewrite Hc3, lookup_insert_eq.
    - destruct (getCachedResponse_expired s2 t1 (o_key o) e Hen2 He)
        as (s3 & Hget & Hc3 & Hl3 & _ & _ & Hm3 & _).
      { rewrite Ht0. lia. }
      exists s3. split_and!; [done | | done | done].
      by rewrite Hc3, lookup_delete_eq. }
  exists s1. split_and!; [done | done | done | | |].
  - intros Hmax. rewrite Hc1. rewrite decide_True.
    + by rewrite lookup_insert_eq.
    + unfold bump.
      destruct (Z.to_nat (maxSize (cacheConfig s))) as [|n] eqn:Hn; [lia|].
      simpl. apply elem_of_cons. by left.
  - intros ops s2 e t1 Hops Hrun Hen2 He.
    destruct (run_ops_kept ops s1 s2 (o_key o) t0 (o_response o) Hrun Hops)
      with (e := e) as [Ht0 Hresp]; [| done |].
    { intros e' He'. by destruct (Hnew e' He') as (_ & ? & ?). }
    split_and!; [done | done | |]; by apply (Hlookup s2 e t1).
  - intros s2 e t1 Hcfg2 He Ht0 Hresp.
    assert (Hen2 : enabled (cacheConfig s2) = true) by (by rewrite Hcfg2).
    unfold ttlMs. rewrite <- Hcfg2. by apply Hlookup.
Qed.

(** A store at t = 1000 ms into [hour_cache], then a lookup one second
    later and one just after the hour. *)
Lemma put_then_get_witness :
  ∃ s1, setCachedResponse 1000 (sample key_a "R") hour_cache = Some s1
    ∧ fst (getCachedResponse 2000 key_a s1)
      = Some (touch (new_entry 1000 (sample key_a "R")) 2000)
    ∧ fst (getCachedResponse 3601001 key_a s1) = None.
Proof.
  destruct (put_then_get hour_cache [] 1000 (sample key_a "R")
              "gpt-4" "00000000000000aa"
              (cache_inv_empty _) eq_refl eq_refl)
    as (s1 & Hset & Hcfg & _ & Hstored & Hlater & _).
  exists s1. split; [exact Hset|].
  specialize (Hstored ltac:(simpl; lia)).
  assert (Hen1 : enabled (cacheConfig s1) = true) by (by rewrite Hcfg).
  destruct (Hlater [] s1 _ 2000 ltac:(constructor) eq_refl Hen1 Hstored)
    as (_ & _ & Hhit & _).
  destruct (Hlater [] s1 _ 3601001 ltac:(constructor) eq_refl Hen1 Hstored)
    as (_ & _ & _ & Hmiss).
  destruct Hhit as (s3 & Hg3 & _); [rewrite Hcfg; simpl; lia|].
  destruct Hmiss as (s4 & Hg4 & _); [rewrite Hcfg; simpl; lia|].
  split; [exact (f_equal fst Hg3) | exact (f_equal fst Hg4)].
Defined.

(** ** Access times along the recency list *)

Section Stamps.
Context {R : Type}.
Implicit Types (m : gmap string (CacheEntry R)) (cells : list cell).

Lemma newest_first_ext m m' cells :
  (∀ c, c ∈ cells → stamp m' (snd c) = stamp m (snd c)) →
  newest_first m cells → newest_first m' cells.
Proof.
  induction cells as [|c rest IH]; [done|]. intros Hsame [Hc Hrest].
  split.
  - intros c' Hc'. rewrite !Hsame.
    + by apply Hc.
    + apply elem_of_cons. by left.
    + apply elem_of_cons. by right.
  - apply IH; [|done]. intros c' Hc'. apply Hsame. apply elem_of_cons. by right.
Qed.

Lemma newest_first_sublist m (l cells : list cell) :
  l `sublist_of` cells → newest_first m cells → newest_first m l.
Proof.
  induction 1 as [|c l1 l2 Hsub IH|c l1 l2 Hsub IH]; [done| |].
  - intros [Hc Hrest]. split; [|by apply IH].
    intros c' Hc'. apply Hc. by apply (sublist_subseteq _ _ Hsub).
  - intros [_ Hrest]. by apply IH.
Qed.

Lemma newest_first_last m (init : list cell) v c :
  newest_first m (init ++ [v]) → c ∈ init →
  stamp m (snd v) <= stamp m (snd c).
Proof.
  induction init as [|c0 init IH]; [by intros _ H%elem_of_nil|].
  intros [Hc0 Hrest] Hc. apply elem_of_cons in Hc as [->|Hc].
  - apply Hc0. apply elem_of_app. right. apply elem_of_cons. by left.
  - by apply IH.
Qed.

Lemma clock_ok_insert m k e now :
  clock_ok m now → lastAccessed e <= now → clock_ok (<[k := e]> m) now.
Proof.
  intros Hm He k' e'. destruct (decide (k' = k)) as [->|Hne].
  - rewrite lookup_insert_eq. by intros [= <-].
  - rewrite lookup_insert_ne by done. apply Hm.
Qed.

(** Writing an entry accessed at [lastAccessed e] under [k], when no
    entry was accessed later, and moving [k] to the front. *)
Lemma newest_first_bump m cells k fresh e :
  (∀ c, c ∈ cells → is_Some (m !! snd c)) →
  clock_ok m (lastAccessed e) →
  newest_first m cells →
  newest_first (<[k := e]> m) (bump k fresh cells).
Proof.
  intros Hcached Hclock Hsorted.
  assert (Hother : ∀ k', k' ≠ k → stamp (<[k := e]> m) k' = stamp m k').
  { intros k' Hne. unfold stamp. by rewrite lookup_insert_ne. }
  unfold bump. split.
  - intros c' Hc'. simpl. unfold stamp at 2. rewrite lookup_insert_eq. simpl.
    apply list_elem_of_filter in Hc' as [Hne Hin]. simpl in Hne.
    rewrite Hother by done.
    destruct (Hcached c' Hin) as [e0 He0]. unfold stamp. rewrite He0. simpl.
    by apply (Hclock (snd c')).
  - apply (newest_first_ext m).
    + intros c Hc. apply list_elem_of_filter in Hc as [Hne _]. by apply Hother.
    + eapply newest_first_sublist; [|done]. apply sublist_filter.
Qed.

(** Dropping cells from the back, the entry map agreeing on the rest. *)
Lemma newest_first_take m m' cells n :
  (∀ k, k ∈ (take n cells).*2 → m' !! k = m !! k) →
  newest_first m cells → newest_first m' (take n cells).
Proof.
  intros Hsame Hsorted. apply (newest_first_ext m).
  - intros c Hc. unfold stamp. rewrite Hsame; [done|].
    apply list_elem_of_fmap. by exists c.
  - eapply newest_first_sublist; [|done]. apply sublist_take.
Qed.

(** A store keeps the recency list in access-time order. *)
Lemma setCachedResponse_newest_first (s s' : CacheState R) cells now
    (o : SetCachedResponseOptions) :
  cache_inv s cells → enabled (cacheConfig s) = true → o_key o ≠ "" →
  newest_first (cache s) cells → clock_ok (cache s) now →
  setCachedResponse now o s = Some s' →
  newest_first (cache s')
    (take (Z.to_nat (maxSize (cacheConfig s)))
       (bump (o_key o) (nextAddr s) cells))
  ∧ clock_ok (cache s') now.
Proof.
  intros Hinv Hen Hkey Hsorted Hclock Hset.
  destruct (setCachedResponse_ok s cells now o Hinv Hen Hkey)
    as (s1 & Hset1 & _ & _ & Hc).
  assert (s1 = s') as -> by congruence.
  destruct Hinv as (_ & Hkeys & _).
  split.
  - apply (newest_first_take (<[o_key o := new_entry now o]> (cache s))).
    + intros k Hk. rewrite Hc. by rewrite decide_True.
    + apply newest_first_bump; [|done..].
      intros c Hc'. apply Hkeys. apply list_elem_of_fmap. by exists c.
  - intros k e. rewrite Hc. destruct (decide _); [|done].
    by apply clock_ok_insert.
Qed.

(** So does a hit. *)
Lemma getCachedResponse_newest_first (s s' : CacheState R) cells now k e :
  cache_inv s cells → enabled (cacheConfig s) = true →
  cache s !! k = Some e →
  now - createdAt e <= ttlSeconds (cacheConfig s) * 1000 →
  newest_first (cache s) cells → clock_ok (cache s) now →
  snd (getCachedResponse now k s) = s' →
  newest_first (cache s') (bump k (nextAddr s) cells)
  ∧ clock_ok (cache s') now.
Proof.
  intros Hinv Hen He Hage Hsorted Hclock Hget.
  destruct (getCachedResponse_hit s now k e Hen He Hage)
    as (s1 & Hget1 & Hc & _).
  rewrite Hget1 in Hget. simpl in Hget. subst s1.
  destruct Hinv as (_ & Hkeys & _). rewrite Hc. split.
  - apply newest_first_bump; [|done..].
    intros c Hc'. apply Hkeys. apply list_elem_of_fmap. by exists c.
  - by apply clock_ok_insert.
Qed.
End Stamps.

(** ** Eviction order *)

Lemma snoc_view {A : Type} (x : A) (l : list A) :
  ∃ init lst, x :: l = init ++ [lst] ∧ length init = length l.
Proof.
  destruct (x :: l) as [|y l' _] eqn:E using rev_ind; [done|].
  exists l', y. split; [done|].
  apply (f_equal length) in E. rewrite length_app in E. simpl in E. lia.
Qed.

(** C2 (as the code has it): on an enabled, well-formed cache holding
    exactly [maxSize] entries under non-empty keys, (1) storing under a
    fresh non-empty key returns, removes exactly one entry, the one at
    the tail of the recency list, and leaves the size unchanged, the new
    key being at the head of the list; when the list is in access-time
    order and the clock has not gone back, the removed entry is one with
    the oldest access time; (2) a hit on key [k] returns its entry and
    moves [k] to the head of the recency list, the others keeping their
    order; (3) if [maxSize >= 2], [k] is still cached after the next
    store under a fresh key, whatever that store evicts. *)
Theorem lru_eviction_order {R : Type} (s : CacheState R) (cells : list cell) :
  cache_inv s cells → enabled (cacheConfig s) = true →
  Z.of_nat (size (cache s)) = maxSize (cacheConfig s) →
  (∀ now (o : SetCachedResponseOptions),
     o_key o ≠ "" → cache s !! o_key o = None →
     ∃ s' victim,
       setCachedResponse now o s = Some s'
       ∧ last ((nextAddr s, o_key o) :: cells) = Some victim
       ∧ cache s' = delete (snd victim) (<[o_key o := new_entry now o]> (cache s))
       ∧ size (cache s') = size (cache s)
       ∧ cache_inv s' (removelast ((nextAddr s, o_key o) :: cells))
       ∧ (newest_first (cache s) cells → clock_ok (cache s) now →
          ∀ k e ev,
            <[o_key o := new_entry now o]> (cache s) !! k = Some e →
            <[o_key o := new_entry now o]> (cache s) !! snd victim = Some ev →
            lastAccessed ev <= lastAccessed e))
  ∧ (∀ now k e,
       cache s !! k = Some e →
       now - createdAt e <= ttlSeconds (cacheConfig s) * 1000 →
       ∃ s1 a,
         getCachedResponse now k s = (Some (touch e now), s1)
         ∧ cache_inv s1 ((a, k) :: filter (λ c, snd c ≠ k) cells)
         ∧ (2 <= maxSize (cacheConfig s) →
            ∀ now' (o : SetCachedResponseOptions),
              o_key o ≠ "" → cache s1 !! o_key o = None →
              ∃ s2, setCachedResponse now' o s1 = Some s2
                    ∧ is_Some (cache s2 !! k))).
Proof.
  intros Hinv Hen Hfull.
  pose proof (cache_inv_size _ _ Hinv) as Hsize.
  pose proof Hinv as (Hok & Hkeys & Hne).
  split.
  - intros now o Hkne Hfresh.
    assert (Hk : o_key o ∉ cells.*2).
    { rewrite <- Hkeys, Hfresh. by intros [? ?]. }
    destruct (setCachedResponse_ok s cells now o Hinv Hen Hkne)
      as (s' & Hset & Hinv' & Hcfg' & Hc').
    rewrite bump_absent in Hinv', Hc' by done.
    destruct (snoc_view (nextAddr s, o_key o) cells)
      as (init & victim & Hsnoc & Hlen).
    assert (Htake : take (Z.to_nat (maxSize (cacheConfig s)))
                      ((nextAddr s, o_key o) :: cells) = init).
    { rewrite Hsnoc. apply take_app_length'. lia. }
    rewrite Htake in Hinv', Hc'.
    assert (Hnd : NoDup (init ++ [victim]).*2).
    { rewrite <- Hsnoc, fmap_cons. apply NoDup_cons.
      split; [done | apply (ok_keys _ _ Hok)]. }
    rewrite fmap_app in Hnd. apply NoDup_app in Hnd as (_ & Hd & _).
    exists s', victim. split_and!.
    + done.
    + by rewrite Hsnoc, last_snoc.
    + apply map_eq. intros k. rewrite Hc'.
      destruct (decide (k = snd victim)) as [->|Hkv].
      * rewrite lookup_delete_eq. rewrite decide_False; [done|].
        intros Hin. apply (Hd _ Hin). apply elem_of_cons. by left.
      * rewrite lookup_delete_ne by done.
        destruct (decide _) as [|Hnin]; [done|].
        assert (Hk' : k ∉ ((nextAddr s, o_key o) :: cells).*2).
        { rewrite Hsnoc, fmap_app, elem_of_app. intros [?|Hin]; [done|].
          apply elem_of_cons in Hin as [?|Hin]; [done|].
          by apply elem_of_nil in Hin. }
        rewrite fmap_cons, not_elem_of_cons in Hk'. destruct Hk' as [Hk1 Hk2].
        simpl in Hk1. rewrite lookup_insert_ne by done.
        destruct (cache s !! k) eqn:Hck; [|done].
        exfalso. apply Hk2, Hkeys. eauto.
    + rewrite (cache_inv_size _ _ Hinv'). lia.
    + rewrite Hsnoc, removelast_last. exact Hinv'.
    + intros Hsorted Hclock k e ev He Hev.
      set (m := <[o_key o := new_entry now o]> (cache s)) in *.
      assert (Hm : newest_first m (init ++ [victim])).
      { rewrite <- Hsnoc, <- (bump_absent _ _ _ Hk).
        apply newest_first_bump; [|done..].
        intros c Hc. apply Hkeys. apply list_elem_of_fmap. by exists c. }
      assert (Hin : k ∈ (init ++ [victim]).*2).
      { rewrite <- Hsnoc, fmap_cons, elem_of_cons. simpl.
        destruct (decide (k = o_key o)) as [|Hko]; [by left|right].
        apply Hkeys. unfold m in He. rewrite lookup_insert_ne in He by done.
        eauto. }
      apply list_elem_of_fmap in Hin as (c & -> & Hc).
      apply elem_of_app in Hc as [Hc|Hc].
      * pose proof (newest_first_last m init victim c Hm Hc) as Hle.
        unfold stamp in Hle. by rewrite He, Hev in Hle.
      * apply elem_of_cons in Hc as [->|Hc]; [|by apply elem_of_nil in Hc].
        assert (e = ev) as -> by congruence. lia.
  - intros now k e He Hfresh.
    destruct (getCachedResponse_hit s now k e Hen He Hfresh)
      as (s1 & Hget & Hc1 & Hcfg1 & _ & _ & _ & Hinv1).
    specialize (Hinv1 cells Hinv). unfold bump in Hinv1.
    eexists s1, _. split_and!; [exact Hget | exact Hinv1 |].
    intros Hmax now' o Hkne Hfresh'.
    set (cells1 := (_, k) :: filter _ cells) in Hinv1.
    assert (Hk : o_key o ∉ cells1.*2).
    { destruct Hinv1 as (_ & Hkeys1 & _).
      rewrite <- Hkeys1, Hfresh'. by intros [? ?]. }
    assert (Hen1 : enabled (cacheConfig s1) = true) by (by rewrite Hcfg1).
    destruct (setCachedResponse_ok s1 cells1 now' o Hinv1 Hen1 Hkne)
      as (s2 & Hset & Hinv2 & _).
    rewrite bump_absent in Hinv2 by done.
    exists s2. split; [exact Hset|].
    destruct Hinv2 as (_ & Hkeys2 & _). apply Hkeys2.
    rewrite Hcfg1.
    destruct (Z.to_nat (maxSize (cacheConfig s))) as [|[|n]] eqn:Hn; [lia..|].
    unfold cells1. simpl. apply elem_of_cons. right.
    apply elem_of_cons. by left.
Qed.

Lemma after_a_b_inv :
  ∃ s, after_a_b = Some s
       ∧ cache_inv s [(1%nat, key_b); (0%nat, key_a)]
       ∧ enabled (cacheConfig s) = true
       ∧ maxSize (cacheConfig s) = 2
       ∧ ttlSeconds (cacheConfig s) = 3600
       ∧ cache s !! key_c = None
       ∧ cache s !! key_a = Some (new_entry 0 (sample key_a "RA")).
Proof.
  unfold after_a_b.
  destruct (setCachedResponse_ok two_slots [] 0 (sample key_a "RA")
              (cache_inv_empty _) eq_refl (generateCacheKey_nonempty _ _))
    as (s1 & Hs1 & Hinv1 & Hcfg1 & Hc1).
  rewrite Hs1. simpl mbind.
  assert (Hen1 : enabled (cacheConfig s1) = true) by (by rewrite Hcfg1).
  destruct (setCachedResponse_ok s1 _ 1 (sample key_b "RB")
              Hinv1 Hen1 (generateCacheKey_nonempty _ _))
    as (s2 & Hs2 & Hinv2 & Hcfg2 & Hc2).
  assert (Hn1 : nextAddr s1 = 1%nat).
  { cut (Some s1 = Some s1 → nextAddr s1 = 1%nat); [by auto|].
    rewrite <- Hs1 at 1. vm_compute. by intros [= <-]. }
  rewrite Hcfg1 in Hinv2, Hc2, Hcfg2. rewrite Hn1 in Hinv2, Hc2.
  assert (Hcells1 :
    take (Z.to_nat (maxSize (cacheConfig two_slots)))
      (bump (o_key (sample key_a "RA")) (nextAddr two_slots) [])
    = [(0%nat, key_a)]) by reflexivity.
  rewrite Hcells1 in *.
  assert (Hcells2 :
    take (Z.to_nat (maxSize (cacheConfig two_slots)))
      (bump (o_key (sample key_b "RB")) 1%nat [(0%nat, key_a)])
    = [(1%nat, key_b); (0%nat, key_a)]) by (vm_compute; reflexivity).
  rewrite Hcells2 in *.
  exists s2. split; [exact Hs2|].
  split_and!; [exact Hinv2 | by rewrite Hcfg2 .. | |].
  - rewrite Hc2. rewrite decide_False; [done|].
    apply (bool_decide_unpack _). by vm_compute.
  - rewrite Hc2.
    rewrite decide_True by (apply (bool_decide_unpack _); by vm_compute).
    rewrite lookup_insert_ne by (apply (bool_decide_unpack _); by vm_compute).
    rewrite Hc1.
    rewrite decide_True by (apply (bool_decide_unpack _); by vm_compute).
    by rewrite lookup_insert_eq.
Qed.

(** After storing A then B in two slots: storing C evicts A; reading A
    first makes it survive the store of C. *)
Lemma lru_eviction_order_witness :
  ∃ s, after_a_b = Some s
    ∧ (∃ s', setCachedResponse 5 (sample key_c "RC") s = Some s'
             ∧ cache s'
               = delete key_a
                   (<[key_c := new_entry 5 (sample key_c "RC")]> (cache s)))
    ∧ (∃ s1 s2,
         getCachedResponse 5 key_a s
         = (Some (touch (new_entry 0 (sample key_a "RA")) 5), s1)
         ∧ setCachedResponse 6 (sample key_c "RC") s1 = Some s2
         ∧ is_Some (cache s2 !! key_a)).
Proof.
  destruct after_a_b_inv as (s & Hs & Hinv & Hen & Hmax & Httl & Hc & Ha).
  exists s. split; [exact Hs|].
  assert (Hfull : Z.of_nat (size (cache s)) = maxSize (cacheConfig s)).
  { by rewrite (cache_inv_size _ _ Hinv), Hmax. }
  destruct (lru_eviction_order s _ Hinv Hen Hfull) as [Hstore Hhit].
  split.
  - destruct (Hstore 5 (sample key_c "RC") (generateCacheKey_nonempty _ _) Hc)
      as (s' & victim & Hset & Hlast & Hcache & _).
    injection Hlast as <-. exists s'. split; [exact Hset | exact Hcache].
  - destruct (Hhit 5 key_a _ Ha) as (s1 & a & Hget & Hinv1 & Hnext).
    { rewrite Httl. simpl. lia. }
    assert (Hc1 : cache s1 !! key_c = None).
    { destruct Hinv1 as (_ & Hkeys1 & _).
      destruct (cache s1 !! key_c) eqn:E; [|done].
      assert (Hin : key_c ∈ ((a, key_a)
                    :: filter (λ c, snd c ≠ key_a)
                         [(1%nat, key_b); (0%nat, key_a)]).*2)
        by (apply Hkeys1; eauto).
      exfalso. revert Hin. apply (bool_decide_unpack _). by vm_compute. }
    destruct (Hnext ltac:(lia) 6 (sample key_c "RC")
                (generateCacheKey_nonempty _ _) Hc1) as (s2 & Hset & Hkept).
    exists s1, s2. split_and!; [exact Hget | exact Hset | exact Hkept].
Defined.

(** C2 as stated fails for a cache of capacity 1: the entry that was just
    read is at the head of the recency list and at its tail, and the
    next store under a fresh key evicts it. *)
Lemma single_slot_evicts_the_entry_just_read :
  setCachedResponse 0 (sample key_a "RA") one_slot = Some slot_stored
  ∧ Z.of_nat (size (cache slot_stored)) = maxSize (cacheConfig slot_stored)
  ∧ getCachedResponse 1 key_a slot_stored
    = (Some (touch (new_entry 0 (sample key_a "RA")) 1), slot_read)
  ∧ cache slot_read !! key_b = None
  ∧ setCachedResponse 2 (sample key_b "RB") slot_read = Some slot_next
  ∧ cache slot_next !! key_a = None
  ∧ cache slot_next !! key_b = Some (new_entry 2 (sample key_b "RB")).
Proof. split_and!; by vm_compute. Qed.

(** When the coldest key is the empty string (a key that
    [generateCacheKey] never produces), [if (key)] takes it for "no key":
    nothing is deleted and the cache keeps [maxSize + 1] entries. *)
Lemma empty_key_is_never_evicted :
  setCachedResponse 0 (sample "" "R0") one_slot = Some slot_empty_key
  ∧ setCachedResponse 1 (sample key_a "RA") slot_empty_key = Some slot_overfull
  ∧ size (cache slot_overfull) = 2%nat
  ∧ maxSize (cacheConfig slot_overfull) = 1.
Proof. split_and!; by vm_compute. Qed.

End CacheFacts.

(* ===================================================================== *)
(** * Properties of the interval registry                                 *)
(* ===================================================================== *)

Module IntervalsFacts.
Import Intervals.

Lemma running_clearInterval t u w :
  u ∈ running (clearInterval t w) ↔ u ∈ running w ∧ u ≠ t.
Proof.
  unfold clearInterval; simpl.
  by rewrite elem_of_difference, not_elem_of_singleton.
Qed.

Lemma nextTimer_clearInterval t w : nextTimer (clearInterval t w) = nextTimer w.
Proof. done. Qed.

(** What the loop of [clearAllIntervals] leaves scheduled. *)
Lemma clearAll_running (r : Registry) (w : Timers) :
  let w' := (clearAllIntervals r w).2 in
  nextTimer w' = nextTimer w
  ∧ ∀ u, u ∈ running w' ↔ u ∈ running w ∧ ¬ registered r u.
Proof.
  unfold clearAllIntervals; simpl.
  apply (map_fold_weak_ind (λ w' r,
    nextTimer w' = nextTimer w
    ∧ ∀ u, u ∈ running w' ↔ u ∈ running w ∧ ¬ registered r u)).
  - split; [done |]. intros u. split; [| tauto].
    intros Hu; split; [done |]. intros [n Hn]. by rewrite lookup_empty in Hn.
  - intros n t m w' Hm [Hnext IH]. split; [done |]. intros u.
    rewrite running_clearInterval, IH. unfold registered. split.
    + intros [[Hu Hnot] Hne]. split; [done |]. intros [n' Hn'].
      destruct (decide (n' = n)) as [-> | Hnn].
      * rewrite lookup_insert_eq in Hn'. congruence.
      * rewrite lookup_insert_ne in Hn' by done. apply Hnot. by exists n'.
    + intros [Hu Hnot]. split_and!; [done | |].
      * intros [n' Hn']. apply Hnot. exists n'.
        rewrite lookup_insert_ne; [done |]. intros ->. congruence.
      * intros ->. apply Hnot. exists n. by rewrite lookup_insert_eq.
Qed.

Lemma elem_of_running_clear t u w :
  u ∈ running w → u ≠ t → u ∈ running (clearInterval t w).
Proof. intros. by apply running_clearInterval. Qed.

(** Registering a fresh, scheduled handle. *)
Lemma tracked_register (name : string) (t : Timer) (r : Registry) (w : Timers)
    (base : Timer) :
  tracked r w → t ∈ running w → (t < nextTimer w)%nat → ¬ registered r t →
  (∀ u, (base ≤ u)%nat → u ∈ running w → u ≠ t → registered r u) →
  let s' := registerInterval name t r w in
  tracked s'.1 s'.2
  ∧ nextTimer s'.2 = nextTimer w
  ∧ (∀ u, (base ≤ u)%nat → u ∈ running s'.2 → registered s'.1 u)
  ∧ (∀ u, u ∈ running w → ¬ registered r u → u ∈ running s'.2).
Proof.
  intros [Hrun Hinj] Htrun Htlt Hfresh Hown. unfold registerInterval.
  set (w1 := match r !! name with
             | Some existing => clearInterval existing w
             | None => w
             end).
  assert (Hnext : nextTimer w1 = nextTimer w).
  { unfold w1. by destruct (r !! name). }
  assert (Hw1 : ∀ u, u ∈ running w1 ↔ u ∈ running w ∧ r !! name ≠ Some u).
  { intros u. unfold w1. destruct (r !! name) as [old |] eqn:Hold.
    - rewrite running_clearInterval. split; intros [? ?]; split; congruence.
    - split; [intros ?; split; [done | congruence] | tauto]. }
  cbn -[w1]. split_and!; [| done | |].
  - split.
    + intros n u Hn. rewrite Hnext. destruct (decide (n = name)) as [-> | Hne].
      * rewrite lookup_insert_eq in Hn. injection Hn as <-.
        split; [| done]. apply Hw1. split; [done |].
        intros Hn. apply Hfresh. by exists name.
      * rewrite lookup_insert_ne in Hn by done.
        destruct (Hrun _ _ Hn) as [Hu Hlt]. split; [| done].
        apply Hw1. split; [done |]. intros Hn'. apply Hne. eauto.
    + intros n1 n2 u H1 H2.
      destruct (decide (n1 = name)) as [-> | Hne1];
        destruct (decide (n2 = name)) as [-> | Hne2]; [done | | |].
      * rewrite lookup_insert_eq in H1. injection H1 as <-.
        rewrite lookup_insert_ne in H2 by done. exfalso. apply Hfresh.
        by exists n2.
      * rewrite lookup_insert_eq in H2. injection H2 as <-.
        rewrite lookup_insert_ne in H1 by done. exfalso. apply Hfresh.
        by exists n1.
      * rewrite lookup_insert_ne in H1, H2 by done. eauto.
  - intros u Hb Hu. apply Hw1 in Hu as [Hu Hne].
    destruct (decide (u = t)) as [-> | Hut].
    { exists name. by rewrite lookup_insert_eq. }
    destruct (Hown u Hb Hu Hut) as [n Hn].
    exists n. rewrite lookup_insert_ne; [done |]. intros ->. congruence.
  - intros u Hu Hnot. apply Hw1. split; [done |].
    intros Hn. apply Hnot. by exists name.
Qed.

Lemma tracked_run_op (op : Op) (r : Registry) (w : Timers) (base : Timer) :
  tracked r w →
  (∀ u, u ∈ running w → (u < nextTimer w)%nat) →
  (∀ u, (base ≤ u)%nat → u ∈ running w → registered r u) →
  let s' := run_op op (r, w) in
  tracked s'.1 s'.2
  ∧ (nextTimer w ≤ nextTimer s'.2)%nat
  ∧ (∀ u, u ∈ running s'.2 → (u < nextTimer s'.2)%nat)
  ∧ (∀ u, (base ≤ u)%nat → u ∈ running s'.2 → registered s'.1 u)
  ∧ (∀ u, u ∈ running w → ¬ registered r u → u ∈ running s'.2).
Proof.
  intros Ht Hlt Hown. destruct op as [name | name |].
  - (* Start *)
    change (run_op (Start name) (r, w))
      with (registerInterval name (nextTimer w) r (setInterval w).2).
    set (t := nextTimer w). set (w0 := (setInterval w).2).
    assert (Hr0 : ∀ u, u ∈ running w0 ↔ u = t ∨ u ∈ running w).
    { intros u. unfold w0, setInterval; cbn.
      by rewrite elem_of_union, elem_of_singleton. }
    assert (Hn0 : nextTimer w0 = S t) by done.
    assert (Hfresh : ¬ registered r t).
    { intros [n Hn]. apply Ht in Hn as [_ Hn]. unfold t in Hn. lia. }
    assert (Ht0 : tracked r w0).
    { destruct Ht as [Hrun Hinj]. split; [| done]. intros n u Hn.
      destruct (Hrun _ _ Hn). rewrite Hr0, Hn0. split; [by right | lia]. }
    destruct (tracked_register name t r w0 base Ht0) as (H1 & H2 & H3 & H4).
    + apply Hr0. by left.
    + rewrite Hn0. lia.
    + done.
    + intros u Hb Hu Hut. apply Hown; [done |]. apply Hr0 in Hu as [-> | Hu]; done.
    + assert (Hsub : ∀ u, u ∈ running (registerInterval name t r w0).2 →
                          u ∈ running w0).
      { intros u. unfold registerInterval; cbn -[w0].
        destruct (r !! name); [| done].
        by intros [? _]%running_clearInterval. }
      revert H1 H2 H3 H4 Hsub.
      generalize (registerInterval name t r w0). intros s' H1 H2 H3 H4 Hsub.
      cbn zeta. split_and!; [done | rewrite H2, Hn0; unfold t; lia | | done |].
      * intros u Hu. rewrite H2, Hn0. apply Hsub, Hr0 in Hu as [-> | Hu].
        -- lia.
        -- apply Hlt in Hu. unfold t. lia.
      * intros u Hu Hnot. apply H4; [| done]. apply Hr0. by right.
  - (* Stop *)
    destruct Ht as [Hrun Hinj]. cbn.
    unfold clearRegisteredInterval.
    destruct (r !! name) as [old |] eqn:Hold; cbn.
    + split_and!.
      * split.
        -- intros n u Hn. apply lookup_delete_Some in Hn as [Hne Hn].
           destruct (Hrun _ _ Hn) as [Hu Hlt']. split; [| done].
           apply elem_of_running_clear; [done |].
           intros ->. apply Hne; eauto.
        -- intros n1 n2 u H1 H2.
           apply lookup_delete_Some in H1 as [_ H1].
           apply lookup_delete_Some in H2 as [_ H2]. eauto.
      * lia.
      * intros u Hu. apply running_clearInterval in Hu as [Hu _]. by apply Hlt.
      * intros u Hb Hu. apply running_clearInterval in Hu as [Hu' Huo].
        destruct (Hown u Hb Hu') as [n Hn].
        exists n. apply lookup_delete_Some. split; [| done].
        intros <-. congruence.
      * intros u Hu Hnot. apply elem_of_running_clear; [done |].
        intros ->. apply Hnot. by exists name.
    + split_and!; [by split | lia | done | done | done].
  - (* StopAll *)
    destruct (clearAll_running r w) as [Hnext Hall]. cbn in Hnext, Hall. cbn.
    split_and!.
    + split; [intros n t' Hn | intros n1 n2 t' Hn _];
        by rewrite lookup_empty in Hn.
    + rewrite Hnext. lia.
    + intros u Hu. rewrite Hnext. apply Hall in Hu as [Hu _]. by apply Hlt.
    + intros u Hb Hu. apply Hall in Hu as [Hu Hnot].
      exfalso. apply Hnot. by apply Hown.
    + intros u Hu Hnot. by apply Hall.
Qed.

Lemma run_op_registered (op : Op) (r : Registry) (w : Timers) n t :
  (run_op op (r, w)).1 !! n = Some t → registered r t ∨ t = nextTimer w.
Proof.
  destruct op as [name | name |]; simpl.
  - unfold registerInterval; simpl. intros Hn.
    destruct (decide (n = name)) as [-> | Hne].
    + rewrite lookup_insert_eq in Hn. right. congruence.
    + rewrite lookup_insert_ne in Hn by done. left. by exists n.
  - unfold clearRegisteredInterval. destruct (r !! name) eqn:Hold; simpl.
    + intros [_ Hn]%lookup_delete_Some. left. by exists n.
    + intros Hn. left. by exists n.
  - intros Hn. by rewrite lookup_empty in Hn.
Qed.

(** A registry that holds no handle twice has as many names as handles. *)
Lemma size_registry (r : Registry) (X : gset Timer) :
  (∀ n1 n2 t, r !! n1 = Some t → r !! n2 = Some t → n1 = n2) →
  (∀ u, u ∈ X ↔ registered r u) →
  size r = size X.
Proof.
  intros Hinj HX.
  assert (HX' : X = list_to_set (map_to_list r).*2).
  { apply set_eq. intros u. rewrite HX, elem_of_list_to_set, list_elem_of_fmap.
    split.
    - intros [n Hn]. exists (n, u). split; [done |].
      by apply elem_of_map_to_list.
    - intros [[n u'] [-> Hin]]. exists n. by apply elem_of_map_to_list. }
  rewrite HX', size_list_to_set.
  - by rewrite length_fmap, length_map_to_list.
  - apply NoDup_fmap_2_strong; [| apply NoDup_map_to_list].
    intros [n1 t1] [n2 t2] H1%elem_of_map_to_list H2%elem_of_map_to_list Heq.
    simpl in Heq. subst t2. f_equal. eauto.
Qed.

(** The invariant of the registry over sequences of client calls:
    [base] is the first handle created since the registry was empty. *)
Lemma run_ops_tracked (base : Timer) (w : Timers) (ops : list Op) :
  ∀ (r : Registry) (w' : Timers),
  tracked r w' →
  (∀ u, u ∈ running w → (u < base)%nat) →
  (∀ u, u ∈ running w' → (u < nextTimer w')%nat) →
  (base ≤ nextTimer w')%nat →
  (∀ n t, r !! n = Some t → (base ≤ t)%nat) →
  (∀ u, (base ≤ u)%nat → u ∈ running w' → registered r u) →
  (∀ u, u ∈ running w → u ∈ running w') →
  let s := run_ops ops (r, w') in
  tracked s.1 s.2
  ∧ (∀ n t, s.1 !! n = Some t → (base ≤ t)%nat)
  ∧ (∀ u, (base ≤ u)%nat → u ∈ running s.2 → registered s.1 u)
  ∧ (∀ u, u ∈ running w → u ∈ running s.2).
Proof.
  induction ops as [| op ops IH]; intros r w' Ht Hw Hlt Hb Hreg Hown Hold.
  { simpl. done. }
  unfold run_ops; simpl. fold (run_ops ops (run_op op (r, w'))).
  destruct (tracked_run_op op r w' base Ht Hlt Hown)
    as (Ht' & Hn' & Hlt' & Hown' & Hold').
  pose proof (run_op_registered op r w') as Hnew.
  destruct (run_op op (r, w')) as [r1 w1] eqn:Hop. simpl in *.
  apply IH; [done | done | done | lia | | done |].
  - intros n t Hnt. apply Hnew in Hnt as [[n0 Hn0] | ->]; [eauto | lia].
  - intros u Hu. apply Hold'; [by apply Hold |].
    intros [n Hn]. apply Hreg in Hn. apply Hw in Hu. lia.
Qed.

Lemma tracked_empty (w : Timers) : tracked ∅ w.
Proof.
  split; [intros n t Ht | intros n1 n2 t Ht _]; by rewrite lookup_empty in Ht.
Qed.

(** X1: no timer started through the registry is ever orphaned.  After
    any sequence of starts, stops by name and stop-alls on an initially
    empty registry, the timers created since then that are still
    scheduled are exactly the registered ones, no two names share a
    timer, [getIntervalCount] counts them, and the timers that existed
    before are still scheduled. *)
Theorem registry_timers_never_leak (ops : list Op) (w : Timers) :
  (∀ u, u ∈ running w → (u < nextTimer w)%nat) →
  let s := run_ops ops (∅, w) in
  (∀ u, (nextTimer w ≤ u)%nat → (u ∈ running s.2 ↔ registered s.1 u))
  ∧ (∀ n1 n2 t, s.1 !! n1 = Some t → s.1 !! n2 = Some t → n1 = n2)
  ∧ (∀ u, u ∈ running w → u ∈ running s.2)
  ∧ getIntervalCount s.1
    = size (filter (λ u, (nextTimer w ≤ u)%nat) (running s.2)).
Proof.
  intros Hw. cbn zeta.
  destruct (run_ops_tracked (nextTimer w) w ops ∅ w)
    as ([Hrun Hinj] & Hge & Hown & Hold);
    [apply tracked_empty | done | done | lia | | | done |].
  - intros n t Ht. by rewrite lookup_empty in Ht.
  - intros u Hu Hin. apply Hw in Hin. lia.
  - split_and!; [| done | done |].
    + intros u Hu. split; [by apply Hown |].
      intros [n Hn]. by apply Hrun in Hn as [? _].
    + unfold getIntervalCount. apply size_registry; [done |].
      intros u. rewrite elem_of_filter. split.
      * intros [Hu Hin]. by apply Hown.
      * intros [n Hn]. split; [by apply Hge in Hn |].
        by apply Hrun in Hn as [? _].
Qed.

Lemma registry_timers_never_leak_witness :
  let w := {| running := {[0%nat]}; nextTimer := 1 |} in
  let s := run_ops [Start "a"; Start "a"; Start "b"; Stop "b"] (∅, w) in
  (∀ u, (nextTimer w ≤ u)%nat → (u ∈ running s.2 ↔ registered s.1 u))
  ∧ (∀ n1 n2 t, s.1 !! n1 = Some t → s.1 !! n2 = Some t → n1 = n2)
  ∧ (∀ u, u ∈ running w → u ∈ running s.2)
  ∧ getIntervalCount s.1
    = size (filter (λ u, (nextTimer w ≤ u)%nat) (running s.2)).
Proof.
  apply (registry_timers_never_leak
           [Start "a"; Start "a"; Start "b"; Stop "b"]
           {| running := {[0%nat]}; nextTimer := 1 |}).
  intros u Hu. cbn in Hu. apply elem_of_singleton in Hu. subst u. cbn. lia.
Defined.

(** X2: registering under a name replaces and cancels.  After
    [registerInterval name t] the name maps to [t], the handle that was
    registered under it before is cancelled (also when it is [t] itself,
    which then stays registered although cancelled), every other
    scheduled timer stays scheduled, and the count grows only for a new
    name.  A following [clearRegisteredInterval name] answers [true],
    cancels [t] and removes the name; a second one answers [false] and
    changes nothing. *)
Theorem register_then_clear (name : string) (t : Timer) (r : Registry)
    (w : Timers) :
  let s1 := registerInterval name t r w in
  let c1 := clearRegisteredInterval name s1.1 s1.2 in
  s1.1 !! name = Some t
  ∧ getIntervalCount s1.1
    = match r !! name with
      | Some _ => getIntervalCount r
      | None => S (getIntervalCount r)
      end
  ∧ (∀ old, r !! name = Some old → old ∉ running s1.2)
  ∧ (∀ u, u ∈ running w → r !! name ≠ Some u → u ∈ running s1.2)
  ∧ c1 = (true, delete name r, clearInterval t s1.2)
  ∧ (t ∉ running c1.2)
  ∧ (∀ u, u ∈ running w → r !! name ≠ Some u → u ≠ t → u ∈ running c1.2)
  ∧ clearRegisteredInterval name (delete name r) c1.2
    = (false, delete name r, c1.2).
Proof.
  cbn zeta.
  assert (Hs1 : ∀ u, u ∈ running (registerInterval name t r w).2
                     ↔ u ∈ running w ∧ r !! name ≠ Some u).
  { intros u. unfold registerInterval; cbn [snd].
    destruct (r !! name) as [old |].
    - rewrite running_clearInterval. split; intros [? ?]; split; congruence.
    - split; [intros ?; split; [done | congruence] | tauto]. }
  assert (Hc1 : clearRegisteredInterval name (registerInterval name t r w).1
                  (registerInterval name t r w).2
                = (true, delete name r,
                   clearInterval t (registerInterval name t r w).2)).
  { unfold clearRegisteredInterval. unfold registerInterval at 1 2; cbn [fst].
    by rewrite lookup_insert_eq, delete_insert_eq. }
  rewrite Hc1. cbn [fst snd]. unfold getIntervalCount.
  split_and!.
  - unfold registerInterval; cbn [fst]. by rewrite lookup_insert_eq.
  - unfold registerInterval; cbn [fst]. destruct (r !! name) eqn:Hn.
    + rewrite map_size_insert_Some; [done | by rewrite Hn].
    + by rewrite map_size_insert_None.
  - intros old Hold Hin. apply Hs1 in Hin as [_ Hin]. done.
  - intros u Hu Hne. by apply Hs1.
  - done.
  - rewrite running_clearInterval. tauto.
  - intros u Hu Hne Hut. apply running_clearInterval. split; [| done].
    by apply Hs1.
  - unfold clearRegisteredInterval. by rewrite lookup_delete_eq.
Qed.

Lemma register_then_clear_witness :
  let w := {| running := {[0%nat; 1%nat]}; nextTimer := 2 |} in
  let s1 := registerInterval "sync" 1%nat {[ "sync" := 0%nat ]} w in
  s1.1 !! "sync" = Some 1%nat
  ∧ (0%nat ∉ running s1.2)
  ∧ 1%nat ∈ running s1.2.
Proof.
  destruct (register_then_clear "sync" 1%nat {[ "sync" := 0%nat ]}
              {| running := {[0%nat; 1%nat]}; nextTimer := 2 |})
    as (Hlook & _ & Hold & Hkeep & _).
  split_and!.
  - exact Hlook.
  - apply Hold. reflexivity.
  - apply Hkeep.
    + apply (bool_decide_unpack _). by vm_compute.
    + apply (bool_decide_unpack _). by vm_compute.
Defined.

End IntervalsFacts.

(* ===================================================================== *)
(** * Properties of the token setup                                       *)
(* ===================================================================== *)

Module TokenSetupFacts.
Import Intervals TokenSetup IntervalsFacts.

Lemma substring_0_app (a b : string) :
  String.substring 0 (String.length a) (a +:+ b) = a.
Proof.
  induction a as [| c a IH]; simpl.
  - by destruct b.
  - by rewrite IH.
Qed.

Lemma substring_skip_app (a b : string) (n : nat) :
  String.substring (String.length a) n (a +:+ b) = String.substring 0 n b.
Proof. induction a as [| c a IH]; simpl; [done | apply IH]. Qed.

Lemma substring_all (a : string) : String.substring 0 (String.length a) a = a.
Proof. induction a as [| c a IH]; simpl; [done | by rewrite IH]. Qed.

Lemma app_assoc_string (a b c : string) :
  a +:+ b +:+ c = (a +:+ b) +:+ c.
Proof.
  induction a as [| x a IH]; [done |].
  change (String x (a +:+ b +:+ c) = String x ((a +:+ b) +:+ c)).
  by rewrite IH.
Qed.

Lemma length_app_string (a b : string) :
  String.length (a +:+ b) = (String.length a + String.length b)%nat.
Proof. induction a as [| c a IH]; simpl; [done | by rewrite IH]. Qed.

(** X3: [maskToken] shows the first four and the last four characters of
    a token of more than eight characters and nothing of what lies
    between them; a token of at most eight characters is hidden
    entirely. *)
Theorem maskToken_hides_the_middle (token : string) :
  ((String.length token ≤ 8)%nat → maskToken token = "***")
  ∧ (∀ a m z, token = a +:+ m +:+ z →
       String.length a = 4%nat → String.length z = 4%nat → m ≠ "" →
       maskToken token = a +:+ "..." +:+ z).
Proof.
  split.
  - intros Hlen. unfold maskToken.
    by replace (String.length token <=? 8)%nat with true
      by (symmetry; by apply Nat.leb_le).
  - intros a m z -> Ha Hz Hm. unfold maskToken.
    assert (Hml : (0 < String.length m)%nat) by (destruct m; [done | simpl; lia]).
    rewrite !length_app_string, Ha, Hz.
    replace (_ <=? 8)%nat with false by (symmetry; apply Nat.leb_gt; lia).
    f_equal.
    + rewrite <- Ha. apply substring_0_app.
    + f_equal.
      replace (4 + (String.length m + 4) - 4)%nat
        with (String.length (a +:+ m)) by (rewrite length_app_string; lia).
      rewrite app_assoc_string, substring_skip_app, <- Hz.
      apply substring_all.
Qed.

Lemma maskToken_hides_the_middle_witness :
  maskToken "gho_abc" = "***"
  ∧ maskToken "tid=0123456789abcdef;exp=1" = "tid=...xp=1".
Proof.
  split.
  - apply (maskToken_hides_the_middle "gho_abc"). simpl. lia.
  - destruct (maskToken_hides_the_middle "tid=0123456789abcdef;exp=1")
      as [_ H].
    apply (H "tid=" "0123456789abcdef;e" "xp=1"); [reflexivity .. | discriminate].
Defined.


Section Setup.
Context {W E : Type}.
Variable getCopilotToken :
  option string → W → (E + Token.GetCopilotTokenResponse) * W.




End Setup.



End TokenSetupFacts.

(* ===================================================================== *)
(** * Properties of the log emitter                                       *)
(* ===================================================================== *)

Module LoggerFacts.
Import Logger.

Lemma last_n_snoc {A : Type} (n : nat) (l : list A) (x : A) :
  last_n (S n) (l ++ [x]) = last_n n l ++ [x].
Proof.
  unfold last_n. rewrite length_app; simpl.
  replace (length l + 1 - S n)%nat with (length l - n)%nat by lia.
  rewrite drop_app_le by lia. done.
Qed.

Lemma last_n_all {A : Type} (n : nat) (l : list A) :
  (length l ≤ n)%nat → last_n n l = l.
Proof.
  intros Hle. unfold last_n.
  by replace (length l - n)%nat with 0%nat by lia.
Qed.

Lemma last_n_length {A : Type} (n : nat) (l : list A) :
  length (last_n n l) = (length l `min` n)%nat.
Proof. unfold last_n. rewrite length_drop. lia. Qed.

Lemma last_n_drop1 {A : Type} (n : nat) (l : list A) :
  (n < length l)%nat → drop 1 (last_n (S n) l) = last_n n l.
Proof.
  intros Hlt. unfold last_n. rewrite drop_drop. f_equal. lia.
Qed.

Section Emitter.
Context {W : Type}.
Variable call : Listener → LogEntry → W → bool * W.


Lemma run_ops_snoc (ops : list Op) (op : Op) (s : LogEmitter * W) :
  run_ops call (ops ++ [op]) s = run_op call op (run_ops call ops s).
Proof. unfold run_ops. by rewrite foldl_app. Qed.

Lemma logged_snoc (ops : list Op) (op : Op) :
  logged (ops ++ [op]) = logged ops ++ logged [op].
Proof. unfold logged. by rewrite omap_app. Qed.

Lemma run_ops_state (ops : list Op) (w : W) :
  let e := (run_ops call ops (new_LogEmitter, w)).1 in
  recentLogs e = last_n maxLogs (logged ops) ∧ NoDup (listeners e).
Proof.
  cbn zeta. induction ops as [| op ops IH] using rev_ind.
  { split; [done | constructor]. }
  rewrite run_ops_snoc, logged_snoc.
  destruct (run_ops call ops (new_LogEmitter, w)) as [e w1].
  destruct IH as [IHl IHn]. simpl in IHl, IHn.
  destruct op as [lvl msg now | l | l]; simpl.
  - unfold log. destruct (deliver call _ (listeners e) w1) as [w2 calls].
    simpl. split; [| done]. rewrite IHl.
    set (entry := {| level := lvl; message := msg; timestamp := now |}).
    rewrite length_app, last_n_length; simpl.
    destruct (decide (length (logged ops) < maxLogs)%nat) as [Hlt | Hge].
    + replace (maxLogs <? _)%nat with false
        by (symmetry; apply Nat.ltb_ge; lia).
      rewrite !last_n_all; [done | | lia].
      rewrite length_app; simpl. lia.
    + replace (maxLogs <? _)%nat with true
        by (symmetry; apply Nat.ltb_lt; lia).
      rewrite <- last_n_snoc. apply last_n_drop1.
      rewrite length_app; simpl. lia.
  - rewrite app_nil_r. split; [done |].
    case_bool_decide as Hin; [done |].
    apply NoDup_app. split_and!; [done | | apply NoDup_singleton].
    intros x Hx Hx'%list_elem_of_singleton. by subst.
  - rewrite app_nil_r. split; [done |]. by apply NoDup_filter.
Qed.


End Emitter.

(** X5: the emitter keeps the most recent 1000 entries.  After any
    sequence of log, subscribe and unsubscribe calls on a new emitter,
    [recentLogs] holds the last 1000 entries logged (all of them if
    there were fewer), oldest first, whatever the listeners did. *)
Theorem recent_logs_are_the_last_thousand {W : Type}
    (call : Listener → LogEntry → W → bool * W) (ops : list Op) (w : W) :
  let e := (run_ops call ops (new_LogEmitter, w)).1 in
  recentLogs e = last_n 1000 (logged ops)
  ∧ (length (recentLogs e) ≤ 1000)%nat
  ∧ getRecentLogs None e = last_n 100 (logged ops).
Proof.
  cbn zeta. destruct (run_ops_state call ops w) as [Hlogs _].
  cbn zeta in Hlogs. change maxLogs with 1000%nat in Hlogs.
  split_and!; [done | rewrite Hlogs, last_n_length; lia |].
  unfold getRecentLogs, slice_from. rewrite Hlogs. simpl default.
  change (- (100) <? 0) with true. cbv iota.
  rewrite last_n_length. unfold last_n. rewrite drop_drop. f_equal. lia.
Qed.

(** X6: [getRecentLogs limit] returns the last [limit] entries for a
    positive [limit] (all of them when there are fewer); for [limit = 0]
    it returns every entry, not none, since [slice(-0)] is [slice(0)];
    for a negative [limit] it drops the first [-limit] entries. *)
Theorem getRecentLogs_limit (e : LogEmitter) (limit : Z) :
  (0 < limit → getRecentLogs (Some limit) e
               = last_n (Z.to_nat limit) (recentLogs e))
  ∧ getRecentLogs (Some 0) e = recentLogs e
  ∧ (limit < 0 → getRecentLogs (Some limit) e
                 = drop (Z.to_nat (- limit)) (recentLogs e)).
Proof.
  unfold getRecentLogs, slice_from, last_n. simpl default. split_and!.
  - intros Hpos. replace (- limit <? 0) with true by (symmetry; lia).
    f_equal. lia.
  - change (- 0 <? 0) with false. cbv iota. by rewrite Z.min_l by lia.
  - intros Hneg. replace (- limit <? 0) with false by (symmetry; lia).
    destruct (decide (- limit ≤ Z.of_nat (length (recentLogs e)))).
    + by rewrite Z.min_l.
    + rewrite Z.min_r by lia. rewrite Nat2Z.id.
      rewrite !drop_ge; [done | lia | lia].
Qed.

Lemma getRecentLogs_limit_witness :
  getRecentLogs (Some 2) three_logs = [entry_n "2"; entry_n "3"]
  ∧ getRecentLogs (Some 0) three_logs = [entry_n "1"; entry_n "2"; entry_n "3"]
  ∧ getRecentLogs (Some (-1)) three_logs = [entry_n "2"; entry_n "3"].
Proof.
  split_and!.
  - destruct (getRecentLogs_limit three_logs 2) as (H & _ & _).
    rewrite H; [reflexivity | lia].
  - destruct (getRecentLogs_limit three_logs 2) as (_ & H & _). exact H.
  - destruct (getRecentLogs_limit three_logs (-1)) as (_ & _ & H).
    rewrite H; [reflexivity | lia].
Defined.


End LoggerFacts.

(* ===================================================================== *)
(** * Properties of the notification center                               *)
(* ===================================================================== *)

Module NotificationsFacts.
Import Notifications.

Section Center.
Context {D : Type}.
Local Abbreviation N := (Notification D).

Lemma addNotification_list newId now (o : AddNotificationOptions D)
    (ns : list N) :
  (addNotification newId now o ns).1.2
  = take MAX_NOTIFICATIONS ((addNotification newId now o ns).1.1 :: ns).
Proof.
  unfold addNotification; cbn [fst snd].
  destruct (MAX_NOTIFICATIONS <? _)%nat eqn:Hlen; [done |].
  apply Nat.ltb_ge in Hlen. by rewrite take_ge.
Qed.

Lemma add_all_take (adds : list (string * Z * AddNotificationOptions D))
    (ns : list N) :
  (length ns ≤ MAX_NOTIFICATIONS)%nat →
  add_all adds ns = take MAX_NOTIFICATIONS (rev (created adds) ++ ns).
Proof.
  revert ns. induction adds as [| a adds IH]; intros ns Hlen.
  { simpl. by rewrite take_ge. }
  change (add_all (a :: adds) ns)
    with (add_all adds (addNotification a.1.1 a.1.2 a.2 ns).1.2).
  rewrite IH.
  - rewrite addNotification_list.
    change (created (a :: adds))
      with ((addNotification a.1.1 a.1.2 a.2 []).1.1 :: created adds).
    set (n := (addNotification a.1.1 a.1.2 a.2 ns).1.1).
    change ((addNotification a.1.1 a.1.2 a.2 []).1.1) with n.
    cbn [rev]. rewrite <- app_assoc. cbn [app].
    generalize (rev (created adds)). intros l.
    apply list_eq. intros i. rewrite !lookup_take.
    destruct (decide (i < MAX_NOTIFICATIONS)%nat) as [Hi | Hi]; [| done].
    destruct (decide (i < length l)%nat) as [Hl | Hl].
    + by rewrite !lookup_app_l.
    + rewrite !lookup_app_r by lia. rewrite lookup_take.
      case_decide; [done | lia].
  - rewrite addNotification_list, length_take. lia.
Qed.

Lemma markAllAsRead_spec (ns : list N) :
  (markAllAsRead ns).1 = getUnreadCount ns
  ∧ (markAllAsRead ns).2 = set_read <$> ns.
Proof.
  unfold getUnreadCount. induction ns as [| n ns [IH1 IH2]]; [done |].
  simpl. destruct (markAllAsRead ns) as [count rest]. simpl in *.
  destruct n as [i ty ti m ts [|] d]; simpl; by subst.
Qed.

Lemma markAsRead_length (i : string) (ns : list N) :
  length (markAsRead i ns).2 = length ns.
Proof.
  induction ns as [| n ns IH]; [done |]. simpl.
  case_bool_decide; [done |].
  destruct (markAsRead i ns) as [found rest]. simpl in *. by rewrite IH.
Qed.

Lemma deleteNotification_length (i : string) (ns : list N) :
  (length (deleteNotification i ns).2 ≤ length ns)%nat.
Proof.
  induction ns as [| n ns IH]; [done |]. simpl.
  case_bool_decide; [simpl; lia |].
  destruct (deleteNotification i ns) as [found rest]. simpl in *. lia.
Qed.

Lemma run_op_at_most_fifty (op : Op) (ns : list N) :
  (length ns ≤ MAX_NOTIFICATIONS)%nat →
  (length (run_op op ns) ≤ MAX_NOTIFICATIONS)%nat.
Proof.
  intros Hlen. destruct op as [newId now o | i | | i |]; cbn [run_op].
  - rewrite addNotification_list, length_take. lia.
  - by rewrite markAsRead_length.
  - destruct (markAllAsRead_spec ns) as [_ ->]. by rewrite length_fmap.
  - pose proof (deleteNotification_length i ns). lia.
  - cbn. lia.
Qed.

Lemma run_ops_at_most_fifty (ops : list Op) (ns : list N) :
  (length ns ≤ MAX_NOTIFICATIONS)%nat →
  (length (run_ops ops ns) ≤ MAX_NOTIFICATIONS)%nat.
Proof.
  revert ns. induction ops as [| op ops IH]; intros ns Hlen; [done |].
  apply IH. by apply run_op_at_most_fifty.
Qed.

(** The first notification carrying id [i], with what precedes and
    what follows it. *)
Lemma first_with_id (i : string) (ns : list N) :
  i ∈ id <$> ns →
  ∃ l1 n l2, ns = l1 ++ n :: l2 ∧ (i ∉ id <$> l1) ∧ id n = i
             ∧ markAsRead i ns = (true, l1 ++ set_read n :: l2)
             ∧ deleteNotification i ns = (true, l1 ++ l2).
Proof.
  induction ns as [| n ns IH]; [by intros ?%elem_of_nil |].
  intros Hin. simpl. destruct (decide (id n = i)) as [Heq | Hne].
  - exists [], n, ns. rewrite !bool_decide_eq_true_2 by done.
    split_and!; [done | apply not_elem_of_nil | done | done | done].
  - rewrite !bool_decide_eq_false_2 by done.
    rewrite fmap_cons in Hin. apply elem_of_cons in Hin as [Hin | Hin];
      [congruence |].
    destruct (IH Hin) as (l1 & n' & l2 & -> & Hl1 & Hn' & Hm & Hd).
    exists (n :: l1), n', l2. rewrite Hm, Hd.
    split_and!; [done | | done | done | done].
    rewrite fmap_cons, not_elem_of_cons. split; [congruence | done].
Qed.

Lemma absent_id (i : string) (ns : list N) :
  i ∉ id <$> ns →
  markAsRead i ns = (false, ns) ∧ deleteNotification i ns = (false, ns).
Proof.
  induction ns as [| n ns IH]; [done |].
  rewrite fmap_cons, not_elem_of_cons. intros [Hne Hin]. simpl.
  rewrite !bool_decide_eq_false_2 by congruence.
  destruct (IH Hin) as [-> ->]. done.
Qed.

End Center.

(** X8: the center keeps the 50 newest notifications, newest first.  In
    every state reached from the empty center the array holds at most
    50 notifications, and adding to it yields the new notifications in
    reverse order of creation followed by the old ones, cut off after
    the 50th: the oldest are dropped, read or not. *)
Theorem notifications_keep_the_newest_fifty {D : Type} (ops : list (Op (D := D)))
    (adds : list (string * Z * AddNotificationOptions D)) :
  let ns := run_ops ops [] in
  (length ns ≤ 50)%nat
  ∧ add_all adds ns = take 50 (rev (created adds) ++ ns).
Proof.
  cbn zeta.
  assert (Hlen : (length (run_ops ops ([] : list (Notification D)))
                  ≤ MAX_NOTIFICATIONS)%nat).
  { apply run_ops_at_most_fifty. simpl. lia. }
  split; [done | by apply add_all_take].
Qed.

(** X9: [markAllAsRead] returns the number of unread notifications and
    leaves none unread; it changes nothing but the [read] flags, and a
    second call returns 0. *)
Theorem markAllAsRead_counts_the_unread {D : Type}
    (ns : list (Notification D)) :
  let r := markAllAsRead ns in
  r.1 = getUnreadCount ns
  ∧ getUnreadCount r.2 = 0%nat
  ∧ r.2 = set_read <$> ns
  ∧ (markAllAsRead r.2).1 = 0%nat.
Proof.
  cbn zeta.
  assert (H0 : getUnreadCount (set_read <$> ns) = 0%nat).
  { unfold getUnreadCount. induction ns as [| n ns IH]; [done |].
    rewrite fmap_cons, filter_cons_False by done. apply IH. }
  destruct (markAllAsRead_spec ns) as [H1 H2].
  split_and!; [done | by rewrite H2 | done |].
  destruct (markAllAsRead_spec (markAllAsRead ns).2) as [-> _].
  by rewrite H2.
Qed.

(** X10: marking and deleting by id act on the first (newest)
    notification that carries the id and on nothing else.  Both answer
    [false] and leave the array as it is when no notification has the
    id; otherwise both answer [true], [markAsRead] sets the [read] flag
    of that notification, and [deleteNotification] removes it, so a
    notification with the same id further down stays. *)
Theorem mark_and_delete_hit_the_newest_match {D : Type}
    (i : string) (ns : list (Notification D)) :
  (i ∉ id <$> ns →
   markAsRead i ns = (false, ns) ∧ deleteNotification i ns = (false, ns))
  ∧ (i ∈ id <$> ns →
     ∃ l1 n l2,
       ns = l1 ++ n :: l2 ∧ (i ∉ id <$> l1) ∧ id n = i
       ∧ markAsRead i ns = (true, l1 ++ set_read n :: l2)
       ∧ deleteNotification i ns = (true, l1 ++ l2)).
Proof. split; [apply absent_id | apply first_with_id]. Qed.

Lemma mark_and_delete_hit_the_newest_match_witness :
  (markAsRead "notif_9_z" three_notes = (false, three_notes)
   ∧ deleteNotification "notif_9_z" three_notes = (false, three_notes))
  ∧ ∃ l1 n l2,
      three_notes = l1 ++ n :: l2 ∧ ("notif_1_a" ∉ id <$> l1)
      ∧ id n = "notif_1_a"
      ∧ markAsRead "notif_1_a" three_notes = (true, l1 ++ set_read n :: l2)
      ∧ deleteNotification "notif_1_a" three_notes = (true, l1 ++ l2).
Proof.
  split.
  - apply (mark_and_delete_hit_the_newest_match "notif_9_z" three_notes).
    apply (bool_decide_unpack _). by vm_compute.
  - apply (mark_and_delete_hit_the_newest_match "notif_1_a" three_notes).
    apply (bool_decide_unpack _). by vm_compute.
Defined.

End NotificationsFacts.

(* ===================================================================== *)
(** * Properties of the shutdown manager                                  *)
(* ===================================================================== *)

Module ShutdownFacts.
Import Shutdown.

Section Manager.
Context {H : Type}.
Local Abbreviation SH := (ShutdownHandler H).

Lemma insert_sorted_perm (x : SH) (l : list SH) :
  insert_sorted x l ≡ₚ x :: l.
Proof.
  induction l as [| y l IH]; [done |]. simpl.
  destruct (priority x <=? priority y); [done |].
  rewrite IH. apply Permutation_swap.
Qed.

Lemma sort_by_priority_perm (l : list SH) : sort_by_priority l ≡ₚ l.
Proof.
  induction l as [| x l IH]; [done |]. simpl.
  by rewrite insert_sorted_perm, IH.
Qed.

Lemma insert_sorted_ascending (x : SH) (l : list SH) :
  ascending l → ascending (insert_sorted x l).
Proof.
  induction l as [| y l IH]; intros Hasc.
  { simpl. split; [by intros y ?%elem_of_nil | done]. }
  simpl. destruct Hasc as [Hy Hl].
  destruct (priority x <=? priority y) eqn:Hle.
  - apply Z.leb_le in Hle. simpl. split_and!; [| done | done].
    intros z [-> | Hz]%elem_of_cons; [done |]. specialize (Hy z Hz). lia.
  - apply Z.leb_gt in Hle. simpl. split; [| by apply IH].
    intros z Hz. rewrite insert_sorted_perm in Hz.
    apply elem_of_cons in Hz as [-> | Hz]; [lia | by apply Hy].
Qed.

Lemma sort_by_priority_ascending (l : list SH) : ascending (sort_by_priority l).
Proof.
  induction l as [| x l IH]; [done |]. simpl. by apply insert_sorted_ascending.
Qed.

(** Sorting puts nothing in front of an equal-priority handler that was
    registered earlier. *)
Lemma insert_sorted_filter (p : Z) (x : SH) (l : list SH) :
  ascending l →
  filter (λ h, priority h = p) (insert_sorted x l)
  = filter (λ h, priority h = p) (x :: l).
Proof.
  induction l as [| y l IH]; intros Hasc; [done |].
  simpl. destruct Hasc as [Hy Hl].
  destruct (priority x <=? priority y) eqn:Hle; [done |].
  apply Z.leb_gt in Hle.
  rewrite (filter_cons _ y (insert_sorted x l)), IH by done.
  rewrite !filter_cons.
  destruct (decide (priority x = p)), (decide (priority y = p)); try done.
  lia.
Qed.

Lemma sort_by_priority_filter (p : Z) (l : list SH) :
  filter (λ h, priority h = p) (sort_by_priority l)
  = filter (λ h, priority h = p) l.
Proof.
  induction l as [| x l IH]; [done |]. simpl.
  rewrite insert_sorted_filter by apply sort_by_priority_ascending.
  by rewrite !filter_cons, IH.
Qed.

Lemma register_all_snoc (regs : list (string * H * option Z))
    (r : string * H * option Z) (s : State H) :
  register_all (regs ++ [r]) s
  = registerShutdownHandler r.1.1 r.1.2 r.2 (register_all regs s).
Proof. unfold register_all. by rewrite foldl_app. Qed.

Lemma register_all_spec (regs : list (string * H * option Z)) :
  let s := register_all regs initial in
  isShuttingDown s = false
  ∧ ascending (handlers s)
  ∧ handlers s ≡ₚ as_handler <$> regs
  ∧ ∀ p, filter (λ h, priority h = p) (handlers s)
         = filter (λ h, priority h = p) (as_handler <$> regs).
Proof.
  cbn zeta. induction regs as [| r regs IH] using rev_ind; [done |].
  destruct IH as (Hflag & Hasc & Hperm & Hfilter).
  rewrite register_all_snoc. unfold registerShutdownHandler; cbn.
  fold (as_handler r). rewrite fmap_app. cbn [fmap list_fmap].
  split_and!; [done | apply sort_by_priority_ascending | |].
  - by rewrite sort_by_priority_perm, Hperm.
  - intros p. by rewrite sort_by_priority_filter, !filter_app, Hfilter.
Qed.

Section Run.
Context {W : Type}.
Variable invoke : H → W → bool * W.

Lemma run_handlers_ran (hs : list SH) (w : W) :
  ran (run_handlers invoke hs w).2 = name <$> hs.
Proof.
  revert w. induction hs as [| h hs IH]; intros w; [done |].
  simpl. destruct (invoke (handler h) w) as [completed w1].
  specialize (IH w1). destruct (run_handlers invoke hs w1) as [w2 tr].
  cbn in IH |- *. by rewrite IH.
Qed.

Lemma run_handlers_length (hs : list SH) (w : W) :
  length (run_handlers invoke hs w).2 = length hs.
Proof.
  revert w. induction hs as [| h hs IH]; intros w; [done |].
  simpl. destruct (invoke (handler h) w) as [completed w1].
  specialize (IH w1). destruct (run_handlers invoke hs w1) as [w2 tr].
  cbn in IH |- *. by rewrite IH.
Qed.

Lemma gracefulShutdown_run (s : State H) (w : W) :
  isShuttingDown s = false →
  gracefulShutdown invoke s w
  = ({| handlers := handlers s; isShuttingDown := true |},
     (run_handlers invoke (handlers s) w).1,
     SetForceExitTimer 10000
     :: (run_handlers invoke (handlers s) w).2
     ++ [ClearForceExitTimer; Exit 0]).
Proof.
  intros Hflag. unfold gracefulShutdown. rewrite Hflag. cbn [handlers].
  by destruct (run_handlers invoke (handlers s) w).
Qed.

End Run.

End Manager.

(** X11: shutdown handlers are kept in ascending priority order, and
    handlers of equal priority in the order they were registered.  The
    list is a rearrangement of the registrations, whatever the order in
    which they were made. *)
Theorem handlers_sorted_by_priority_stably {H : Type}
    (regs : list (string * H * option Z)) :
  let s := register_all regs initial in
  ascending (handlers s)
  ∧ handlers s ≡ₚ as_handler <$> regs
  ∧ ∀ p, filter (λ h, priority h = p) (handlers s)
         = filter (λ h, priority h = p) (as_handler <$> regs).
Proof. cbn zeta. by destruct (register_all_spec regs) as (_ & ? & ? & ?). Qed.

(** X12: a shutdown runs every registered handler exactly once, in the
    order of the handler list, also when handlers fail.  Its effects
    are: the forced-exit timer is set to 10 s, one run per handler,
    the timer is cleared, the process exits with code 0.  A second
    signal while the shutdown is in progress runs nothing. *)
Theorem shutdown_runs_every_handler_once {H W : Type}
    (invoke : H → W → bool * W) (regs : list (string * H * option Z))
    (w : W) :
  let s := register_all regs initial in
  let r := gracefulShutdown invoke s w in
  (∃ runs, r.2 = SetForceExitTimer 10000 :: runs
                 ++ [ClearForceExitTimer; Exit 0]
           ∧ ran runs = name <$> handlers s
           ∧ length runs = length regs)
  ∧ isShutdownInProgress r.1.1 = true
  ∧ gracefulShutdown invoke r.1.1 r.1.2 = (r.1.1, r.1.2, []).
Proof.
  cbn zeta. destruct (register_all_spec regs) as (Hflag & _ & Hperm & _).
  cbn zeta in Hflag, Hperm. rewrite (gracefulShutdown_run _ _ _ Hflag).
  cbn [fst snd].
  pose proof (run_handlers_ran invoke (handlers (register_all regs initial)) w)
    as Hran.
  pose proof (run_handlers_length invoke
                (handlers (register_all regs initial)) w) as Hlen.
  destruct (run_handlers invoke _ w) as [w1 tr]. cbn [fst snd] in *.
  split_and!; [| done | done].
  exists tr. split_and!; [done | done |].
  by rewrite Hlen, Hperm, length_fmap.
Qed.

End ShutdownFacts.

(* ===================================================================== *)
(** * Properties of the health check                                      *)
(* ===================================================================== *)

Module HealthFacts.
Import Health.

Lemma Qlt_bool_true (a b : Q) : Qlt_bool a b = true ↔ (a < b)%Q.
Proof.
  unfold Qlt_bool. rewrite Qlt_alt. destruct (a ?= b)%Q; split; done.
Qed.

Lemma queue_status_code (qh : option QueueHealth) :
  getStatusCode
    match qh with
    | Some q =>
        if Qlt_bool (inject_Z (maxSize q) * (8 # 10)) (inject_Z (size q))
        then degraded else healthy
    | None => healthy
    end = 200.
Proof. destruct qh as [q |]; [| done]. by destruct (Qlt_bool _ _). Qed.

Lemma not_over_80_percent (m s : Z) :
  Qlt_bool (inject_Z m * (8 # 10)) (inject_Z s) = false →
  10 * s <= 8 * m.
Proof.
  intros Hfull.
  assert (Hn : ¬ (inject_Z m * (8 # 10) < inject_Z s)%Q).
  { rewrite <- Qlt_bool_true. by rewrite Hfull. }
  apply Qnot_lt_le in Hn. unfold Qle, Qmult, inject_Z in Hn.
  simpl in Hn. lia.
Qed.

(** X13: the detailed health check answers 503 exactly when no model is
    loaded or the pool is enabled without a single usable account, and
    200 otherwise; it answers 503 whenever the readiness probe does.
    A report of [healthy] means that, with the pool enabled, at least
    half of the accounts are usable and that an enabled queue is at most
    80% full. *)
Theorem detailed_health_status (poolEnabled : bool) (pool : list AccountStatus)
    (models : option Z) (queueStatus : QueueStatus) :
  let r := detailed poolEnabled pool models queueStatus in
  let usable_count := Z.of_nat (length (List.filter usable pool)) in
  (r.2 = 503
   ↔ default 0 models = 0 ∨ (poolEnabled = true ∧ usable_count = 0))
  ∧ (r.2 = 503 ∨ r.2 = 200)
  ∧ (ready models = 503 → r.2 = 503)
  ∧ (status r.1 = healthy →
     (poolEnabled = true → Z.of_nat (length pool) <= 2 * usable_count)
     ∧ (qs_enabled queueStatus = true →
        10 * qs_size queueStatus <= 8 * qs_maxSize queueStatus)).
Proof.
  cbn zeta. unfold detailed, ready; cbn [fst snd status].
  unfold getOverallStatus.
  destruct (default 0 models =? 0) eqn:Hm;
    [apply Z.eqb_eq in Hm | apply Z.eqb_neq in Hm].
  { split_and!; [| by left | done | done]. split; [by left | done]. }
  destruct poolEnabled; cbn [andb].
  - destruct (Z.of_nat (length (List.filter usable pool)) =? 0) eqn:Hu;
      [apply Z.eqb_eq in Hu | apply Z.eqb_neq in Hu].
    { split_and!; [| by left | done | done]. split; [by right | done]. }
    destruct (Qlt_bool _ _) eqn:Hhalf.
    { split_and!; [| by right | done | done].
      split; [done | intros [? | [_ ?]]; done]. }
    rewrite queue_status_code. split_and!.
    + split; [done | intros [? | [_ ?]]; done].
    + by right.
    + done.
    + intros Hh. split.
      * intros _.
        assert (Hn : ¬ (inject_Z (Z.of_nat (length (List.filter usable pool)))
                        < inject_Z (Z.of_nat (length pool)) / 2)%Q).
        { rewrite <- Qlt_bool_true. by rewrite Hhalf. }
        apply Qnot_lt_le in Hn. unfold Qle, Qdiv, Qmult, Qinv, inject_Z in Hn.
        simpl in Hn. lia.
      * intros Hq. unfold getQueueHealth in Hh. rewrite Hq in Hh. simpl in Hh.
        destruct (Qlt_bool (inject_Z (qs_maxSize queueStatus) * _) _)
          eqn:Hfull; [done |].
        by apply not_over_80_percent in Hfull.
  - rewrite queue_status_code. split_and!.
    + split; [done | intros [? | [? _]]; done].
    + by right.
    + done.
    + intros Hh. split; [done |].
      intros Hq. unfold getQueueHealth in Hh. rewrite Hq in Hh. simpl in Hh.
      destruct (Qlt_bool (inject_Z (qs_maxSize queueStatus) * _) _)
        eqn:Hfull; [done |].
      by apply not_over_80_percent in Hfull.
Qed.

Lemma detailed_health_status_witness :
  (detailed true [up; limited; limited] (Some 12) idle_queue).2 = 200
  ∧ status (detailed true [up; limited; limited] (Some 12) idle_queue).1
    = degraded
  ∧ (detailed true [limited] (Some 12) idle_queue).2 = 503
  ∧ (detailed false [] None idle_queue).2 = 503.
Proof.
  split_and!.
  - destruct (detailed_health_status true [up; limited; limited] (Some 12)
                idle_queue) as (H503 & [Hc | Hc] & _); [| exact Hc].
    apply H503 in Hc as [Hc | [_ Hc]]; discriminate Hc.
  - reflexivity.
  - destruct (detailed_health_status true [limited] (Some 12) idle_queue)
      as ([_ H503] & _).
    apply H503. right. split; reflexivity.
  - destruct (detailed_health_status false [] None idle_queue)
      as ([_ H503] & _).
    apply H503. left. reflexivity.
Defined.

End HealthFacts.

(* ===================================================================== *)
(** * Properties of the account pool state                                *)
(* ===================================================================== *)

Module PoolStoreFacts.
Import PoolStore.

Lemma run_op_coherent (op : Op) (s : Store) :
  coherent s → coherent (run_op op s).
Proof.
  intros Hc. destruct op; simpl; try done.
  - unfold getActiveAccounts.
    destruct (cachedActiveAccounts s) as [l |] eqn:Hl; [done |].
    by intros l' [= <-].
Qed.

Lemma run_op_version (op : Op) (s : Store) :
  cacheVersion (run_op op s) = cacheVersion s + invalidations [op].
Proof.
  destruct op; simpl; unfold invalidations; simpl; try lia.
  unfold getActiveAccounts. destruct (cachedActiveAccounts s); simpl; lia.
Qed.

Lemma run_ops_spec (ops : list Op) (s : Store) :
  coherent s →
  coherent (run_ops ops s)
  ∧ cacheVersion (run_ops ops s) = cacheVersion s + invalidations ops.
Proof.
  revert s. induction ops as [| op ops IH]; intros s Hc.
  { split; [done |]. unfold invalidations; simpl. lia. }
  destruct (IH (run_op op s) (run_op_coherent op s Hc)) as [Hc' Hv].
  split; [done |]. change (run_ops (op :: ops) s) with (run_ops ops (run_op op s)).
  rewrite Hv, run_op_version. unfold invalidations. simpl.
  destruct op; simpl; lia.
Qed.

Lemma getActiveAccounts_caches (s : Store) :
  cachedActiveAccounts (getActiveAccounts s).2 = Some (getActiveAccounts s).1
  ∧ cacheVersion (getActiveAccounts s).2 = cacheVersion s
  ∧ poolState (getActiveAccounts s).2 = poolState s.
Proof.
  unfold getActiveAccounts.
  by destruct (cachedActiveAccounts s) as [l |] eqn:Hl.
Qed.

Lemma getActiveAccounts_cached (s : Store) (l : list AccountStatus) :
  cachedActiveAccounts s = Some l → getActiveAccounts s = (l, s).
Proof. intros Hl. unfold getActiveAccounts. by rewrite Hl. Qed.

(** X14: [getActiveAccounts] is never stale under [setPoolState].  After
    any sequence of state replacements, configuration changes,
    invalidations and reads on the initial store, it returns exactly the
    accounts of the current pool state that are active, not rate
    limited and not paused, in pool order, and [getCacheVersion] has
    counted the invalidations. *)
Theorem active_accounts_follow_setPoolState (ops : list Op) :
  let s := run_ops ops initial in
  (getActiveAccounts s).1 = List.filter usable (accounts (poolState s))
  ∧ (getActiveAccounts (getActiveAccounts s).2).1 = (getActiveAccounts s).1
  ∧ getCacheVersion s = invalidations ops.
Proof.
  cbn zeta. destruct (run_ops_spec ops initial) as [Hc Hv]; [done |].
  set (s := run_ops ops initial) in *. unfold getCacheVersion.
  split_and!; [| | by rewrite Hv].
  - unfold getActiveAccounts.
    destruct (cachedActiveAccounts s) as [l |] eqn:Hl; [by apply Hc | done].
  - destruct (getActiveAccounts_caches s) as (Hl & _).
    by rewrite (getActiveAccounts_cached _ _ Hl).
Qed.

(** X15: [loadPoolState] replaces the pool state without invalidating the
    cached list of active accounts: when [getActiveAccounts] was called
    before the load, it keeps returning the list computed then, whatever
    accounts the file holds, until the next invalidation. *)
Theorem loadPoolState_keeps_the_cached_accounts (s : Store)
    (file : option SavedPool) :
  let before := getActiveAccounts s in
  let loaded := loadPoolState file before.2 in
  (getActiveAccounts loaded).1 = before.1
  ∧ getCacheVersion loaded = getCacheVersion s
  ∧ (getActiveAccounts (invalidateActiveAccountsCache loaded)).1
    = List.filter usable (accounts (poolState loaded)).
Proof.
  cbn zeta. destruct (getActiveAccounts_caches s) as (Hl & Hv & _).
  set (s1 := (getActiveAccounts s).2) in *.
  set (l := (getActiveAccounts s).1) in *.
  unfold getCacheVersion. rewrite <- Hv.
  split_and!; [| by destruct file | done].
  rewrite (getActiveAccounts_cached _ l); [done |].
  by destruct file.
Qed.

Lemma loadPoolState_keeps_the_cached_accounts_witness :
  (getActiveAccounts (loadPoolState (Some saved_two)
                        (getActiveAccounts initial).2)).1 = []
  ∧ accounts (poolState (loadPoolState (Some saved_two)
                           (getActiveAccounts initial).2))
    = [account "ann" true; account "bob" true].
Proof.
  split.
  - destruct (loadPoolState_keeps_the_cached_accounts initial (Some saved_two))
      as (H & _).
    exact H.
  - reflexivity.
Defined.

End PoolStoreFacts.

(* ===================================================================== *)
(** * Spacing guaranteed by the rate-limit gate                           *)
(* ===================================================================== *)

Module RateLimitSpacingFacts.
Import RateLimit RateLimitFacts.

(** X16: admitted requests are at least [rateLimitSeconds] apart.  With
    an interval configured and a previous request recorded, whenever
    [checkRateLimit] returns normally the timestamp it records is the
    time at which it returns and lies at least the interval after the
    previous one, provided timers do not fire early; when it throws,
    the status is 429 and neither the timestamp nor the clock has
    moved. *)
Theorem admitted_requests_are_spaced (state : State) (w : World)
    (limit : Q) (last : Z) :
  rateLimitSeconds state = Some limit →
  lastRequestTimestamp state = Some last → last ≠ 0 →
  0 <= timerLag w →
  let r := checkRateLimit state w in
  match r.1.1.1 with
  | Returned =>
      lastRequestTimestamp r.1.1.2 = Some (clock r.1.2)
      ∧ (limit * (1000 # 1) <= inject_Z (clock r.1.2 - last))%Q
      ∧ clock w <= clock r.1.2
  | ThrewHTTPError _ status =>
      status = 429 ∧ r.1.1.2 = state ∧ r.1.2 = w ∧ r.2 ≠ []
      ∧ rateLimitWait state = false
  end.
Proof.
  intros Hlim Hlast Hnz Hlag. cbn zeta. unfold checkRateLimit.
  rewrite Hlim, Hlast, falsy_timestamp_nonzero by done. simpl default.
  set (el := ((clock w - last) # 1000)%Q).
  assert (Hel : (el * (1000 # 1) == inject_Z (clock w - last))%Q).
  { unfold el, Qeq, Qmult, inject_Z. simpl. lia. }
  destruct (Qgt_bool el limit) eqn:Hgt.
  - apply Qgt_bool_true in Hgt. cbn.
    split_and!; [done | | lia]. rewrite <- Hel. nra.
  - apply Qgt_bool_false in Hgt.
    destruct (rateLimitWait state) eqn:Hwait; cbn.
    + destruct (wait_covers_remainder limit el) as [Hcover _].
      set (waitMs := Qceiling (limit - el) * 1000) in *.
      assert (Hpos : 0 <= waitMs).
      { assert (H0 : (0 <= limit - el)%Q) by lra.
        assert (Hq : (0 <= inject_Z waitMs)%Q) by nra.
        by rewrite (Zle_Qle 0 waitMs). }
      split_and!; [done | | lia].
      replace (clock w + waitMs + timerLag w - last)
        with ((clock w - last) + waitMs + timerLag w) by lia.
      rewrite !inject_Z_plus, <- Hel.
      assert (Hl : (0 <= inject_Z (timerLag w))%Q)
        by (by rewrite <- (Zle_Qle 0)).
      lra.
    + split_and!; done.
Qed.

Lemma admitted_requests_are_spaced_witness :
  lastRequestTimestamp (checkRateLimit (paced true) at_4000).1.1.2
  = Some (clock (checkRateLimit (paced true) at_4000).1.2)
  ∧ ((10 # 1) * (1000 # 1)
     <= inject_Z (clock (checkRateLimit (paced true) at_4000).1.2 - 1000))%Q
  ∧ clock at_4000 <= clock (checkRateLimit (paced true) at_4000).1.2.
Proof.
  apply (admitted_requests_are_spaced (paced true) at_4000 (10 # 1) 1000);
    [reflexivity | reflexivity | discriminate | by vm_compute].
Defined.

End RateLimitSpacingFacts.

(* ===================================================================== *)
(** * Properties of the Claude CLI configuration                          *)
(* ===================================================================== *)

Module ClaudeCliFacts.
Import ClaudeCli.

Lemma filter_all {A : Type} (P : A → Prop) `{!∀ x, Decision (P x)}
    (l : list A) :
  (∀ x, x ∈ l → P x) → filter P l = l.
Proof.
  induction l as [| x l IH]; intros HP; [done |].
  rewrite filter_cons_True by (apply HP; by left).
  rewrite IH; [done |]. intros y Hy. apply HP. by right.
Qed.

Lemma filter_none {A : Type} (P : A → Prop) `{!∀ x, Decision (P x)}
    (l : list A) :
  (∀ x, x ∈ l → ¬ P x) → filter P l = [].
Proof.
  induction l as [| x l IH]; intros HP; [done |].
  rewrite filter_cons_False by (apply HP; by left).
  apply IH. intros y Hy. apply HP. by right.
Qed.

Lemma elem_of_dedup (x : string) (l : list string) : x ∈ dedup l ↔ x ∈ l.
Proof.
  induction l as [| y l IH]; [done |]. simpl.
  rewrite !elem_of_cons, list_elem_of_filter, IH.
  destruct (decide (x = y)); [by subst; tauto | tauto].
Qed.

Lemma NoDup_dedup (l : list string) : NoDup (dedup l).
Proof.
  induction l as [| y l IH]; [constructor |]. simpl. constructor.
  - rewrite list_elem_of_filter. tauto.
  - by apply NoDup_filter.
Qed.

Lemma filter_filter_comm (x y : string) (l : list string) :
  filter (λ z, z ≠ x) (filter (λ z, z ≠ y) l)
  = filter (λ z, z ≠ y) (filter (λ z, z ≠ x) l).
Proof.
  induction l as [| z l IH]; [done |].
  rewrite !(filter_cons _ z l).
  destruct (decide (z ≠ y)), (decide (z ≠ x));
    rewrite ?filter_cons_True, ?filter_cons_False by done; by rewrite ?IH.
Qed.

Lemma dedup_filter (x : string) (l : list string) :
  dedup (filter (λ z, z ≠ x) l) = filter (λ z, z ≠ x) (dedup l).
Proof.
  induction l as [| y l IH]; [done |].
  rewrite (filter_cons _ y l). destruct (decide (y ≠ x)) as [Hne | Heq].
  - simpl. rewrite filter_cons_True by done. rewrite IH.
    by rewrite filter_filter_comm.
  - apply dec_stable in Heq. subst y. simpl.
    rewrite filter_cons_False by (intros ?; done).
    rewrite IH. symmetry.
    apply list_filter_filter_l. done.
Qed.

Lemma dedup_app (a b : list string) :
  dedup (a ++ b) = dedup a ++ filter (λ x, x ∉ a) (dedup b).
Proof.
  induction a as [| x a IH].
  { simpl. symmetry. apply filter_all. intros y _. apply not_elem_of_nil. }
  simpl. rewrite IH, filter_app. f_equal. f_equal.
  rewrite list_filter_filter. apply list_filter_iff.
  intros y. rewrite not_elem_of_cons. done.
Qed.

Lemma dedup_NoDup (l : list string) : NoDup l → dedup l = l.
Proof.
  induction 1 as [| x l Hx Hnd IH]; [done |]. simpl. rewrite IH. f_equal.
  apply filter_all. intros y Hy ->. done.
Qed.

Lemma dedup_absorb (l m : list string) :
  m ⊆ l → dedup (l ++ m) = dedup l.
Proof.
  intros Hsub. rewrite dedup_app.
  replace (filter (λ x, x ∉ l) (dedup m)) with (@nil string);
    [by rewrite app_nil_r |].
  symmetry. apply filter_none. intros y Hy Hn.
  rewrite elem_of_dedup in Hy. apply Hn. by apply Hsub.
Qed.

Lemma dedup_twice (a b : list string) :
  dedup (dedup (a ++ b) ++ b) = dedup (a ++ b).
Proof.
  rewrite dedup_absorb.
  - apply dedup_NoDup, NoDup_dedup.
  - intros x Hx. apply elem_of_dedup, elem_of_app. by right.
Qed.

Section Config.
Context {J : Type}.

Lemma spread_lookup {V : Type} (a b : gmap string V) (k : string) :
  spread a b !! k = match b !! k with Some v => Some v | None => a !! k end.
Proof.
  unfold spread. rewrite lookup_union. by destruct (b !! k), (a !! k).
Qed.

Lemma spread_twice {V : Type} (a b : gmap string V) :
  spread (spread a b) b = spread a b.
Proof.
  unfold spread. by rewrite (assoc_L (∪)), (idemp_L (∪)).
Qed.

End Config.

(** X17: what [updateClaudeConfig] merges and what it drops.  Every
    environment variable takes the value given in the updates, or keeps
    the value in the settings file; keys outside [env] and [permissions]
    behave the same way.  When only one side has permissions, they are
    taken as they are.  When both sides have permissions, the result
    holds [allow] and [deny] only: each list is the file's list without
    repetitions followed by the new entries of the updates, so that no
    allow or deny rule is dropped or duplicated, but every other key of
    the file's [permissions] object (and of the updates') is lost. *)
Theorem updateClaudeConfig_merges_allow_and_deny_only {J : Type}
    (updates : ClaudeConfig J) (file : option (ClaudeConfig J)) :
  let current := readClaudeConfig file in
  let r := updateClaudeConfig updates file in
  (∀ k, env r ≫= (.!! k)
        = match env updates ≫= (.!! k) with
          | Some v => Some v
          | None => env current ≫= (.!! k)
          end)
  ∧ (∀ k, others r !! k
          = match others updates !! k with
            | Some v => Some v
            | None => others current !! k
            end)
  ∧ (permissions updates = None → permissions r = permissions current)
  ∧ (permissions current = None → permissions r = permissions updates)
  ∧ (∀ u c, permissions updates = Some u → permissions current = Some c →
       let ca := default [] (allow c) in
       let cd := default [] (deny c) in
       permissions r
       = Some {| allow := Some (dedup ca ++ filter (λ x, x ∉ ca)
                                               (dedup (default [] (allow u))));
                 deny := Some (dedup cd ++ filter (λ x, x ∉ cd)
                                             (dedup (default [] (deny u))));
                 p_others := ∅ |}
       ∧ ∀ k, (permissions r ≫= λ p, p_others p !! k) = None).
Proof.
  cbn zeta. unfold updateClaudeConfig.
  set (current := readClaudeConfig file). cbn [env permissions others].
  split_and!.
  - intros k. destruct (env updates) as [u |], (env current) as [c |];
      simpl; try done.
    + apply spread_lookup.
    + by destruct (u !! k).
  - intros k. apply spread_lookup.
  - intros ->. done.
  - intros ->. by destruct (permissions updates).
  - intros u c -> ->. cbn zeta. split; [by rewrite <- !dedup_app |].
    intros k. simpl. apply lookup_empty.
Qed.

(** X18: applying the same updates twice changes nothing more, provided
    the settings file already had a [permissions] entry or the updates
    have none: the second call writes the file the first call wrote. *)
Theorem updateClaudeConfig_idempotent {J : Type} (updates : ClaudeConfig J)
    (file : option (ClaudeConfig J)) :
  permissions updates = None
  ∨ is_Some (permissions (readClaudeConfig file)) →
  updateClaudeConfig updates (Some (updateClaudeConfig updates file))
  = updateClaudeConfig updates file.
Proof.
  intros Hperm.
  assert (Hcur : ∃ c, readClaudeConfig file = c
                      ∧ (permissions updates = None ∨ is_Some (permissions c)))
    by eauto.
  destruct Hcur as (c & Hc & Hp). clear Hperm.
  unfold updateClaudeConfig. rewrite Hc. clear Hc file.
  unfold readClaudeConfig.
  destruct updates as [ue up uo], c as [ce cp co];
    cbn [env permissions others default from_option id] in *.
  f_equal.
  - destruct ue as [ue |], ce as [ce |]; try done.
    + by rewrite spread_twice.
    + unfold spread. by rewrite (idemp_L (∪)).
  - destruct up as [up |]; [| by destruct cp].
    destruct Hp as [? | [cp' ->]]; [done |].
    cbn [allow deny p_others default from_option id].
    by rewrite !dedup_twice.
  - by rewrite spread_twice.
Qed.

Lemma updateClaudeConfig_idempotent_witness :
  updateClaudeConfig (generateCopilotConfig "http://localhost:4141" "gpt-4.1" "gpt-4o-mini")
    (Some (updateClaudeConfig
             (generateCopilotConfig "http://localhost:4141" "gpt-4.1" "gpt-4o-mini")
             (Some user_settings)))
  = updateClaudeConfig
      (generateCopilotConfig "http://localhost:4141" "gpt-4.1" "gpt-4o-mini")
      (Some user_settings).
Proof.
  apply (updateClaudeConfig_idempotent
           (generateCopilotConfig "http://localhost:4141" "gpt-4.1" "gpt-4o-mini")
           (Some user_settings)).
  right. simpl. eauto.
Defined.

(** The Copilot settings applied to [user_settings]: the deny rule is
    not duplicated, the allow rule stays, the permission mode is gone. *)
Lemma updateClaudeConfig_merges_allow_and_deny_only_witness :
  let r := updateClaudeConfig
             (generateCopilotConfig "http://localhost:4141" "gpt-4.1"
                "gpt-4o-mini")
             (Some user_settings) in
  permissions r
  = Some {| allow := Some ["Bash"]; deny := Some ["WebSearch"];
            p_others := ∅ |}
  ∧ (permissions user_settings ≫= λ p, p_others p !! "defaultMode")
    = Some "acceptEdits"
  ∧ (permissions r ≫= λ p, p_others p !! "defaultMode") = None.
Proof.
  destruct (updateClaudeConfig_merges_allow_and_deny_only
              (generateCopilotConfig "http://localhost:4141" "gpt-4.1"
                 "gpt-4o-mini")
              (Some user_settings)) as (_ & _ & _ & _ & H).
  destruct (H _ _ eq_refl eq_refl) as [Hp Hlost].
  split_and!; [by rewrite Hp | reflexivity | apply Hlost].
Defined.

End ClaudeCliFacts.

(* ===================================================================== *)
(** * Properties of the retry trace and of fetch with timeout             *)
(* ===================================================================== *)

Module RetryTraceFacts.
Import Retry RetryFacts RetryTrace.

Section Loop.
Context {W T : Type}.
Variable fn : W → (Thrown + T) * W.
Variable random : Z → Q.
Variable opts : RetryOptions.



End Loop.


End RetryTraceFacts.

Module FetchTimeoutFacts.
Import Retry RetryFacts FetchTimeout.

(** X20: a timeout raised by [fetchWithTimeout] is not retried.  When the
    request is aborted, [fetchWithTimeout] clears its timer and throws a
    plain [Error], which [withRetry] classifies as not retryable: the
    wrapped thunk is invoked once and the timeout error propagates
    without a sleep.  The [AbortError] of a bare [fetch], in contrast,
    counts as a network error and is retried. *)
Theorem timeout_is_not_retried {W R : Type}
    (fetch : string → W → (Caught + R) * W) (random : Z → Q)
    (options : PartialRetryOptions) (url : string) (timeout : option Z)
    (w : W) (c : Caught) :
  1 <= maxAttempts (merge_options DEFAULT_OPTIONS options) →
  (fetch url w).1 = inl c → is_abort c = true →
  fetchWithTimeout fetch url timeout w
  = (inl (RequestTimeout (default 30000 timeout) url), (fetch url w).2,
     [SetTimeout (default 30000 timeout); Fetch url; ClearTimeout])
  ∧ withRetry (fetching fetch url timeout) random options w
    = Some (inl (as_thrown (RequestTimeout (default 30000 timeout) url)),
            (fetch url w).2, [Invoke])
  ∧ retryable (merge_options DEFAULT_OPTIONS options) (thrown c) = true.
Proof.
  intros Hmax Hfetch Habort.
  assert (Hft : fetchWithTimeout fetch url timeout w
    = (inl (RequestTimeout (default 30000 timeout) url), (fetch url w).2,
       [SetTimeout (default 30000 timeout); Fetch url; ClearTimeout])).
  { unfold fetchWithTimeout. destruct (fetch url w) as [r w1].
    simpl in Hfetch. subst r. by rewrite Habort. }
  split_and!; [done | |].
  - unfold withRetry.
    set (opts := merge_options DEFAULT_OPTIONS options) in *.
    destruct (Z.to_nat (maxAttempts opts)) as [| fuel] eqn:Hfuel; [lia |].
    rewrite (retry_loop_give_up _ _ _ fuel 1 ErrUndefined w []
               (as_thrown (RequestTimeout (default 30000 timeout) url))
               (fetch url w).2); [done | lia | | by right].
    unfold fetching. by rewrite Hft.
  - unfold retryable, is_abort in *.
    apply andb_true_iff in Habort as [_ Hname].
    destruct (thrown c) as [e | |]; [| done | done].
    apply orb_true_iff. right. unfold isNetworkError. rewrite Hname.
    by destruct (_ || _).
Qed.

Lemma timeout_is_not_retried_witness :
  withRetry (fetching hangs "https://api.github.com/user" (Some 10000))
    (λ _, 0%Q) no_options 0%nat
  = Some (inl (as_thrown (RequestTimeout 10000 "https://api.github.com/user")),
          1%nat, [Invoke]).
Proof.
  destruct (timeout_is_not_retried hangs (λ _, 0%Q) no_options
              "https://api.github.com/user" (Some 10000) 0%nat abort_error)
    as (_ & H & _); [by vm_compute | reflexivity | reflexivity |].
  exact H.
Defined.

End FetchTimeoutFacts.

(* ===================================================================== *)
(** * Further properties of the streaming translator                      *)
(* ===================================================================== *)

Module StreamObsFacts.
Import Stream StreamObs StreamFacts.

(** ** Text *)

Lemma text_deltas_app (a b : list Event) :
  text_deltas (a ++ b) = text_deltas a ++ text_deltas b.
Proof. apply omap_app. Qed.

Lemma handleTextContent_text st text evs :
  text_deltas (handleTextContent st text evs).2 = text_deltas evs ++ [text].
Proof.
  unfold handleTextContent.
  destruct (isToolBlockOpen st); simpl;
    [| destruct (contentBlockOpen st); simpl];
    rewrite !text_deltas_app; simpl; by rewrite ?app_nil_r.
Qed.

Lemma handleToolCall_text acc tc :
  text_deltas (handleToolCall acc tc).2 = text_deltas acc.2.
Proof.
  destruct acc as [st evs]. unfold handleToolCall.
  destruct (match truthy (tc_id tc) with Some tid => _ | None => _ end)
    as [st1 evs1] eqn:E1.
  assert (H1 : text_deltas evs1 = text_deltas evs).
  { destruct (truthy (tc_id tc)); [| by injection E1 as <- <-].
    destruct (truthy _); [| by injection E1 as <- <-].
    unfold handleNewToolCall in E1.
    destruct (contentBlockOpen st); simpl in E1; injection E1 as <- <-;
      rewrite !text_deltas_app; simpl; by rewrite ?app_nil_r. }
  destruct (truthy (tc_function tc ≫= fn_arguments)); [| done].
  unfold handleToolCallArguments.
  destruct (toolCalls st1 !! tc_index tc); [| done].
  simpl. rewrite text_deltas_app. simpl. by rewrite app_nil_r.
Qed.

Lemma fold_handleToolCall_text tcs acc :
  text_deltas (fold_left handleToolCall tcs acc).2 = text_deltas acc.2.
Proof.
  revert acc. induction tcs as [| tc tcs IH]; intros acc; [done |].
  simpl. by rewrite IH, handleToolCall_text.
Qed.

Lemma handleFinishReason_text chunk st fr evs :
  text_deltas (handleFinishReason chunk st fr evs).2 = text_deltas evs.
Proof.
  unfold handleFinishReason. destruct (contentBlockOpen st); simpl;
    rewrite !text_deltas_app; simpl; by rewrite ?app_nil_r.
Qed.

Lemma translateChunk_text chunk st :
  text_deltas (translateChunkToAnthropicEvents chunk st).1
  = match chunk_text chunk with Some t => [t] | None => [] end.
Proof.
  unfold translateChunkToAnthropicEvents, chunk_text.
  destruct (choices chunk) as [| choice rest]; [done |].
  destruct (if negb (messageStartSent st) then _ else _)
    as [st1 evs1] eqn:E1.
  assert (H1 : text_deltas evs1 = []).
  { destruct (negb _); by injection E1 as <- <-. }
  destruct (match truthy (content (delta choice)) with
            | Some text => _ | None => _ end) as [st2 evs2] eqn:E2.
  assert (H2 : text_deltas evs2
               = match truthy (content (delta choice)) with
                 | Some t => [t] | None => []
                 end).
  { destruct (truthy _) as [t |].
    - pose proof (handleTextContent_text st1 t evs1) as Ht.
      rewrite E2 in Ht. simpl in Ht. by rewrite Ht, H1.
    - by injection E2 as <- <-. }
  destruct (match tool_calls (delta choice) with
            | Some tcs => _ | None => _ end) as [st3 evs3] eqn:E3.
  assert (H3 : text_deltas evs3 = text_deltas evs2).
  { destruct (tool_calls _) as [tcs |].
    - pose proof (fold_handleToolCall_text tcs (st2, evs2)) as Ht.
      by rewrite E3 in Ht.
    - by injection E3 as <- <-. }
  destruct (finish_reason choice) as [fr |].
  - pose proof (handleFinishReason_text chunk st3 fr evs3) as Ht.
    destruct (handleFinishReason chunk st3 fr evs3) as [st4 evs4].
    simpl in *. congruence.
  - simpl. congruence.
Qed.

(** X21: the translator forwards every piece of text once and in order.
    Whatever the state of the connection, the [text_delta] events of a
    chunk sequence carry exactly the non-empty contents of the chunks
    that have a choice, one delta per chunk: no text is dropped,
    repeated or merged, and an empty content yields no delta. *)
Theorem text_is_forwarded_unchanged (chunks : list Chunk) (state : State) :
  text_deltas (translateStream chunks state).1 = omap chunk_text chunks.
Proof.
  revert state. induction chunks as [| c rest IH]; intros st; [done |].
  simpl. pose proof (translateChunk_text c st) as Hc.
  destruct (translateChunkToAnthropicEvents c st) as [evs st1].
  specialize (IH st1). destruct (translateStream rest st1) as [evs' st2].
  simpl in *. rewrite text_deltas_app, Hc, IH.
  by destruct (chunk_text c).
Qed.

(** ** Message start *)

Lemma starts_app (a b : list Event) :
  List.filter is_message_start (a ++ b)
  = List.filter is_message_start a ++ List.filter is_message_start b.
Proof. apply List.filter_app. Qed.

Lemma handleTextContent_starts st text evs :
  List.filter is_message_start (handleTextContent st text evs).2
  = List.filter is_message_start evs.
Proof.
  unfold handleTextContent.
  destruct (isToolBlockOpen st); simpl;
    [| destruct (contentBlockOpen st); simpl];
    rewrite !starts_app; simpl; by rewrite ?app_nil_r.
Qed.

Lemma handleToolCall_starts acc tc :
  List.filter is_message_start (handleToolCall acc tc).2
  = List.filter is_message_start acc.2.
Proof.
  destruct acc as [st evs]. unfold handleToolCall.
  destruct (match truthy (tc_id tc) with Some tid => _ | None => _ end)
    as [st1 evs1] eqn:E1.
  assert (H1 : List.filter is_message_start evs1
               = List.filter is_message_start evs).
  { destruct (truthy (tc_id tc)); [| by injection E1 as <- <-].
    destruct (truthy _); [| by injection E1 as <- <-].
    unfold handleNewToolCall in E1.
    destruct (contentBlockOpen st); simpl in E1; injection E1 as <- <-;
      rewrite !starts_app; simpl; by rewrite ?app_nil_r. }
  destruct (truthy (tc_function tc ≫= fn_arguments)); [| done].
  unfold handleToolCallArguments.
  destruct (toolCalls st1 !! tc_index tc); [| done].
  simpl. rewrite starts_app. simpl. by rewrite app_nil_r.
Qed.

Lemma fold_handleToolCall_starts tcs acc :
  List.filter is_message_start (fold_left handleToolCall tcs acc).2
  = List.filter is_message_start acc.2.
Proof.
  revert acc. induction tcs as [| tc tcs IH]; intros acc; [done |].
  simpl. by rewrite IH, handleToolCall_starts.
Qed.

Lemma handleFinishReason_starts chunk st fr evs :
  List.filter is_message_start (handleFinishReason chunk st fr evs).2
  = List.filter is_message_start evs.
Proof.
  unfold handleFinishReason. destruct (contentBlockOpen st); simpl;
    rewrite !starts_app; simpl; by rewrite ?app_nil_r.
Qed.

Lemma translateChunk_starts chunk st :
  choices chunk ≠ [] →
  List.filter is_message_start (translateChunkToAnthropicEvents chunk st).1
  = if messageStartSent st then [] else [createMessageStartEvent chunk].
Proof.
  unfold translateChunkToAnthropicEvents.
  destruct (choices chunk) as [| choice rest]; [done |]. intros _.
  destruct (if negb (messageStartSent st) then _ else _)
    as [st1 evs1] eqn:E1.
  assert (H1 : List.filter is_message_start evs1
               = if messageStartSent st then []
                 else [createMessageStartEvent chunk]).
  { destruct (messageStartSent st); by injection E1 as <- <-. }
  destruct (match truthy (content (delta choice)) with
            | Some text => _ | None => _ end) as [st2 evs2] eqn:E2.
  assert (H2 : List.filter is_message_start evs2
               = List.filter is_message_start evs1).
  { destruct (truthy _) as [t |].
    - pose proof (handleTextContent_starts st1 t evs1) as Ht.
      by rewrite E2 in Ht.
    - by injection E2 as <- <-. }
  destruct (match tool_calls (delta choice) with
            | Some tcs => _ | None => _ end) as [st3 evs3] eqn:E3.
  assert (H3 : List.filter is_message_start evs3
               = List.filter is_message_start evs2).
  { destruct (tool_calls _) as [tcs |].
    - pose proof (fold_handleToolCall_starts tcs (st2, evs2)) as Ht.
      by rewrite E3 in Ht.
    - by injection E3 as <- <-. }
  destruct (finish_reason choice) as [fr |].
  - pose proof (handleFinishReason_starts chunk st3 fr evs3) as Ht.
    destruct (handleFinishReason chunk st3 fr evs3) as [st4 evs4].
    simpl in *. congruence.
  - simpl. congruence.
Qed.

Lemma translateStream_starts chunks st :
  List.filter is_message_start (translateStream chunks st).1
  = if messageStartSent st then []
    else match first_with_choices chunks with
         | Some c => [createMessageStartEvent c]
         | None => []
         end.
Proof.
  revert st. induction chunks as [| c rest IH]; intros st.
  { simpl. by destruct (messageStartSent st). }
  simpl. unfold first_with_choices. simpl.
  fold (first_with_choices rest).
  destruct (decide (choices c = [])) as [Hnil | Hcons].
  - assert (Hn : no_choices c = true) by (unfold no_choices; by rewrite Hnil).
    rewrite translateChunk_no_choices, Hn by done. simpl.
    specialize (IH st). by destruct (translateStream rest st).
  - assert (Hn : no_choices c = false)
      by (unfold no_choices; by destruct (choices c)).
    rewrite Hn. simpl.
    pose proof (translateChunk_starts c st Hcons) as Hc.
    destruct (translateChunk_ok c st Hcons) as (_ & _ & _ & Hsent & _).
    destruct (translateChunkToAnthropicEvents c st) as [evs st1].
    specialize (IH st1). destruct (translateStream rest st1) as [evs' st2].
    simpl in *. rewrite starts_app, Hc, IH, Hsent.
    by rewrite app_nil_r.
Qed.

Lemma translateStream_head chunks st :
  messageStartSent st = false →
  head (translateStream chunks st).1
  = createMessageStartEvent <$> first_with_choices chunks.
Proof.
  revert st. induction chunks as [| c rest IH]; intros st Hs; [done |].
  simpl. unfold first_with_choices. simpl. fold (first_with_choices rest).
  destruct (decide (choices c = [])) as [Hnil | Hcons].
  - assert (Hn : no_choices c = true) by (unfold no_choices; by rewrite Hnil).
    rewrite translateChunk_no_choices, Hn by done. simpl.
    specialize (IH st Hs). by destruct (translateStream rest st).
  - assert (Hn : no_choices c = false)
      by (unfold no_choices; by destruct (choices c)).
    rewrite Hn. simpl.
    destruct (translateChunk_ok c st Hcons) as (_ & _ & _ & _ & Hhd).
    specialize (Hhd Hs).
    destruct (translateChunkToAnthropicEvents c st) as [evs st1].
    destruct (translateStream rest st1) as [evs' st2]. simpl in *.
    by destruct evs.
Qed.

(** X22: [message_start] is sent exactly once, and first.  On a fresh
    connection the events of any chunk sequence begin with the
    [message_start] built from the first chunk that carries a choice
    and hold no other [message_start]; a sequence without such a chunk
    yields no event at all. *)
Theorem message_start_is_sent_once (chunks : list Chunk) :
  let evs := (translateStream chunks fresh_state).1 in
  List.filter is_message_start evs
  = match first_with_choices chunks with
    | Some c => [createMessageStartEvent c]
    | None => []
    end
  ∧ head evs = createMessageStartEvent <$> first_with_choices chunks
  ∧ (first_with_choices chunks = None ↔ evs = []).
Proof.
  cbn zeta. pose proof (translateStream_starts chunks fresh_state) as Hs.
  pose proof (translateStream_head chunks fresh_state eq_refl) as Hh.
  simpl in Hs. split_and!; [done | done |].
  split.
  - intros Hnone. rewrite translateStream_no_choices; [done |].
    unfold first_with_choices in Hnone.
    apply forallb_forall. intros c Hc.
    pose proof (List.find_none _ _ Hnone c Hc) as Hn. simpl in Hn.
    by apply negb_false_iff in Hn.
  - intros Hnil. rewrite Hnil in Hh. simpl in Hh.
    by destruct (first_with_choices chunks).
Qed.

(** ** Tool-call arguments *)













End StreamObsFacts.

(* ===================================================================== *)
(** * Properties of the cache: capacity, statistics, persistence          *)
(* ===================================================================== *)

Module CacheAdminFacts.
Import Cache CacheFacts CacheAdmin.

Section Capacity.
Context {R : Type}.
Implicit Types (s : CacheState R) (cells : list cell).

(** The number of entries the configuration allows. *)
Local Abbreviation cap s := (Z.to_nat (maxSize (cacheConfig s))).

Lemma bump_length_present k fresh cells :
  NoDup cells.*2 → k ∈ cells.*2 →
  length (bump k fresh cells) = length cells.
Proof.
  intros Hnd Hin. apply list_elem_of_fmap in Hin as ([a k0] & -> & Hin).
  apply list_elem_of_split in Hin as (l1 & l2 & ->).
  rewrite bump_present by done. simpl. rewrite !length_app. simpl. lia.
Qed.

Lemma deleteCacheEntry_config k s :
  cacheConfig (deleteCacheEntry k s).2 = cacheConfig s.
Proof.
  unfold deleteCacheEntry. destruct (cache s !! k); [| done]. simpl.
  by destruct (removeNode_frame k (with_cache s (delete k (cache s)) (isDirty s)))
    as (_ & -> & _).
Qed.

(** [updateCacheConfig] on a well-formed cache: the merged
    configuration is installed, a disabled cache is emptied, and the
    entries beyond the new capacity are evicted from the tail. *)
Lemma updateCacheConfig_spec s cells config :
  cache_inv s cells →
  let cfg := merge_config (cacheConfig s) config in
  let kept := take (Z.to_nat (maxSize cfg))
                (if enabled cfg then cells else []) in
  ∃ s', updateCacheConfig config s = Some s'
        ∧ cache_inv s' kept
        ∧ cacheConfig s' = cfg
        ∧ (∀ k, cache s' !! k
                = if decide (k ∈ kept.*2) then cache s !! k else None).
Proof.
  intros Hinv cfg kept. unfold updateCacheConfig. fold cfg.
  set (s1 := with_config s cfg).
  assert (Hinv1 : cache_inv s1 cells) by (by apply with_config_inv).
  change (cacheConfig s1) with cfg. unfold kept.
  destruct (enabled cfg) eqn:Hen; simpl negb; cbv iota.
  - destruct (evict_loop_ok (S (size (cache s1))) s1 cells Hinv1)
      as (s' & Hrun & Hinv' & Hcfg & _ & Hcache).
    { rewrite (cache_inv_size _ _ Hinv1). lia. }
    exists s'. unfold evictLRU. by rewrite Hrun.
  - set (s2 := resetLRU (with_cache s1 ∅ (isDirty s1))).
    assert (Hinv2 : cache_inv s2 []) by apply cache_inv_reset.
    destruct (evict_loop_ok (S (size (cache s2))) s2 [] Hinv2)
      as (s' & Hrun & Hinv' & Hcfg & _ & Hcache).
    { simpl. lia. }
    exists s'. unfold evictLRU. rewrite Hrun. rewrite take_nil in *.
    split_and!; [done | done | done |].
    intros k. rewrite Hcache. simpl. done.
Qed.

Lemma run_op_within_capacity (op : CacheOp) s cells :
  cache_inv s cells → op_ok op → (length cells ≤ cap s)%nat →
  ∃ s' cells', run_op op s = Some s' ∧ cache_inv s' cells'
               ∧ (length cells' ≤ cap s')%nat.
Proof.
  intros Hinv Hop Hlen. pose proof Hinv as (Hok & Hkeys & Hne).
  destruct op as [now k | now o | k | | config]; simpl.
  - destruct (enabled (cacheConfig s)) eqn:Hen.
    + destruct (cache s !! k) as [e |] eqn:Hk.
      * destruct (Z_le_gt_dec (now - createdAt e)
                    (ttlSeconds (cacheConfig s) * 1000)) as [Hle | Hgt].
        -- destruct (getCachedResponse_hit s now k e Hen Hk Hle)
             as (s' & -> & _ & Hcfg & _ & _ & _ & Hinv').
           eexists _, _. split_and!; [done | by apply Hinv' |].
           cbn [snd]. rewrite Hcfg, bump_length_present; [done | |].
           ++ apply (ok_keys _ _ Hok).
           ++ apply Hkeys. eauto.
        -- destruct (getCachedResponse_expired s now k e Hen Hk Hgt)
             as (s' & -> & _ & _ & Hcfg & _ & _ & Hinv').
           eexists _, _. split_and!; [done | by apply Hinv' |].
           cbn [snd]. rewrite Hcfg.
           pose proof (length_filter (λ c : cell, c.2 ≠ k) cells). lia.
      * destruct (getCachedResponse_absent s now k Hen Hk)
          as (s' & Hget & _ & _ & Hinv').
        assert (Hcfg : cacheConfig s' = cacheConfig s).
        { unfold getCachedResponse in Hget. rewrite Hen, Hk in Hget.
          simpl in Hget. by injection Hget as <-. }
        rewrite Hget. eexists _, _. split_and!; [done | by apply Hinv' |].
        cbn [snd]. by rewrite Hcfg.
    + unfold getCachedResponse. rewrite Hen. simpl. by exists s, cells.
  - destruct (enabled (cacheConfig s)) eqn:Hen.
    + destruct (setCachedResponse_ok s cells now o Hinv Hen Hop)
        as (s' & Hset & Hinv' & Hcfg & _).
      eexists _, _. split_and!; [done | done |].
      rewrite Hcfg, length_take. lia.
    + unfold setCachedResponse. rewrite Hen. simpl. by exists s, cells.
  - eexists _, _. split_and!; [done | by apply deleteCacheEntry_ok |].
    rewrite deleteCacheEntry_config.
    pose proof (length_filter (λ c : cell, c.2 ≠ k) cells). lia.
  - exists (clearCache s), []. split_and!; [done | apply cache_inv_reset |].
    simpl. lia.
  - destruct (updateCacheConfig_spec s cells config Hinv)
      as (s' & Hup & Hinv' & Hcfg & _).
    eexists _, _. split_and!; [done | done |].
    rewrite Hcfg, length_take. lia.
Qed.

Lemma run_ops_within_capacity (ops : list CacheOp) :
  ∀ s cells,
    cache_inv s cells → Forall op_ok ops → (length cells ≤ cap s)%nat →
    ∃ s' cells', run_ops ops s = Some s' ∧ cache_inv s' cells'
                 ∧ (length cells' ≤ cap s')%nat.
Proof.
  induction ops as [| op rest IH]; intros s cells Hinv Hops Hlen.
  - by exists s, cells.
  - apply Forall_cons in Hops as [Hop Hrest]. simpl.
    destruct (run_op_within_capacity op s cells Hinv Hop Hlen)
      as (s1 & cells1 & -> & Hinv1 & Hlen1).
    by apply (IH s1 cells1).
Qed.

End Capacity.

(** X24: the cache never holds more entries than [maxSize].  After any
    sequence of lookups, stores under non-empty keys, deletions, clears
    and configuration updates on the initial module state every call
    has returned and the number of cached entries is at most the
    configured maximum (none when the maximum is not positive), also
    right after the maximum has been lowered. *)
Theorem cache_size_never_exceeds_maxSize {R : Type}
    (ops : list (CacheOp (R := R))) :
  Forall op_ok ops →
  ∃ s, run_ops ops (initial_state R) = Some s
       ∧ Z.of_nat (size (cache s)) <= Z.max 0 (maxSize (cacheConfig s)).
Proof.
  intros Hops.
  destruct (run_ops_within_capacity ops (initial_state R) [] (cache_inv_empty _) Hops)
    as (s & cells & Hrun & Hinv & Hlen).
  { simpl. lia. }
  exists s. split; [done |]. rewrite (cache_inv_size _ _ Hinv). lia.
Qed.

Lemma cache_size_never_exceeds_maxSize_witness :
  ∃ s, run_ops shrinking (initial_state string) = Some s
       ∧ Z.of_nat (size (cache s)) <= Z.max 0 (maxSize (cacheConfig s)).
Proof.
  apply (cache_size_never_exceeds_maxSize shrinking).
  repeat constructor; apply generateCacheKey_nonempty.
Defined.

(** X25: [updateCacheConfig] installs the merged configuration and then
    trims the cache to it.  On a well-formed cache that stays enabled,
    lowering [maxSize] to [n] keeps the [n] most recently used entries
    unchanged and evicts all others; disabling the cache empties it. *)
Theorem updateCacheConfig_trims_to_the_most_recent {R : Type}
    (s : CacheState R) (cells : list cell) (config : PartialCacheConfig) :
  cache_inv s cells →
  let cfg := merge_config (cacheConfig s) config in
  let kept := take (Z.to_nat (maxSize cfg))
                (if enabled cfg then cells else []) in
  ∃ s', updateCacheConfig config s = Some s'
        ∧ cache_inv s' kept
        ∧ cacheConfig s' = cfg
        ∧ (∀ k, cache s' !! k
                = if decide (k ∈ kept.*2) then cache s !! k else None)
        ∧ (enabled cfg = false → cache s' = ∅).
Proof.
  intros Hinv cfg kept.
  destruct (updateCacheConfig_spec s cells config Hinv)
    as (s' & Hup & Hinv' & Hcfg & Hcache).
  exists s'. split_and!; [done | done | done | done |].
  intros Hdis. apply map_eq. intros k. rewrite Hcache, lookup_empty.
  fold cfg. rewrite Hdis. by rewrite take_nil.
Qed.

Lemma updateCacheConfig_trims_to_the_most_recent_witness :
  ∃ s s', after_a_b = Some s
          ∧ updateCacheConfig (only_maxSize 1) s = Some s'
          ∧ cache s' !! key_b = cache s !! key_b
          ∧ cache s' !! key_a = None.
Proof.
  destruct after_a_b_inv as (s & Hs & Hinv & Hen & Hmax & Httl & Hc & Ha).
  destruct (updateCacheConfig_trims_to_the_most_recent s _ (only_maxSize 1) Hinv)
    as (s' & Hup & _ & _ & Hcache & _).
  exists s, s'. split_and!; [exact Hs | exact Hup | |].
  - rewrite Hcache. unfold merge_config. simpl. rewrite Hen. reflexivity.
  - rewrite Hcache. unfold merge_config. simpl. rewrite Hen. reflexivity.
Defined.

Section Statistics.
Context {R : Type}.
Implicit Types (s : CacheState R).

(** The two counters a call leaves behind, as increments. *)
Local Abbreviation counted s s' dh dm :=
  (stat_hits s' = stat_hits s + dh ∧ stat_misses s' = stat_misses s + dm).

Lemma with_stats_inv s h m t d (cells : list cell) :
  cache_inv s cells → cache_inv (with_stats s h m t d) cells.
Proof.
  intros (Hok & Hkeys & Hne). split_and!; [| done..].
  by apply with_stats_lru_ok.
Qed.

Lemma getCachedResponse_counts now k s :
  let r := getCachedResponse now k s in
  if enabled (cacheConfig s) then
    match r.1 with
    | Some _ => counted s r.2 1 0
    | None => counted s r.2 0 1
    end
  else r = (None, s).
Proof.
  cbn zeta. unfold getCachedResponse.
  destruct (enabled (cacheConfig s)); [| done]. simpl.
  destruct (cache s !! k) as [e |]; [| simpl; lia].
  destruct (_ >? _).
  - simpl.
    destruct (removeNode_frame k (with_cache s (delete k (cache s)) (isDirty s)))
      as (_ & _ & _ & -> & -> & _). simpl. lia.
  - cbv zeta. cbn [fst snd].
    match goal with |- context [moveToFront _ ?s0] => set (s1 := s0) end.
    destruct (lruNodes s !! k) as [a |]; [| simpl; lia].
    destruct (moveToFront_frame a s1) as (_ & _ & _ & _ & -> & -> & _).
    simpl. lia.
Qed.

Lemma evict_loop_counts fuel :
  ∀ s s', evict_loop fuel s = Some s' → counted s s' 0 0.
Proof.
  induction fuel as [| fuel IH]; intros s s'; simpl.
  - destruct (negb _); [intros [= <-]; lia | done].
  - destruct (negb _); [intros [= <-]; lia |].
    destruct (removeTail_frame s) as (_ & _ & Hh & Hm & _).
    destruct (removeTail s) as [[k |] s1]; simpl in *.
    + case_bool_decide; [intros [= <-]; lia |].
      intros Hrun. apply IH in Hrun. simpl in Hrun. lia.
    + intros [= <-]. lia.
Qed.

Lemma run_op_counts (op : CacheOp) s s' :
  run_op op s = Some s' →
  stat_hits s' + stat_misses s' = stat_hits s + stat_misses s + is_lookup op s
  ∧ stat_hits s <= stat_hits s' ∧ stat_misses s <= stat_misses s'.
Proof.
  destruct op as [now k | now o | k | | config]; cbn [run_op is_lookup].
  - intros [= <-]. pose proof (getCachedResponse_counts now k s) as Hc.
    cbn zeta in Hc. destruct (enabled (cacheConfig s)).
    + destruct (getCachedResponse now k s).1; lia.
    + rewrite Hc. simpl. lia.
  - unfold setCachedResponse. destruct (negb _); [intros [= <-]; lia |].
    intros Hrun. apply evict_loop_counts in Hrun. simpl in Hrun.
    destruct (bool_decide _).
    + destruct (lruNodes s !! o_key o) as [a |]; [| simpl in Hrun; lia].
      destruct (moveToFront_frame a s) as (_ & _ & _ & _ & Hh & Hm & _).
      lia.
    + simpl in Hrun. lia.
  - intros [= <-]. unfold deleteCacheEntry.
    destruct (cache s !! k); [| simpl; lia]. simpl.
    destruct (removeNode_frame k (with_cache s (delete k (cache s)) (isDirty s)))
      as (_ & _ & _ & -> & -> & _). simpl. lia.
  - intros [= <-]. simpl. lia.
  - unfold updateCacheConfig. intros Hrun.
    apply evict_loop_counts in Hrun. destruct (negb _); simpl in Hrun; lia.
Qed.

Lemma run_ops_counts (ops : list CacheOp) :
  ∀ s s', run_ops ops s = Some s' →
    stat_hits s' + stat_misses s' = stat_hits s + stat_misses s + lookups ops s
    ∧ stat_hits s <= stat_hits s' ∧ stat_misses s <= stat_misses s'.
Proof.
  induction ops as [| op rest IH]; intros s s'.
  { intros [= <-]. simpl. lia. }
  cbn [run_ops lookups].
  destruct (run_op op s) as [s1 |] eqn:Hop; [| done].
  intros Hrun. apply IH in Hrun. apply run_op_counts in Hop. lia.
Qed.

End Statistics.

(** X26: hits plus misses counts the lookups.  From any well-formed
    state of the module, a sequence of [getCachedResponse],
    [setCachedResponse] (under non-empty keys), [deleteCacheEntry],
    [clearCache] and [updateCacheConfig] calls returns, lowers neither
    counter, and raises their sum by exactly the number of
    [getCachedResponse] calls made while the cache was enabled: stores,
    deletions, clears, evictions and configuration updates leave the
    counters alone.  [resetCacheStats] sets both counters to 0 and keeps
    the state well formed, so from then on the sum is that number. *)
Theorem hits_and_misses_count_the_lookups {R : Type} (s : CacheState R)
    (cells : list cell) (ops : list (CacheOp (R := R))) :
  cache_inv s cells → Forall op_ok ops →
  (∃ s', run_ops ops s = Some s'
         ∧ stat_hits s' + stat_misses s'
           = stat_hits s + stat_misses s + lookups ops s
         ∧ stat_hits s <= stat_hits s' ∧ stat_misses s <= stat_misses s')
  ∧ stat_hits (resetCacheStats s) = 0
  ∧ stat_misses (resetCacheStats s) = 0
  ∧ cache (resetCacheStats s) = cache s
  ∧ ∃ s', run_ops ops (resetCacheStats s) = Some s'
          ∧ stat_hits s' + stat_misses s' = lookups ops (resetCacheStats s)
          ∧ 0 <= stat_hits s' ∧ 0 <= stat_misses s'.
Proof.
  intros Hinv Hops.
  assert (Hgen : ∀ s0 : CacheState R, cache_inv s0 cells →
            ∃ s', run_ops ops s0 = Some s'
                  ∧ stat_hits s' + stat_misses s'
                    = stat_hits s0 + stat_misses s0 + lookups ops s0
                  ∧ stat_hits s0 <= stat_hits s'
                  ∧ stat_misses s0 <= stat_misses s').
  { intros s0 Hinv0.
    destruct (run_ops_inv ops s0 cells Hinv0 Hops) as (s' & cells' & Hrun & _).
    exists s'. split; [done |]. by apply run_ops_counts. }
  split_and!; [by apply Hgen | done | done | done |].
  destruct (Hgen (resetCacheStats s)) as (s' & Hrun & Hsum & Hh & Hm).
  { by apply with_stats_inv. }
  exists s'. simpl in Hsum, Hh, Hm. split_and!; [done | lia | lia | lia].
Qed.

(** On the initial state: one lookup is made while the cache is
    enabled. *)
Lemma hits_and_misses_count_the_lookups_witness :
  ∃ s, run_ops shrinking (initial_state string) = Some s
       ∧ stat_hits s + stat_misses s = 1
       ∧ 0 <= stat_hits s ∧ 0 <= stat_misses s.
Proof.
  destruct (hits_and_misses_count_the_lookups (initial_state string) []
              shrinking (cache_inv_empty _))
    as ((s & Hrun & Hsum & Hh & Hm) & _).
  { repeat constructor; apply generateCacheKey_nonempty. }
  exists s. split_and!; [exact Hrun | exact Hsum | exact Hh | exact Hm].
Defined.

Section Persistence.
Context {R : Type}.
Implicit Types (s : CacheState R) (cells : list cell).
Implicit Types (e : CacheEntry R) (l : list (CacheEntry R)).

Local Abbreviation by_access :=
  (λ a b : CacheEntry R, lastAccessed a <= lastAccessed b).

Lemma insert_by_access_perm e l : insert_by_access e l ≡ₚ e :: l.
Proof.
  induction l as [| x rest IH]; [done |]. simpl.
  destruct (_ <=? _); [done |]. rewrite IH. apply Permutation_swap.
Qed.

Lemma sort_by_access_perm l : sort_by_access l ≡ₚ l.
Proof.
  induction l as [| e l IH]; [done |]. simpl.
  by rewrite insert_by_access_perm, IH.
Qed.

Lemma insert_by_access_sorted e l :
  StronglySorted by_access l → StronglySorted by_access (insert_by_access e l).
Proof.
  induction 1 as [| x rest Hs IH Hx]; simpl.
  - repeat constructor.
  - destruct (Z.leb_spec (lastAccessed e) (lastAccessed x)).
    + constructor; [by constructor |]. constructor; [done |].
      eapply Forall_impl; [done |]. simpl. intros; lia.
    + constructor; [done |]. rewrite insert_by_access_perm.
      constructor; [lia | done].
Qed.

Lemma sort_by_access_sorted l : StronglySorted by_access (sort_by_access l).
Proof.
  induction l; simpl; [constructor | by apply insert_by_access_sorted].
Qed.

Lemma load_entry_ok s cells e :
  cache_inv s cells → key e ∉ cells.*2 → key e ≠ "" →
  cache_inv (load_entry s e) ((nextAddr s, key e) :: cells).
Proof.
  intros (Hok & Hkeys & Hne) Hk Hnonempty. split_and!.
  - apply (addToFront_ok (with_cache s (<[key e := e]> (cache s)) (isDirty s)));
      [by apply with_cache_lru_ok | done].
  - intros k. change (cache (load_entry s e)) with (<[key e := e]> (cache s)).
    rewrite fmap_cons, elem_of_cons. simpl. rewrite <- Hkeys.
    destruct (decide (k = key e)) as [-> | Hneq].
    + rewrite lookup_insert_eq. split; eauto.
    + rewrite lookup_insert_ne by done. split; [by right | by intros [? |]].
  - rewrite fmap_cons. simpl. intros [? | ?]%elem_of_cons; [done |]. by apply Hne.
Qed.

(** The loop of [loadCache] over entries sorted by access time, run on
    an empty cache. *)
Lemma load_entries_ok l :
  ∀ s0, cache_inv s0 [] → cache s0 = ∅ →
    NoDup (key <$> l) → ("" ∉ key <$> l) → StronglySorted by_access l →
    let s' := foldl load_entry s0 l in
    ∃ cells, cache_inv s' cells
      ∧ cells.*2 = reverse (key <$> l)
      ∧ (∀ k e, cache s' !! k = Some e ↔ e ∈ l ∧ key e = k)
      ∧ newest_first (cache s') cells
      ∧ cacheConfig s' = cacheConfig s0
      ∧ stat_hits s' = stat_hits s0
      ∧ stat_misses s' = stat_misses s0
      ∧ savedTokens s' = savedTokens s0
      ∧ isDirty s' = isDirty s0.
Proof.
  induction l as [| e l IH] using rev_ind; intros s0 Hinv0 Hempty Hnd Hne Hsorted.
  { exists []. split_and!; try done.
    intros k e. simpl. rewrite Hempty, lookup_empty. split; [done |].
    by intros [?%elem_of_nil _]. }
  cbn zeta. rewrite foldl_app. simpl.
  rewrite fmap_app in Hnd, Hne. simpl in Hnd, Hne.
  apply NoDup_app in Hnd as (Hnd & Hfresh & _).
  assert (Hke : key e ∉ key <$> l).
  { intros Hin. apply (Hfresh _ Hin). apply elem_of_cons. by left. }
  destruct (IH s0 Hinv0 Hempty Hnd) as
    (cells & Hinv & Hcells & Hcontent & Hnewest & Hcfg & Hh & Hm & Ht & Hd).
  { intros Hin. apply Hne. apply elem_of_app. by left. }
  { by apply StronglySorted_app_1_l in Hsorted. }
  set (s1 := foldl load_entry s0 l) in *.
  assert (Hstamp : ∀ c, c ∈ cells →
            c.2 ≠ key e ∧ ∃ e', e' ∈ l ∧ cache s1 !! c.2 = Some e').
  { intros c Hc.
    assert (Hin : c.2 ∈ key <$> l).
    { rewrite <- elem_of_reverse, <- Hcells.
      apply list_elem_of_fmap. by exists c. }
    split; [by intros Heq; rewrite Heq in Hin |].
    apply list_elem_of_fmap in Hin as (e' & Heq & Hin).
    exists e'. split; [done |]. by apply Hcontent. }
  exists ((nextAddr s1, key e) :: cells). split_and!; try done.
  - apply load_entry_ok; [done | |].
    + by rewrite Hcells, elem_of_reverse.
    + intros Heq. apply Hne. apply elem_of_app. right.
      apply elem_of_cons. by left.
  - rewrite fmap_cons, Hcells, fmap_app, reverse_app. done.
  - intros k e'.
    change (cache (load_entry s1 e)) with (<[key e := e]> (cache s1)).
    rewrite elem_of_app, list_elem_of_singleton.
    destruct (decide (k = key e)) as [-> | Hneq].
    + rewrite lookup_insert_eq. split.
      * intros [= <-]. split; [by right | done].
      * intros [[Hin | ->] Hkey]; [| done].
        exfalso. apply Hke. rewrite <- Hkey. apply list_elem_of_fmap. by exists e'.
    + rewrite lookup_insert_ne by done. rewrite Hcontent. split.
      * intros [? ?]. split; [by left | done].
      * intros [[Hin | ->] Hkey]; [done | by destruct Hneq].
  - change (cache (load_entry s1 e)) with (<[key e := e]> (cache s1)).
    split.
    + intros c Hc. destruct (Hstamp c Hc) as (Hneq & e' & Hin & Hlook).
      unfold stamp. simpl. rewrite lookup_insert_eq.
      rewrite lookup_insert_ne by done. rewrite Hlook. simpl.
      apply (StronglySorted_app_1_elem_of by_access l [e]); [done | done |].
      apply elem_of_cons. by left.
    + apply (newest_first_ext (cache s1)); [| done].
      intros c Hc. destruct (Hstamp c Hc) as (Hneq & _).
      unfold stamp. by rewrite lookup_insert_ne.
Qed.

Lemma elem_of_List_filter (f : CacheEntry R → bool) l e :
  e ∈ List.filter f l ↔ e ∈ l ∧ f e = true.
Proof. by rewrite !list_elem_of_In, filter_In. Qed.

Lemma NoDup_keys_List_filter (f : CacheEntry R → bool) l :
  NoDup (key <$> l) → NoDup (key <$> List.filter f l).
Proof.
  induction l as [| e l IH]; [done |]. simpl.
  intros [Hk Hnd]%NoDup_cons. destruct (f e); [| by apply IH].
  simpl. apply NoDup_cons. split; [| by apply IH].
  intros (e' & Heq & [Hin _]%elem_of_List_filter)%list_elem_of_fmap.
  apply Hk. apply list_elem_of_fmap. by exists e'.
Qed.

(** [loadCache]: the cache holds the entries of the file that are
    younger than the TTL, however many, with the recency list in the
    order of their access times; the counters are those of the file. *)
Lemma loadCache_spec now (file : option (SavedCache R)) s :
  let entries := file_entries file in
  let ttlMs := ttlSeconds (cacheConfig s) * 1000 in
  NoDup (key <$> entries) → ("" ∉ key <$> entries) →
  let s' := loadCache now file s in
  ∃ cells, cache_inv s' cells
    ∧ newest_first (cache s') cells
    ∧ (∀ k e, cache s' !! k = Some e
              ↔ e ∈ entries ∧ key e = k ∧ now - createdAt e < ttlMs)
    ∧ length cells
      = length (List.filter (λ e, now - createdAt e <? ttlMs) entries)
    ∧ cacheConfig s' = cacheConfig s
    ∧ isDirty s' = isDirty s
    ∧ (stat_hits s', stat_misses s', savedTokens s')
      = match file ≫= sv_stats with
        | Some st => (sv_hits st, sv_misses st, sv_savedTokens st)
        | None => (stat_hits s, stat_misses s, savedTokens s)
        end.
Proof.
  intros entries ttlMs Hnd Hne. unfold loadCache.
  destruct file as [parsed |]; cbn zeta.
  2:{ exists []. split_and!; try done; [apply cache_inv_reset |].
      intros k e. simpl. rewrite lookup_empty. split; [done |].
      by intros [?%elem_of_nil _]. }
  change (default [] (sv_entries parsed)) with entries.
  change (ttlSeconds (cacheConfig (resetLRU (with_cache s ∅ (isDirty s)))) * 1000)
    with ttlMs.
  set (fresh := λ e : CacheEntry R, now - createdAt e <? ttlMs).
  set (valid := sort_by_access (List.filter fresh entries)).
  pose proof (sort_by_access_perm (List.filter fresh entries)) as Hperm.
  fold valid in Hperm.
  destruct (load_entries_ok valid (resetLRU (with_cache s ∅ (isDirty s))))
    as (cells & Hinv & Hcells & Hcontent & Hnewest & Hcfg & Hh & Hm & Ht & Hd).
  { apply cache_inv_reset. }
  { done. }
  { rewrite Hperm. by apply NoDup_keys_List_filter. }
  { rewrite Hperm.
    intros (e & Heq & [Hin _]%elem_of_List_filter)%list_elem_of_fmap.
    apply Hne. apply list_elem_of_fmap. by exists e. }
  { apply sort_by_access_sorted. }
  set (s1 := foldl load_entry _ valid) in *.
  assert (Hcontent' : ∀ k e, cache s1 !! k = Some e
            ↔ e ∈ entries ∧ key e = k ∧ now - createdAt e < ttlMs).
  { intros k e. rewrite Hcontent, Hperm, elem_of_List_filter.
    unfold fresh. rewrite Z.ltb_lt. tauto. }
  assert (Hlen : length cells = length (List.filter fresh entries)).
  { rewrite <- (length_fmap snd cells), Hcells, length_reverse, length_fmap.
    by rewrite Hperm. }
  exists cells. simpl. destruct (sv_stats parsed) as [st |].
  - split_and!; try done. by apply with_stats_inv.
  - split_and!; try done. by rewrite Hh, Hm, Ht.
Qed.

Lemma keys_of_saved_entries (m : gmap string (CacheEntry R))
    (order : list string) :
  keyed m → (∀ k, k ∈ order → is_Some (m !! k)) →
  key <$> omap (λ k, m !! k) order = order.
Proof.
  intros Hkeyed. induction order as [| k order IH]; [done |].
  intros Hall. simpl.
  destruct (Hall k) as [e He]; [apply elem_of_cons; by left |].
  rewrite He. simpl. rewrite (Hkeyed k e He). f_equal.
  apply IH. intros k' Hk'. apply Hall. apply elem_of_cons. by right.
Qed.

(** Every call keeps each entry under its own key. *)
Lemma run_op_keyed (op : CacheOp) s s' cells :
  cache_inv s cells → op_ok op → keyed (cache s) →
  run_op op s = Some s' → keyed (cache s').
Proof.
  intros Hinv Hop Hkeyed.
  destruct op as [now k | now o | k | | config]; simpl.
  - intros [= <-]. destruct (enabled (cacheConfig s)) eqn:Hen.
    + destruct (cache s !! k) as [e |] eqn:Hk.
      * destruct (Z_le_gt_dec (now - createdAt e)
                    (ttlSeconds (cacheConfig s) * 1000)) as [Hle | Hgt].
        -- destruct (getCachedResponse_hit s now k e Hen Hk Hle)
             as (s1 & -> & Hc & _).
           simpl. rewrite Hc.
           apply map_Forall_insert_2; [| done]. simpl. by apply Hkeyed.
        -- destruct (getCachedResponse_expired s now k e Hen Hk Hgt)
             as (s1 & -> & Hc & _).
           simpl. rewrite Hc. by apply map_Forall_delete.
      * destruct (getCachedResponse_absent s now k Hen Hk)
          as (s1 & -> & Hc & _).
        simpl. by rewrite Hc.
    + unfold getCachedResponse. by rewrite Hen.
  - destruct (enabled (cacheConfig s)) eqn:Hen.
    + destruct (setCachedResponse_ok s cells now o Hinv Hen Hop)
        as (s1 & -> & _ & _ & Hc).
      intros [= <-] k e. rewrite Hc. destruct (decide _); [| done].
      destruct (decide (k = o_key o)) as [-> | Hneq].
      * rewrite lookup_insert_eq. by intros [= <-].
      * rewrite lookup_insert_ne by done. apply Hkeyed.
    + unfold setCachedResponse. rewrite Hen. simpl. by intros [= <-].
  - intros [= <-]. unfold deleteCacheEntry.
    destruct (cache s !! k); [| done]. simpl.
    destruct (removeNode_frame k (with_cache s (delete k (cache s)) (isDirty s)))
      as (-> & _).
    by apply map_Forall_delete.
  - intros [= <-]. apply map_Forall_empty.
  - destruct (updateCacheConfig_spec s cells config Hinv)
      as (s1 & -> & _ & _ & Hc).
    intros [= <-] k e. rewrite Hc. destruct (decide _); [apply Hkeyed | done].
Qed.

Lemma reachable_keyed (ops : list (CacheOp (R := R))) :
  Forall op_ok ops →
  ∃ s cells, run_ops ops (initial_state R) = Some s
             ∧ cache_inv s cells ∧ keyed (cache s).
Proof.
  assert (Hgen : ∀ ops s cells,
            cache_inv s cells → keyed (cache s) → Forall op_ok ops →
            ∃ s' cells', run_ops ops s = Some s'
                         ∧ cache_inv s' cells' ∧ keyed (cache s')).
  { clear ops. induction ops as [| op rest IH]; intros s cells Hinv Hkeyed Hops.
    - by exists s, cells.
    - apply Forall_cons in Hops as [Hop Hrest]. simpl.
      destruct (run_op_inv op s cells Hinv Hop) as (s1 & cells1 & Hrun & Hinv1).
      rewrite Hrun. apply (IH s1 cells1); [done | | done].
      by apply (run_op_keyed op s s1 cells). }
  intros Hops. apply (Hgen ops _ []); [apply cache_inv_empty | | done].
  apply map_Forall_empty.
Qed.

End Persistence.

(** X27: what [loadCache] restores.  If the entries of the cache file have
    distinct, non-empty keys, then after [loadCache] the cache holds
    exactly those of them created less than the TTL ago (an age equal to
    the TTL is already too old), all of them even beyond [maxSize], and
    the recency list is well formed and ordered by their access times.
    With no readable file the cache is left empty. *)
Theorem loadCache_restores_unexpired_entries_by_access_time {R : Type}
    (now : Z) (file : option (SavedCache R)) (s : CacheState R) :
  NoDup (key <$> file_entries file) → ("" ∉ key <$> file_entries file) →
  let s' := loadCache now file s in
  let ttlMs := ttlSeconds (cacheConfig s) * 1000 in
  (∃ cells, cache_inv s' cells ∧ newest_first (cache s') cells)
  ∧ (∀ k e, cache s' !! k = Some e
            ↔ e ∈ file_entries file ∧ key e = k ∧ now - createdAt e < ttlMs)
  ∧ size (cache s')
    = length (List.filter (λ e, now - createdAt e <? ttlMs) (file_entries file))
  ∧ (file = None → cache s' = ∅).
Proof.
  intros Hnd Hne. cbv zeta.
  destruct (loadCache_spec now file s Hnd Hne)
    as (cells & Hinv & Hnewest & Hcontent & Hlen & _).
  split_and!.
  - by exists cells.
  - done.
  - by rewrite (cache_inv_size _ _ Hinv).
  - by intros ->.
Qed.

Lemma loadCache_restores_unexpired_entries_by_access_time_witness :
  let s' := loadCache 1000 (Some saved_file) one_slot in
  cache s' !! key_a = Some (saved_entry key_a 200 300)
  ∧ size (cache s') = 2%nat.
Proof.
  assert (Hnd : NoDup (key <$> file_entries (Some saved_file))).
  { apply (bool_decide_unpack _). by vm_compute. }
  assert (Hne : "" ∉ key <$> file_entries (Some saved_file)).
  { apply (bool_decide_unpack _). by vm_compute. }
  destruct (loadCache_restores_unexpired_entries_by_access_time
              1000 (Some saved_file) one_slot Hnd Hne)
    as (_ & Hcontent & Hsize & _).
  split.
  - apply Hcontent. split_and!; [| done | done].
    apply elem_of_cons. right. apply elem_of_cons. by left.
  - exact Hsize.
Defined.

(** X28: the cache survives a restart.  [saveCache] on a well-formed,
    dirty cache writes a file and clears the dirty flag, so that a second
    call writes nothing; [loadCache] on that file, under any later
    configuration, restores exactly the saved entries that are younger
    than the TTL, together with the three counters. *)
Theorem saved_cache_is_restored {R : Type} (s s0 : CacheState R)
    (cells : list cell) (order : list string) (now : Z) :
  cache_inv s cells → keyed (cache s) → isDirty s = true →
  NoDup order → (∀ k, k ∈ order ↔ is_Some (cache s !! k)) →
  ∃ file s1,
    saveCache order true s = (Some file, s1)
    ∧ cache s1 = cache s
    ∧ saveCache order true s1 = (None, s1)
    ∧ let s' := loadCache now (Some file) s0 in
      cache s' = unexpired now (ttlSeconds (cacheConfig s0) * 1000) (cache s)
      ∧ stat_hits s' = stat_hits s
      ∧ stat_misses s' = stat_misses s
      ∧ savedTokens s' = savedTokens s
      ∧ ∃ cells', cache_inv s' cells' ∧ newest_first (cache s') cells'.
Proof.
  intros Hinv Hkeyed Hdirty Hnd Horder.
  pose proof Hinv as (_ & Hkeys & Hne).
  unfold saveCache at 1. rewrite Hdirty. cbn [negb]. cbv zeta.
  eexists _, _. split; [reflexivity |]. split; [done |]. split; [done |].
  set (file := {| sv_entries := _; sv_stats := _ |}).
  assert (Hk : key <$> file_entries (Some file) = order).
  { apply keys_of_saved_entries; [done |]. intros k. apply Horder. }
  destruct (loadCache_spec now (Some file) s0)
    as (cells' & Hinv' & Hnewest & Hcontent & _).
  { by rewrite Hk. }
  { rewrite Hk. intros Hin. apply Hne, Hkeys, Horder, Hin. }
  split_and!; [| reflexivity.. | by exists cells'].
  apply map_eq. intros k. apply option_eq. intros e.
  rewrite Hcontent. unfold unexpired. rewrite map_lookup_filter_Some. simpl.
  split.
  - intros ((k' & Hin & He)%list_elem_of_omap & <- & Hfresh).
    split; [| done]. by rewrite (Hkeyed k' e He).
  - intros [He Hfresh]. split_and!; [| by apply Hkeyed | done].
    apply list_elem_of_omap. exists k. split; [| done].
    apply Horder. by exists e.
Qed.

Lemma saved_cache_is_restored_witness :
  ∃ s order file s1,
    run_ops shrinking (initial_state string) = Some s
    ∧ saveCache order true s = (Some file, s1)
    ∧ cache (loadCache 4 (Some file) (initial_state string))
      = unexpired 4 (3600 * 1000) (cache s).
Proof.
  destruct (reachable_keyed shrinking) as (s & cells & Hrun & Hinv & Hkeyed).
  { repeat constructor; apply generateCacheKey_nonempty. }
  assert (Hdirty : isDirty s = true).
  { cut (Some s = Some s → isDirty s = true); [by auto |].
    rewrite <- Hrun at 1. vm_compute. by intros [= <-]. }
  pose proof Hinv as (Hok & Hkeys & _).
  destruct (saved_cache_is_restored s (initial_state string) cells cells.*2 4
              Hinv Hkeyed Hdirty (ok_keys _ _ Hok))
    as (file & s1 & Hsave & _ & _ & Hload & _).
  { intros k. symmetry. apply Hkeys. }
  exists s, cells.*2, file, s1. split_and!; [exact Hrun | exact Hsave | exact Hload].
Defined.

(** X29: [DELETE /api/cache/:key].  On a well-formed cache the route
    answers 200 if the key has an entry, expired or not, and 404
    otherwise; afterwards the key has no entry and no node in the
    recency list, every other entry is as before, a lookup of the key
    returns nothing and a second request answers 404. *)
Theorem delete_route_removes_the_entry {R : Type} (s : CacheState R)
    (cells : list cell) (k : string) :
  cache_inv s cells →
  let r := delete_route k s in
  r.1 = match cache s !! k with Some _ => 200 | None => 404 end
  ∧ cache r.2 = delete k (cache s)
  ∧ cache_inv r.2 (filter (λ c, c.2 ≠ k) cells)
  ∧ (∀ now, (getCachedResponse now k r.2).1 = None)
  ∧ (delete_route k r.2).1 = 404.
Proof.
  intros Hinv r.
  pose proof (deleteCacheEntry_ok s cells k Hinv) as Hinv'.
  assert (Hc : cache (deleteCacheEntry k s).2 = delete k (cache s)).
  { unfold deleteCacheEntry. destruct (cache s !! k) eqn:Hk; simpl.
    - by destruct (removeNode_frame k
                     (with_cache s (delete k (cache s)) (isDirty s)))
        as (-> & _).
    - by rewrite delete_id. }
  assert (Hr : r = (match cache s !! k with Some _ => 200 | None => 404 end,
                    (deleteCacheEntry k s).2)).
  { unfold r, delete_route, deleteCacheEntry.
    by destruct (cache s !! k). }
  rewrite Hr. cbn [fst snd]. split_and!; [done | done | done | |].
  - intros now. unfold getCachedResponse.
    destruct (negb _); [done |]. by rewrite Hc, lookup_delete_eq.
  - unfold delete_route, deleteCacheEntry at 1.
    by rewrite Hc, lookup_delete_eq.
Qed.

Lemma delete_route_removes_the_entry_witness :
  ∃ s, after_a_b = Some s
       ∧ (delete_route key_a s).1 = 200
       ∧ (delete_route key_c s).1 = 404.
Proof.
  destruct after_a_b_inv as (s & Hs & Hinv & _ & _ & _ & Hc & Ha).
  exists s. split; [exact Hs |]. split.
  - destruct (delete_route_removes_the_entry s _ key_a Hinv) as (-> & _).
    by rewrite Ha.
  - destruct (delete_route_removes_the_entry s _ key_c Hinv) as (-> & _).
    by rewrite Hc.
Defined.

End CacheAdminFacts.
